(** * PROMETHEUS Global Infrastructure Brain: orchestrator and self-healing engine

    A shallow embedding of [src/infrastructure_brain.py]
    ([MultiCloudOrchestrator] and [SelfHealingEngine]) and the properties of
    its placement, scaling, routing and healing operations, followed by
    [EdgeComputingNetwork] and [PrometheusInfrastructureBrain] of the same
    file and [SatelliteNetwork] of [src/satellite_integration.py].

    Python values are modelled as follows.
    - [int] is [Z] (unbounded).
    - [float] is the rational value of a finite IEEE-754 binary64 number, a [Q];
      every arithmetic operation that yields a float rounds its exact result
      with [round64] (round to nearest, ties to even, 53 bits, gradual
      underflow).  Comparisons between an [int] and a [float] are exact, as
      in Python.
    - a [dict] keyed by the [id] of its values is the list of its values in
      insertion order; the objects it holds are addressed by their position.
    - exceptions are values of [exn]; a method that mutates the registry
      returns the registry it leaves behind together with its result or the
      exception it raised.
    - the clock and the random generator are arguments: functions from the
      iteration that reads them to the value it reads, over which every
      statement quantifies. *)

From Stdlib Require Import ZArith QArith Qabs String Ascii List Bool Lia Permutation Sorted.
From Stdlib Require Import DecimalString.
From Stdlib Require DecimalZ DecimalPos.
Import ListNotations.
Local Open Scope Z_scope.

(** ** Exceptions *)

Inductive exn : Type :=
| ValueError
| ZeroDivisionError
| OverflowError
| KeyError.

(** Pure computations that can raise. *)
Inductive result (A : Type) : Type :=
| Ok (a : A)
| Raise (e : exn).
Arguments Ok {A} a.
Arguments Raise {A} e.

Definition bind {A B : Type} (r : result A) (k : A -> result B) : result B :=
  match r with
  | Ok a => k a
  | Raise e => Raise e
  end.

Notation "'let*' x ':=' r 'in' k" := (bind r (fun x => k))
  (at level 10, x pattern, r at level 100, k at level 200).

Fixpoint mapM {A B : Type} (f : A -> result B) (l : list A) : result (list B) :=
  match l with
  | [] => Ok []
  | a :: l' =>
      let* b := f a in
      let* bs := mapM f l' in
      Ok (b :: bs)
  end.

(** Strict comparison of two rationals, as a boolean. *)
Definition Qltb (x y : Q) : bool :=
  match (x ?= y)%Q with
  | Lt => true
  | _ => false
  end.

(** ** Binary64 arithmetic *)

Module Float64.

(** Nearest integer to [p / q] for [q > 0], ties to the even neighbour. *)
Definition round_half_even (p q : Z) : Z :=
  let f := p / q in
  let r := p mod q in
  match 2 * r ?= q with
  | Lt => f
  | Gt => f + 1
  | Eq => if Z.even f then f else f + 1
  end.

(** The exponent of the unit in the last place of the binary64 number
    nearest to [a / d], for [a, d > 0]: the [e] with
    [2^52 <= (a/d) / 2^e < 2^53], and [-1074] in the subnormal range. *)
Definition ulp_exponent (a d : Z) : Z :=
  let e0 := Z.log2 a - Z.log2 d - 53 in
  let e1 :=
    if 0 <=? e0
    then (if a <? 2 ^ 53 * (d * 2 ^ e0) then e0 else e0 + 1)
    else (if a * 2 ^ (- e0) <? 2 ^ 53 * d then e0 else e0 + 1) in
  Z.max e1 (-1074).

(** [a / d] rounded to the binary64 grid, as a rational, for [a >= 0], [d > 0];
    the exponent is not bounded above here, the callers check the range. *)
Definition round_pos (a d : Z) : Q :=
  if a =? 0 then 0%Q
  else
    let e := ulp_exponent a d in
    if 0 <=? e
    then inject_Z (round_half_even a (d * 2 ^ e) * 2 ^ e)
    else Qmake (round_half_even (a * 2 ^ (- e)) d) (Z.to_pos (2 ^ (- e))).

Definition round64 (x : Q) : Q :=
  let n := Qnum x in
  let d := Zpos (Qden x) in
  if n <? 0 then Qopp (round_pos (- n) d) else round_pos n d.

(** The largest finite binary64 number is below [2^1024]; a result that
    rounds to [2^1024] or more does not fit. *)
Definition fits (x : Q) : bool := Qltb (Qabs x) (inject_Z (2 ^ 1024)).

(** [float(n)], the conversion applied to the [int] operand of a mixed
    [int * float] product: [OverflowError] when [n] is too large. *)
Definition of_int (n : Z) : result Q :=
  let x := round64 (inject_Z n) in
  if fits x then Ok x else Raise OverflowError.

(** [a / b] on two [int]s (true division): correctly rounded,
    [ZeroDivisionError] when [b = 0], [OverflowError] when the quotient is
    too large for a float. *)
Definition true_div (a b : Z) : result Q :=
  if b =? 0 then Raise ZeroDivisionError
  else
    let x := round64 (if b <? 0 then Qmake (- a) (Z.to_pos (- b)) else Qmake a (Z.to_pos b)) in
    if fits x then Ok x else Raise OverflowError.

(** Product of two floats.  The second factor is always one of the
    literals [0.9], [0.95], [0.2] below, so the product of a finite float
    is finite. *)
Definition mul (x y : Q) : Q := round64 (x * y).

(** [int(x)]: truncation toward zero. *)
Definition to_int (x : Q) : Z := Z.quot (Qnum x) (Zpos (Qden x)).

(** A float literal denotes the binary64 number nearest to its decimal value. *)
Definition literal (x : Q) : Q := Qred (round64 x).

End Float64.

Definition lit_0_9 : Q := Eval vm_compute in Float64.literal (9 # 10).
Definition lit_0_95 : Q := Eval vm_compute in Float64.literal (95 # 100).
Definition lit_0_2 : Q := Eval vm_compute in Float64.literal (2 # 10).
Definition lit_99_9 : Q := Eval vm_compute in Float64.literal (999 # 10).


(** ** Data model *)

Inductive CloudProvider : Type := AWS | AZURE | GCP | ORACLE | ALIBABA.

Inductive RegionStatus : Type := HEALTHY | DEGRADED | CRITICAL | OFFLINE.

Definition RegionStatus_eqb (a b : RegionStatus) : bool :=
  match a, b with
  | HEALTHY, HEALTHY | DEGRADED, DEGRADED | CRITICAL, CRITICAL | OFFLINE, OFFLINE => true
  | _, _ => false
  end.

(** [DataCenter.id] is [dc_id] and [ServiceInstance.id] is [instance_id]. *)
Record DataCenter : Type := mkDataCenter {
  dc_id : string;
  provider : CloudProvider;
  region : string;
  country : string;
  capacity : Z;
  current_load : Z;
  status : RegionStatus;
  latency_ms : Q;
  uptime : Q
}.

Record ServiceInstance : Type := mkServiceInstance {
  instance_id : string;
  service_name : string;
  datacenter_id : string;
  cpu_usage : Q;
  memory_usage : Q;
  requests_per_sec : Z;
  health : Q
}.

(** [ServiceInstance(id=.., service_name=.., datacenter_id=..)] with the
    dataclass defaults. *)
Definition new_instance (i name dc : string) : ServiceInstance :=
  mkServiceInstance i name dc 0 0 0 1.

Definition set_current_load (l : Z) (dc : DataCenter) : DataCenter :=
  mkDataCenter (dc_id dc) (provider dc) (region dc) (country dc) (capacity dc)
    l (status dc) (latency_ms dc) (uptime dc).

Definition add_current_load (delta : Z) (dc : DataCenter) : DataCenter :=
  set_current_load (current_load dc + delta) dc.

(** The two assignments of [_heal_datacenter]. *)
Definition recover_datacenter (dc : DataCenter) : DataCenter :=
  mkDataCenter (dc_id dc) (provider dc) (region dc) (country dc) (capacity dc)
    (current_load dc) HEALTHY (latency_ms dc) lit_99_9.

(** The three assignments of [_heal_service]. *)
Definition recover_service (s : ServiceInstance) : ServiceInstance :=
  mkServiceInstance (instance_id s) (service_name s) (datacenter_id s)
    50 60 (requests_per_sec s) 1.

Record MultiCloudOrchestrator : Type := mkOrchestrator {
  datacenters : list DataCenter;
  services : list ServiceInstance;
  total_users : Z;
  global_traffic : Z
}.

Record SelfHealingEngine : Type := mkEngine {
  orchestrator : MultiCloudOrchestrator;
  healing_actions : Z
}.

Definition set_datacenters (dcs : list DataCenter) (o : MultiCloudOrchestrator)
  : MultiCloudOrchestrator :=
  mkOrchestrator dcs (services o) (total_users o) (global_traffic o).

Definition set_services (svcs : list ServiceInstance) (o : MultiCloudOrchestrator)
  : MultiCloudOrchestrator :=
  mkOrchestrator (datacenters o) svcs (total_users o) (global_traffic o).

(** ** Python containers *)

(** The object at position [i] is replaced by [f] of itself; positions out of
    range do not occur (every index used below comes from the list itself). *)
Fixpoint update_nth {A : Type} (i : nat) (f : A -> A) (l : list A) : list A :=
  match l, i with
  | [], _ => []
  | a :: r, O => f a :: r
  | a :: r, S j => a :: update_nth j f r
  end.

(** The values of a dict paired with their positions. *)
Definition enumerate {A : Type} (l : list A) : list (nat * A) :=
  combine (seq 0 (length l)) l.

(** [l[:n]]: the first [n] elements, and all but the last [-n] when [n < 0]. *)
Definition slice_to {A : Type} (l : list A) (n : Z) : list A :=
  if 0 <=? n then firstn (Z.to_nat n) l
  else firstn (length l - Z.to_nat (- n)) l.

(** [sorted(l, key=..)] on precomputed keys: the sort is stable, so its result
    is the one of a stable insertion sort.  An element is inserted before the
    first element whose key is not smaller; elements are inserted from the
    last to the first. *)
Fixpoint insert_by_key {A : Type} (x : Q * A) (l : list (Q * A)) : list (Q * A) :=
  match l with
  | [] => [x]
  | y :: r => if Qltb (fst y) (fst x) then y :: insert_by_key x r else x :: y :: r
  end.

Definition sort_by_key {A : Type} (l : list (Q * A)) : list (Q * A) :=
  fold_right insert_by_key [] l.

(** [sorted(l, key=key)]: the key of every element is computed first, in
    order; an exception raised by [key] propagates. *)
Definition sorted {A : Type} (key : A -> result Q) (l : list A) : result (list A) :=
  let* ks := mapM key l in
  Ok (map snd (sort_by_key (combine ks l))).

(** The loop of [min(l, key=key)] after the first element: a later element
    replaces the current one only when its key is strictly smaller. *)
Fixpoint min_loop {A : Type} (key : A -> result Q) (l : list A) (best : A) (kbest : Q)
  : result A :=
  match l with
  | [] => Ok best
  | x :: r =>
      let* kx := key x in
      if Qltb kx kbest then min_loop key r x kx else min_loop key r best kbest
  end.

(** [min(l, key=key)]: [ValueError] on an empty list. *)
Definition py_min {A : Type} (key : A -> result Q) (l : list A) : result A :=
  match l with
  | [] => Raise ValueError
  | a :: r => let* ka := key a in min_loop key r a ka
  end.

(** [d[k] = v] on a dict keyed by [instance_id]: an existing key keeps its
    position and takes the new value, a new key goes last. *)
Fixpoint dict_set (v : ServiceInstance) (d : list ServiceInstance) : list ServiceInstance :=
  match d with
  | [] => [v]
  | s :: r =>
      if String.eqb (instance_id s) (instance_id v) then v :: r
      else s :: dict_set v r
  end.

(** [del d[k]]: [KeyError] when the key is absent. *)
Fixpoint dict_del (k : string) (d : list ServiceInstance) : result (list ServiceInstance) :=
  match d with
  | [] => Raise KeyError
  | s :: r =>
      if String.eqb (instance_id s) k then Ok r
      else let* r' := dict_del k r in Ok (s :: r')
  end.

(** [str(n)] for an [int]. *)
Definition str (n : Z) : string := NilZero.string_of_int (Z.to_int n).

(** [l.pop()] on a non-empty list: the last element and the list without it. *)
Definition pop {A : Type} (l : list A) : option (A * list A) :=
  match rev l with
  | [] => None
  | x :: r => Some (x, rev r)
  end.

(** A list comprehension whose condition can raise. *)
Fixpoint filterM {A : Type} (f : A -> result bool) (l : list A) : result (list A) :=
  match l with
  | [] => Ok []
  | a :: r =>
      let* b := f a in
      let* r' := filterM f r in
      Ok (if b then a :: r' else r')
  end.

(** A [for] loop over [l] whose body threads the state [S] and can raise: the
    state reached when the exception is raised is the one left behind. *)
Fixpoint for_each {S A : Type} (body : A -> S -> S * result unit) (l : list A) (s : S)
  : S * result unit :=
  match l with
  | [] => (s, Ok tt)
  | a :: r =>
      match body a s with
      | (s', Ok _) => for_each body r s'
      | (s', Raise e) => (s', Raise e)
      end
  end.

(** ** MultiCloudOrchestrator *)

(** The sort key of [deploy_service] and [_heal_overload]:
    [dc.current_load / dc.capacity]. *)
Definition ratio (dc : DataCenter) : result Q :=
  Float64.true_div (current_load dc) (capacity dc).

(** [sorted(self.datacenters.values(), key=..)[:replicas]]; each selected
    object comes with its position in the registry. *)
Definition select_datacenters (dcs : list DataCenter) (replicas : Z)
  : result (list (nat * DataCenter)) :=
  let* by_load := sorted (fun p => ratio (snd p)) (enumerate dcs) in
  Ok (slice_to by_load replicas).

(** [f"{service_name}-{dc.id}-{int(time.time())}"], for the clock reading [t]. *)
Definition instance_name (name : string) (dc : DataCenter) (t : Z) : string :=
  (name ++ "-" ++ dc_id dc ++ "-" ++ str t)%string.

(** The loop of [deploy_service]; [clock k] is what [int(time.time())] reads
    in iteration [k]. *)
Fixpoint deploy_loop (clock : nat -> Z) (k : nat) (name : string)
    (available_dcs : list (nat * DataCenter)) (o : MultiCloudOrchestrator)
    (deployed : list string) : MultiCloudOrchestrator * list string :=
  match available_dcs with
  | [] => (o, deployed)
  | (i, dc) :: r =>
      let iid := instance_name name dc (clock k) in
      let instance := new_instance iid name (dc_id dc) in
      let o1 := set_services (dict_set instance (services o)) o in
      let o2 := set_datacenters (update_nth i (add_current_load 1000) (datacenters o1)) o1 in
      deploy_loop clock (S k) name r o2 (deployed ++ [iid])
  end.

Definition deploy_service (clock : nat -> Z) (o : MultiCloudOrchestrator)
    (name : string) (replicas : Z) : MultiCloudOrchestrator * result (list string) :=
  match select_datacenters (datacenters o) replicas with
  | Raise e => (o, Raise e)
  | Ok available_dcs =>
      let (o', deployed) := deploy_loop clock 0 name available_dcs o [] in
      (o', Ok deployed)
  end.

(** The scale-down loop: [n] iterations, each popping the last of
    [current_instances] (when there is one) and deleting it from the dict. *)
Fixpoint remove_loop (n : nat) (current_instances svcs : list ServiceInstance)
  : list ServiceInstance * result unit :=
  match n with
  | O => (svcs, Ok tt)
  | S n' =>
      match pop current_instances with
      | None => remove_loop n' current_instances svcs
      | Some (instance, rest) =>
          match dict_del (instance_id instance) svcs with
          | Raise e => (svcs, Raise e)
          | Ok svcs' => remove_loop n' rest svcs'
          end
      end
  end.

Definition scale_service (clock : nat -> Z) (o : MultiCloudOrchestrator)
    (name : string) (target_instances : Z) : MultiCloudOrchestrator * result unit :=
  let current_instances :=
    filter (fun s => String.eqb (service_name s) name) (services o) in
  let current_count := Z.of_nat (length current_instances) in
  if current_count <? target_instances then
    let needed := target_instances - current_count in
    let (o', r) := deploy_service clock o name needed in
    (o', let* _ := r in Ok tt)
  else if target_instances <? current_count then
    let to_remove := current_count - target_instances in
    let (svcs, r) := remove_loop (Z.to_nat to_remove) current_instances (services o) in
    (set_services svcs o, r)
  else (o, Ok tt).

(** The condition of the comprehension in [route_traffic]; [and] does not
    evaluate its right operand for a pool that is not healthy. *)
Definition routable (dc : DataCenter) : result bool :=
  if RegionStatus_eqb (status dc) HEALTHY then
    let* c := Float64.of_int (capacity dc) in
    Ok (Qltb (inject_Z (current_load dc)) (Float64.mul c lit_0_9))
  else Ok false.

Definition route_traffic (o : MultiCloudOrchestrator) (user_location : string)
  : result (option string) :=
  let* available_dcs := filterM routable (datacenters o) in
  match available_dcs with
  | [] => Ok None
  | _ =>
      let* best_dc := py_min (fun dc => Ok (latency_ms dc)) available_dcs in
      Ok (Some (dc_id best_dc))
  end.

(** ** SelfHealingEngine *)

(** [dc.current_load > dc.capacity * 0.95]. *)
Definition overloaded (dc : DataCenter) : result bool :=
  let* c := Float64.of_int (capacity dc) in
  Ok (Qltb (Float64.mul c lit_0_95) (inject_Z (current_load dc))).

(** [int(dc.current_load * 0.2)]. *)
Definition migration_amount (load : Z) : result Z :=
  let* x := Float64.of_int load in
  Ok (Float64.to_int (Float64.mul x lit_0_2)).

(** The candidates of [_heal_overload]: the pools whose id differs from the
    source's, with their positions. *)
Definition other_datacenters (dcs : list DataCenter) (dc : DataCenter)
  : list (nat * DataCenter) :=
  filter (fun p => negb (String.eqb (dc_id (snd p)) (dc_id dc))) (enumerate dcs).

(** [_heal_overload(dc)] for the pool [dc] at position [i]. *)
Definition _heal_overload (e : SelfHealingEngine) (i : nat) : SelfHealingEngine * result unit :=
  let o := orchestrator e in
  match nth_error (datacenters o) i with
  | None => (e, Ok tt)
  | Some dc =>
      match py_min (fun p => ratio (snd p)) (other_datacenters (datacenters o) dc) with
      | Raise ex => (e, Raise ex)
      | Ok (j, _) =>
          match migration_amount (current_load dc) with
          | Raise ex => (e, Raise ex)
          | Ok amount =>
              let dcs1 := update_nth i (add_current_load (- amount)) (datacenters o) in
              let dcs2 := update_nth j (add_current_load amount) dcs1 in
              (mkEngine (set_datacenters dcs2 o) (healing_actions e + 1), Ok tt)
          end
      end
  end.

Definition _heal_datacenter (e : SelfHealingEngine) (i : nat) : SelfHealingEngine * result unit :=
  let o := orchestrator e in
  (mkEngine (set_datacenters (update_nth i recover_datacenter (datacenters o)) o)
     (healing_actions e + 1), Ok tt).

Definition _heal_service (e : SelfHealingEngine) (i : nat) : SelfHealingEngine * result unit :=
  let o := orchestrator e in
  (mkEngine (set_services (update_nth i recover_service (services o)) o)
     (healing_actions e + 1), Ok tt).

(** The body of the first loop of [monitor_and_heal], for the pool at position [i]. *)
Definition check_datacenter (i : nat) (e : SelfHealingEngine) : SelfHealingEngine * result unit :=
  match nth_error (datacenters (orchestrator e)) i with
  | None => (e, Ok tt)
  | Some dc =>
      match overloaded dc with
      | Raise ex => (e, Raise ex)
      | Ok b =>
          match (if b then _heal_overload e i else (e, Ok tt)) with
          | (e1, Raise ex) => (e1, Raise ex)
          | (e1, Ok _) =>
              match nth_error (datacenters (orchestrator e1)) i with
              | None => (e1, Ok tt)
              | Some dc1 =>
                  if RegionStatus_eqb (status dc1) HEALTHY then (e1, Ok tt)
                  else _heal_datacenter e1 i
              end
          end
      end
  end.

(** The body of the second loop, for the instance at position [i]. *)
Definition check_service (i : nat) (e : SelfHealingEngine) : SelfHealingEngine * result unit :=
  match nth_error (services (orchestrator e)) i with
  | None => (e, Ok tt)
  | Some service =>
      if Qltb (health service) (1 # 2) then _heal_service e i else (e, Ok tt)
  end.

Definition monitor_and_heal (e : SelfHealingEngine) : SelfHealingEngine * result unit :=
  match for_each check_datacenter (seq 0 (length (datacenters (orchestrator e)))) e with
  | (e1, Raise ex) => (e1, Raise ex)
  | (e1, Ok _) =>
      for_each check_service (seq 0 (length (services (orchestrator e1)))) e1
  end.

(** The loads of the pools, in registry order. *)
Definition loads (e : SelfHealingEngine) : list Z :=
  map current_load (datacenters (orchestrator e)).

(** ** Scenarios *)

Definition pool (i : string) (cap load : Z) (st : RegionStatus) (lat : Q) : DataCenter :=
  mkDataCenter i AWS "r" "c" cap load st lat 100.

Definition fleet (dcs : list DataCenter) (svcs : list ServiceInstance) : SelfHealingEngine :=
  mkEngine (mkOrchestrator dcs svcs 0 0) 0.

Definition fleet_after (dcs : list DataCenter) (svcs : list ServiceInstance) (actions : Z)
  : SelfHealingEngine :=
  mkEngine (mkOrchestrator dcs svcs 0 0) actions.

Definition two_pools : SelfHealingEngine :=
  fleet [pool "a" 100 96 HEALTHY 10; pool "b" 100 0 HEALTHY 20] [].

Definition tied_pools : list DataCenter :=
  [pool "b" 100 0 HEALTHY 10; pool "a" 100 0 HEALTHY 10].

Definition one_pool (load : Z) (svcs : list ServiceInstance) : MultiCloudOrchestrator :=
  mkOrchestrator [pool "a" 100000 load HEALTHY 10] svcs 0 0.

Definition svc_on_a : ServiceInstance := new_instance "svc-a-1700000000" "svc" "a".

Definition sick_instance : ServiceInstance :=
  mkServiceInstance "svc-a-1700000000" "svc" "a" 90 90 0 (1 # 10).

(** A single pool, overloaded and degraded, hosting an unhealthy instance. *)
Definition lone_pool : SelfHealingEngine :=
  fleet [pool "a" 100 96 DEGRADED 10] [sick_instance].

(** An overloaded pool followed by a degraded pool of capacity zero. *)
Definition zero_capacity_neighbour : SelfHealingEngine :=
  fleet [pool "a" 100 96 HEALTHY 10; pool "b" 0 0 DEGRADED 20] [sick_instance].

(** Three empty pools of capacity 100. *)
Definition three_pools : MultiCloudOrchestrator :=
  mkOrchestrator
    [pool "a" 100 0 HEALTHY 10; pool "b" 100 0 HEALTHY 20; pool "c" 100 0 HEALTHY 30] [] 0 0.

(** A small pool at twice its capacity next to a large empty one. *)
Definition uneven_pools : SelfHealingEngine :=
  fleet [pool "a" 100 200 HEALTHY 10; pool "b" 1000 0 HEALTHY 20] [].

(** ** Notions used in the statements *)

(** The operations that change a registry, and the registry each leaves
    behind (whether it returns or raises). *)
Inductive operation : Type :=
| Deploy (clock : nat -> Z) (name : string) (replicas : Z)
| Scale (clock : nat -> Z) (name : string) (target_instances : Z)
| HealOverload (i : nat)
| Monitor.

Definition perform (op : operation) (e : SelfHealingEngine) : SelfHealingEngine :=
  match op with
  | Deploy clock name replicas =>
      mkEngine (fst (deploy_service clock (orchestrator e) name replicas)) (healing_actions e)
  | Scale clock name target =>
      mkEngine (fst (scale_service clock (orchestrator e) name target)) (healing_actions e)
  | HealOverload i => fst (_heal_overload e i)
  | Monitor => fst (monitor_and_heal e)
  end.

Definition run (ops : list operation) (e : SelfHealingEngine) : SelfHealingEngine :=
  fold_left (fun e op => perform op e) ops e.

Definition loads_nonneg (dcs : list DataCenter) : Prop :=
  Forall (fun dc => 0 <= current_load dc) dcs.

Definition sumZ (l : list Z) : Z := fold_right Z.add 0 l.

Definition total_load (e : SelfHealingEngine) : Z := sumZ (loads e).

(** The order a stable sort by key puts keyed, numbered elements in: by key,
    and by position among equal keys. *)
Definition precedes {A : Type} (x y : Q * (nat * A)) : Prop :=
  (fst x < fst y)%Q \/ ((fst x == fst y)%Q /\ (fst (snd x) < fst (snd y))%nat).

(** The range of loads and capacities on which every ratio can be computed. *)
Definition ratio_defined (dc : DataCenter) : Prop :=
  capacity dc <> 0 /\ Z.abs (current_load dc) < 2 ^ 1023.

(** What [deploy_service] does to the pools it selected. *)
Definition place_on (sel : list (nat * DataCenter)) (dcs : list DataCenter)
  : list DataCenter :=
  fold_left (fun l p => update_nth (fst p) (add_current_load 1000) l) sel dcs.

(** The ids [deploy_service] gives to the instances it creates on the
    selected pools, iteration [k] being the first. *)
Definition deployed_ids (clock : nat -> Z) (name : string) (k : nat)
    (sel : list (nat * DataCenter)) : list string :=
  map (fun p => instance_name name (snd (snd p)) (clock (fst p)))
      (combine (seq k (length sel)) sel).

(** The condition [route_traffic] filters on, for a pool whose capacity
    converts to a float. *)
Definition eligible (dc : DataCenter) : bool :=
  RegionStatus_eqb (status dc) HEALTHY &&
  Qltb (inject_Z (current_load dc))
       (Float64.mul (Float64.round64 (inject_Z (capacity dc))) lit_0_9).

(** Capacities [route_traffic] and the monitor can multiply by a float. *)
Definition capacity_in_range (dc : DataCenter) : Prop :=
  Z.abs (capacity dc) < 2 ^ 1023.

(** [len([s for s in self.services.values() if s.service_name == name])]. *)
Definition instance_count (name : string) (o : MultiCloudOrchestrator) : nat :=
  length (filter (fun s => String.eqb (service_name s) name) (services o)).

(** The instance table without the instances listed in [removed]. *)
Definition without (removed svcs : list ServiceInstance) : list ServiceInstance :=
  filter (fun s => negb (existsb (fun r => String.eqb (instance_id s) (instance_id r)) removed))
         svcs.

(** A registry on which no migration can raise: at least two pools, with
    distinct ids, capacities that are not zero and convert to a float, loads
    that are not negative and whose sum converts to a float. *)
Definition healable (e : SelfHealingEngine) : Prop :=
  let dcs := datacenters (orchestrator e) in
  NoDup (map dc_id dcs) /\ (2 <= length (map dc_id dcs))%nat /\
  Forall (fun c => c <> 0 /\ Z.abs c < 2 ^ 1023) (map capacity dcs) /\
  Forall (fun x => 0 <= x) (loads e) /\ total_load e < 2 ^ 1023.

(** A pool with its load put aside: what a migration does not touch. *)
Definition unload (dc : DataCenter) : DataCenter := set_current_load 0 dc.

(** What one monitor cycle does to the status and uptime of a pool, and to
    an instance. *)
Definition heal_if_needed (dc : DataCenter) : DataCenter :=
  if RegionStatus_eqb (status dc) HEALTHY then dc else recover_datacenter dc.

Definition recover_if_needed (s : ServiceInstance) : ServiceInstance :=
  if Qltb (health s) (1 # 2) then recover_service s else s.

(** A state in which the monitor finds nothing to do. *)
Definition quiet (e : SelfHealingEngine) : Prop :=
  Forall (fun dc => overloaded dc = Ok false /\ status dc = HEALTHY)
         (datacenters (orchestrator e)) /\
  Forall (fun s => Qltb (health s) (1 # 2) = false) (services (orchestrator e)).

(** [n] monitor cycles in a row, each starting from the registry the
    previous one left. *)
Fixpoint cycles (n : nat) (e : SelfHealingEngine) : SelfHealingEngine :=
  match n with
  | O => e
  | S n' => cycles n' (fst (monitor_and_heal e))
  end.

(** How the loads [after] part of a monitor cycle relate to the loads
    [before] it, when the loop has not yet reached position [k]: a pool not
    yet reached has not lost load, and (for loads small enough for the float
    product to be exact) no pool has lost more than a fifth, rounded down. *)
Definition load_floor (k : nat) (before after : list Z) : Prop :=
  forall p x,
    nth_error before p = Some x ->
    exists y,
      nth_error after p = Some y /\
      ((k <= p)%nat -> x <= y) /\
      (sumZ before < 2 ^ 52 -> x - x / 5 <= y).

(** The load ratio of a pool as the code computes it: the binary64 number
    nearest to the exact quotient [current_load / capacity]. *)
Definition quotient (dc : DataCenter) : Q :=
  Float64.round64 (inject_Z (current_load dc) / inject_Z (capacity dc)).

(** The order in which pools, paired with their positions in the registry,
    are taken: by quotient, and by position among equal quotients. *)
Definition placed_before (p q : nat * DataCenter) : Prop :=
  (quotient (snd p) < quotient (snd q))%Q \/
  ((quotient (snd p) == quotient (snd q))%Q /\ (fst p < fst q)%nat).

(** Three pools at 50%, 10% and 10% of their capacity. *)
Definition mixed_pools : list DataCenter :=
  [pool "a" 100 50 HEALTHY 10; pool "b" 100 10 HEALTHY 20; pool "c" 200 20 HEALTHY 30].

(** An overloaded pool with three candidate targets, two of them tied for
    the least quotient. *)
Definition four_pools : SelfHealingEngine :=
  fleet [pool "b" 100 50 HEALTHY 10; pool "a" 100 96 HEALTHY 20;
         pool "c" 200 20 HEALTHY 30; pool "d" 100 10 HEALTHY 40] [].

(** Two pools whose exact ratios differ ([1/4 + 2^-62] and [1/4]) and whose
    binary64 quotients are both [0.25], alone and after an overloaded pool. *)
Definition near_tied_pools : list DataCenter :=
  [pool "x" (2 ^ 62) (2 ^ 60 + 1) HEALTHY 10; pool "y" (2 ^ 62) (2 ^ 60) HEALTHY 20].

Definition near_tied_targets : SelfHealingEngine :=
  fleet (pool "a" 100 96 HEALTHY 5 :: near_tied_pools) [].

(** A full pool whose load is not a binary64 multiple of five. *)
Definition huge_pools : SelfHealingEngine :=
  fleet [pool "a" (2 ^ 54) (2 ^ 54) HEALTHY 10; pool "b" (2 ^ 54) 0 HEALTHY 20] [].

(** ** MultiCloudOrchestrator.initialize_global_infrastructure *)

(** [provider.value]. *)
Definition provider_value (p : CloudProvider) : string :=
  match p with
  | AWS => "aws"
  | AZURE => "azure"
  | GCP => "gcp"
  | ORACLE => "oracle"
  | ALIBABA => "alibaba"
  end.

Definition regions : list (string * string * CloudProvider) :=
  [ ("us-east-1", "USA", AWS);
    ("us-west-1", "USA", GCP);
    ("eu-west-1", "Ireland", AZURE);
    ("eu-central-1", "Germany", AWS);
    ("ap-southeast-1", "Singapore", AWS);
    ("ap-northeast-1", "Japan", GCP);
    ("ap-south-1", "India", AZURE);
    ("sa-east-1", "Brazil", AWS);
    ("me-south-1", "UAE", ORACLE);
    ("cn-north-1", "China", ALIBABA);
    ("af-south-1", "South Africa", AZURE);
    ("ca-central-1", "Canada", AWS) ]%string.

(** [self.datacenters[dc.id] = dc]: an existing key keeps its position and
    takes the new object, a new key goes last. *)
Fixpoint datacenters_set (v : DataCenter) (d : list DataCenter) : list DataCenter :=
  match d with
  | [] => [v]
  | dc :: r =>
      if String.eqb (dc_id dc) (dc_id v) then v :: r
      else dc :: datacenters_set v r
  end.

(** The [DataCenter(..)] built for one entry of [regions]; [lat] is what
    [random.uniform(10, 100)] returns for it. *)
Definition new_datacenter (r : string * string * CloudProvider) (lat : Q) : DataCenter :=
  let '(reg, ctry, prov) := r in
  mkDataCenter (provider_value prov ++ "-" ++ reg)%string prov reg ctry 100000 0 HEALTHY lat 100.

(** [latency k] is the [k]-th value drawn by [random.uniform]. *)
Definition initialize_global_infrastructure (latency : nat -> Q) (o : MultiCloudOrchestrator)
  : MultiCloudOrchestrator :=
  set_datacenters
    (fold_left (fun d p => datacenters_set (new_datacenter (snd p) (latency (fst p))) d)
               (enumerate regions) (datacenters o))
    o.

(** ** EdgeComputingNetwork *)

(** The dict stored for a node: its keys ['location'], ['cache_size_gb'],
    ['cached_objects'] and ['requests_served']. *)
Record EdgeNode : Type := mkEdgeNode {
  location : string;
  cache_size_gb : Z;
  cached_objects : Z;
  requests_served : Z
}.

(** [edge_nodes] is a dict from node id to node, kept in insertion order. *)
Record EdgeComputingNetwork : Type := mkEdgeNetwork {
  edge_nodes : list (string * EdgeNode);
  cache_hit_ratio : Q
}.

Definition lit_0_85 : Q := Eval vm_compute in Float64.literal (85 # 100).

(** [d[k] = v], [d.get(k)] (also the test [k in d]) and the update in place
    of the value stored under [k]. *)
Fixpoint edge_set (k : string) (v : EdgeNode) (d : list (string * EdgeNode))
  : list (string * EdgeNode) :=
  match d with
  | [] => [(k, v)]
  | (k', v') :: r =>
      if String.eqb k' k then (k, v) :: r else (k', v') :: edge_set k v r
  end.

Fixpoint edge_get (k : string) (d : list (string * EdgeNode)) : option EdgeNode :=
  match d with
  | [] => None
  | (k', v') :: r => if String.eqb k' k then Some v' else edge_get k r
  end.

Fixpoint edge_update (k : string) (f : EdgeNode -> EdgeNode) (d : list (string * EdgeNode))
  : list (string * EdgeNode) :=
  match d with
  | [] => []
  | (k', v') :: r =>
      if String.eqb k' k then (k', f v') :: r else (k', v') :: edge_update k f r
  end.

(** [f"edge-{location}"]. *)
Definition node_id (loc : string) : string := ("edge-" ++ loc)%string.

Definition deploy_edge_nodes (net : EdgeComputingNetwork) (locations : list string)
  : EdgeComputingNetwork :=
  mkEdgeNetwork
    (fold_left (fun d loc => edge_set (node_id loc) (mkEdgeNode loc 1000 0 0) d)
               locations (edge_nodes net))
    (cache_hit_ratio net).

Definition count_request (n : EdgeNode) : EdgeNode :=
  mkEdgeNode (location n) (cache_size_gb n) (cached_objects n) (requests_served n + 1).

Definition count_hit (n : EdgeNode) : EdgeNode :=
  mkEdgeNode (location n) (cache_size_gb n) (cached_objects n + 1) (requests_served n).

(** [serve_content(content_id, user_location)]; [draw] is what
    [random.random()] returns when the node exists (it is not called
    otherwise). *)
Definition serve_content (net : EdgeComputingNetwork) (content_id user_location : string)
    (draw : Q) : EdgeComputingNetwork * bool :=
  let nearest_edge := node_id user_location in
  match edge_get nearest_edge (edge_nodes net) with
  | Some _ =>
      let nodes1 := edge_update nearest_edge count_request (edge_nodes net) in
      if Qltb draw lit_0_85
      then (mkEdgeNetwork (edge_update nearest_edge count_hit nodes1) lit_0_85, true)
      else (mkEdgeNetwork nodes1 (cache_hit_ratio net), false)
  | None => (net, false)
  end.

(** ** PrometheusInfrastructureBrain *)

(** [self.orchestrator] and [self.healing_engine.orchestrator] are one
    object: it is stored once, inside the engine. *)
Record PrometheusInfrastructureBrain : Type := mkBrain {
  healing_engine : SelfHealingEngine;
  edge_network : EdgeComputingNetwork;
  uptime_percentage : Q;
  total_requests_served : Z
}.

(** [PrometheusInfrastructureBrain()]. *)
Definition new_brain : PrometheusInfrastructureBrain :=
  mkBrain (mkEngine (mkOrchestrator [] [] 0 0) 0) (mkEdgeNetwork [] 0) 100 0.

Definition set_engine (e : SelfHealingEngine) (b : PrometheusInfrastructureBrain)
  : PrometheusInfrastructureBrain :=
  mkBrain e (edge_network b) (uptime_percentage b) (total_requests_served b).

Definition set_orchestrator (o : MultiCloudOrchestrator) (b : PrometheusInfrastructureBrain)
  : PrometheusInfrastructureBrain :=
  set_engine (mkEngine o (healing_actions (healing_engine b))) b.

(** The exceptions of the brain: those of the orchestrator and the engine,
    and the [IndexError] of [random.choice] on an empty sequence. *)
Inductive brain_exn : Type :=
| IndexError
| Core (e : exn).

Inductive outcome (A : Type) : Type :=
| Returned (a : A)
| Raised (e : brain_exn).
Arguments Returned {A} a.
Arguments Raised {A} e.

(** One [await self.orchestrator.deploy_service(name, replicas=..)] of
    [initialize], after the calls before it have returned. *)
Definition then_deploy (clock : nat -> Z) (name : string) (replicas : Z)
    (r : MultiCloudOrchestrator * result unit) : MultiCloudOrchestrator * result unit :=
  match r with
  | (o, Ok _) =>
      let (o', d) := deploy_service clock o name replicas in
      (o', let* _ := d in Ok tt)
  | (o, Raise ex) => (o, Raise ex)
  end.

(** [initialize()]; [latency] are the draws of [random.uniform] and
    [clock c k] is the clock reading of iteration [k] of the [c]-th
    deployment. *)
Definition initialize (latency : nat -> Q) (clock : nat -> nat -> Z)
    (b : PrometheusInfrastructureBrain) : PrometheusInfrastructureBrain * outcome unit :=
  let o0 := initialize_global_infrastructure latency (orchestrator (healing_engine b)) in
  let r :=
    then_deploy (clock 3%nat) "ml-inference" 6
      (then_deploy (clock 2%nat) "data-processor" 10
         (then_deploy (clock 1%nat) "auth-service" 8
            (then_deploy (clock 0%nat) "api-gateway" 12 (o0, Ok tt)))) in
  match r with
  | (o, Raise ex) => (set_orchestrator o b, Raised (Core ex))
  | (o, Ok _) =>
      let b1 := set_orchestrator o b in
      (mkBrain (healing_engine b1)
         (deploy_edge_nodes (edge_network b1)
            ["us-east"; "us-west"; "eu-west"; "asia-pacific"; "middle-east"]%string)
         (uptime_percentage b1) (total_requests_served b1),
       Returned tt)
  end.

(** [random.choice(seq)] for the draw [r]: an element of [seq], and
    [IndexError] (here [None]) when [seq] is empty. *)
Definition random_choice {A : Type} (r : nat) (l : list A) : option A :=
  match l with
  | [] => None
  | _ => nth_error l (r mod length l)
  end.

(** [if dc_id:] on an [Optional[str]]: [None] and the empty string are false. *)
Definition truthy (r : option string) : bool :=
  match r with
  | Some (String _ _) => true
  | _ => false
  end.

Definition count_served (b : PrometheusInfrastructureBrain) : PrometheusInfrastructureBrain :=
  mkBrain (healing_engine b) (edge_network b) (uptime_percentage b)
          (total_requests_served b + 1).

(** The loop of [handle_traffic]: [n] iterations, iteration [k] drawing
    [choice k]. *)
Fixpoint traffic_loop (choice : nat -> nat) (k n : nat) (b : PrometheusInfrastructureBrain)
  : PrometheusInfrastructureBrain * outcome unit :=
  match n with
  | O => (b, Returned tt)
  | S n' =>
      let o := orchestrator (healing_engine b) in
      match random_choice (choice k) (map dc_id (datacenters o)) with
      | None => (b, Raised IndexError)
      | Some user_location =>
          match route_traffic o user_location with
          | Raise ex => (b, Raised (Core ex))
          | Ok routed =>
              traffic_loop choice (S k) n' (if truthy routed then count_served b else b)
          end
      end
  end.

Definition add_global_traffic (n : Z) (o : MultiCloudOrchestrator) : MultiCloudOrchestrator :=
  mkOrchestrator (datacenters o) (services o) (total_users o) (global_traffic o + n).

Definition handle_traffic (choice : nat -> nat) (b : PrometheusInfrastructureBrain)
    (num_requests : Z) : PrometheusInfrastructureBrain * outcome unit :=
  match traffic_loop choice 0 (Z.to_nat num_requests) b with
  | (b1, Raised ex) => (b1, Raised ex)
  | (b1, Returned _) =>
      (set_orchestrator (add_global_traffic num_requests (orchestrator (healing_engine b1))) b1,
       Returned tt)
  end.

(** The body of the loop of [run_management_cycle] for the value [cycle] of
    the loop variable.  [asyncio.sleep] leaves the state alone. *)
Definition management_step (choice : nat -> nat -> nat) (clock : nat -> nat -> Z)
    (cycle : nat) (b : PrometheusInfrastructureBrain)
  : PrometheusInfrastructureBrain * outcome unit :=
  match handle_traffic (choice cycle) b 50000 with
  | (b1, Raised ex) => (b1, Raised ex)
  | (b1, Returned _) =>
      match monitor_and_heal (healing_engine b1) with
      | (e2, Raise ex) => (set_engine e2 b1, Raised (Core ex))
      | (e2, Ok _) =>
          let b2 := set_engine e2 b1 in
          if 100000 * (Z.of_nat cycle + 1) <? global_traffic (orchestrator e2) then
            match scale_service (clock cycle) (orchestrator e2) "api-gateway" 15 with
            | (o3, Raise ex) => (set_orchestrator o3 b2, Raised (Core ex))
            | (o3, Ok _) => (set_orchestrator o3 b2, Returned tt)
            end
          else (b2, Returned tt)
      end
  end.

Fixpoint management_loop (step : nat -> PrometheusInfrastructureBrain ->
                                 PrometheusInfrastructureBrain * outcome unit)
    (cycle n : nat) (b : PrometheusInfrastructureBrain)
  : PrometheusInfrastructureBrain * outcome unit :=
  match n with
  | O => (b, Returned tt)
  | S n' =>
      match step cycle b with
      | (b1, Raised ex) => (b1, Raised ex)
      | (b1, Returned _) => management_loop step (S cycle) n' b1
      end
  end.

(** [run_management_cycle(cycles)]; the report written at the end only logs. *)
Definition run_management_cycle (choice : nat -> nat -> nat) (clock : nat -> nat -> Z)
    (b : PrometheusInfrastructureBrain) (cycles : Z)
  : PrometheusInfrastructureBrain * outcome unit :=
  management_loop (management_step choice clock) 0 (Z.to_nat cycles) b.

(** An engine over the three empty pools. *)
Definition three_pools_engine : SelfHealingEngine := mkEngine three_pools 0.

(** ** Notions used in the further properties *)

(** The fields of a pool and of an instance that the engine never writes,
    and the part of an engine's state made of them. *)
Definition pool_identity (dc : DataCenter)
  : string * CloudProvider * string * string * Z * Q :=
  (dc_id dc, provider dc, region dc, country dc, capacity dc, latency_ms dc).

Definition instance_identity (s : ServiceInstance) : string * string * string * Z :=
  (instance_id s, service_name s, datacenter_id s, requests_per_sec s).

Definition frame (e : SelfHealingEngine)
  : list (string * CloudProvider * string * string * Z * Q) *
    list (string * string * string * Z) * Z * Z :=
  (map pool_identity (datacenters (orchestrator e)),
   map instance_identity (services (orchestrator e)),
   total_users (orchestrator e), global_traffic (orchestrator e)).

(** The number of elements of [l] on which [f] holds, as an [int]. *)
Definition count {A : Type} (f : A -> bool) (l : list A) : Z :=
  Z.of_nat (length (filter f l)).

Definition unhealthy (dc : DataCenter) : bool := negb (RegionStatus_eqb (status dc) HEALTHY).

Definition sick (s : ServiceInstance) : bool := Qltb (health s) (1 # 2).

(** [self.datacenters.get(id)]: the pool stored under [id]. *)
Definition datacenters_get (id : string) (d : list DataCenter) : option DataCenter :=
  find (fun dc => String.eqb (dc_id dc) id) d.

(** The ids of the twelve pools of [initialize_global_infrastructure]. *)
Definition region_ids : list string :=
  map (fun r => dc_id (new_datacenter r 0)) regions.

(** [EdgeComputingNetwork()], the calls that change an edge network, and
    the network a sequence of calls leaves. *)
Definition new_edge_network : EdgeComputingNetwork := mkEdgeNetwork [] 0.

Inductive edge_operation : Type :=
| DeployEdgeNodes (locations : list string)
| ServeContent (content_id user_location : string) (draw : Q).

Definition edge_perform (op : edge_operation) (net : EdgeComputingNetwork)
  : EdgeComputingNetwork :=
  match op with
  | DeployEdgeNodes locations => deploy_edge_nodes net locations
  | ServeContent content_id user_location draw =>
      fst (serve_content net content_id user_location draw)
  end.

Definition edge_run (ops : list edge_operation) (net : EdgeComputingNetwork)
  : EdgeComputingNetwork :=
  fold_left (fun n op => edge_perform op n) ops net.

(** What holds of every node of a network built by these calls. *)
Definition node_consistent (kv : string * EdgeNode) : Prop :=
  fst kv = node_id (location (snd kv)) /\ cache_size_gb (snd kv) = 1000 /\
  0 <= cached_objects (snd kv) <= requests_served (snd kv).

Definition edge_consistent (net : EdgeComputingNetwork) : Prop :=
  NoDup (map fst (edge_nodes net)) /\
  Forall node_consistent (edge_nodes net) /\
  (cache_hit_ratio net = 0%Q \/ cache_hit_ratio net = lit_0_85) /\
  (cache_hit_ratio net = 0%Q ->
   Forall (fun kv => cached_objects (snd kv) = 0) (edge_nodes net)).

(** ** SatelliteNetwork *)

Record Satellite : Type := mkSatellite {
  sat_id : string;
  constellation : string;
  latitude : Q;
  longitude : Q;
  altitude_km : Z;
  coverage_radius_km : Z;
  active : bool
}.

(** [satellites] is a dict from id to satellite, kept in insertion order;
    [ground_stations] is a list of dicts that no method reads or writes. *)
Record SatelliteNetwork : Type := mkSatelliteNetwork {
  satellites : list Satellite;
  ground_stations : list (list (string * string))
}.

(** [SatelliteNetwork()]. *)
Definition new_satellite_network : SatelliteNetwork := mkSatelliteNetwork [] [].

(** [self.satellites[sat.id] = sat] and [self.satellites.get(id)]. *)
Fixpoint satellites_set (v : Satellite) (d : list Satellite) : list Satellite :=
  match d with
  | [] => [v]
  | s :: r =>
      if String.eqb (sat_id s) (sat_id v) then v :: r
      else s :: satellites_set v r
  end.

Definition satellites_get (id : string) (d : list Satellite) : option Satellite :=
  find (fun s => String.eqb (sat_id s) id) d.

(** [f"{name}-{i}"]. *)
Definition satellite_name (name : string) (i : nat) : string :=
  (name ++ "-" ++ str (Z.of_nat i))%string.

(** The [Satellite(..)] built in iteration [i]; [lat] and [lon] are the two
    draws of [random.uniform] of that iteration. *)
Definition new_satellite (name : string) (i : nat) (lat lon : Q) : Satellite :=
  mkSatellite (satellite_name name i) name lat lon 550 1000 true.

(** [deploy_constellation(name, num_satellites)]; [lat i] and [lon i] are
    the draws of iteration [i]. *)
Definition deploy_constellation (lat lon : nat -> Q) (net : SatelliteNetwork)
    (name : string) (num_satellites : Z) : SatelliteNetwork :=
  mkSatelliteNetwork
    (fold_left (fun d i => satellites_set (new_satellite name i (lat i) (lon i)) d)
               (seq 0 (Z.to_nat num_satellites)) (satellites net))
    (ground_stations net).

(** Difference and sum of two floats.  A result too large for a float is
    infinite in Python and a large rational here; both fail the comparison
    with 50 that follows. *)
Definition float_sub (x y : Q) : Q := Float64.round64 (x - y).

Definition float_add (x y : Q) : Q := Float64.round64 (x + y).

(** [abs(sat.latitude - lat) + abs(sat.longitude - lon)]. *)
Definition distance (sat : Satellite) (lat lon : Q) : Q :=
  float_add (Qabs (float_sub (latitude sat) lat)) (Qabs (float_sub (longitude sat) lon)).

(** [find_coverage(lat, lon)], for float arguments. *)
Definition find_coverage (net : SatelliteNetwork) (lat lon : Q) : list string :=
  fold_left
    (fun covering sat =>
       if active sat then
         if Qltb (distance sat lat lon) 50 then covering ++ [sat_id sat] else covering
       else covering)
    (satellites net) [].

(** The two tests of the loop of [find_coverage]. *)
Definition covers (lat lon : Q) (sat : Satellite) : bool :=
  active sat && Qltb (distance sat lat lon) 50.

(** [self.services.get(id)]: the instance stored under [id]. *)
Definition services_get (id : string) (d : list ServiceInstance) : option ServiceInstance :=
  find (fun s => String.eqb (instance_id s) id) d.

(** Whether a string contains the character [-]. *)
Fixpoint has_dash (s : string) : bool :=
  match s with
  | EmptyString => false
  | String c r => Ascii.eqb c "-" || has_dash r
  end.

(** * Properties *)

(** ** Rounding *)

(** Comparisons of rationals as comparisons of integers. *)
Ltac qz :=
  unfold Qle, Qlt, Qeq, Qmult, Qplus, Qopp, Qabs, inject_Z; cbn [Qnum Qden].

Module Float64Facts.
Import Float64.

Lemma round_half_even_bounds (p q : Z) :
  0 <= p -> 0 < q -> 0 <= round_half_even p q /\ round_half_even p q * q <= 2 * p.
Proof.
  intros Hp Hq. unfold round_half_even.
  pose proof (Z.div_mod p q ltac:(lia)) as Hdm.
  pose proof (Z.mod_pos_bound p q Hq) as Hr.
  assert (Hf : 0 <= p / q) by (apply Z.div_pos; lia).
  destruct (Z.compare_spec (2 * (p mod q)) q) as [He|Hl|Hg];
    [destruct (Z.even (p / q))| |]; split; nia.
Qed.

Lemma pow2_pos (e : Z) : 0 <= e -> 0 < 2 ^ e.
Proof. intros. apply Z.pow_pos_nonneg; lia. Qed.

Lemma round_pos_bounds (a : Z) (d : positive) :
  0 <= a ->
  (0 <= round_pos a (Zpos d))%Q /\ (round_pos a (Zpos d) <= (2 * a) # d)%Q.
Proof.
  intros Ha. unfold round_pos.
  destruct (Z.eqb_spec a 0) as [->|Hnz].
  - split; qz; lia.
  - set (e := ulp_exponent a (Zpos d)).
    destruct (Z.leb_spec 0 e) as [He|He].
    + pose proof (pow2_pos e He) as Hp.
      destruct (round_half_even_bounds a (Zpos d * 2 ^ e) Ha ltac:(nia)) as [H0 H1].
      split; qz; nia.
    + pose proof (pow2_pos (- e) ltac:(lia)) as Hp.
      destruct (round_half_even_bounds (a * 2 ^ (- e)) (Zpos d) ltac:(nia) ltac:(lia))
        as [H0 H1].
      split; qz; rewrite ?Z2Pos.id by lia; nia.
Qed.

Lemma round64_nonneg (x : Q) : (0 <= x)%Q -> (0 <= round64 x)%Q.
Proof.
  intros Hx. unfold round64.
  assert (Hn : 0 <= Qnum x) by (unfold Qle in Hx; simpl in Hx; lia).
  destruct (Z.ltb_spec (Qnum x) 0); [lia|].
  apply round_pos_bounds; assumption.
Qed.

(** Rounding at most doubles a magnitude (it is far more precise in the
    normal range; the factor two also covers the subnormal numbers). *)
Lemma round64_abs (x : Q) : (Qabs (round64 x) <= 2 * Qabs x)%Q.
Proof.
  unfold round64. destruct x as [n d]. simpl.
  destruct (Z.ltb_spec n 0) as [Hn|Hn].
  - destruct (round_pos_bounds (- n) d ltac:(lia)) as [H0 H1].
    rewrite Qabs_opp, (Qabs_pos _ H0).
    eapply Qle_trans; [exact H1|].
    rewrite (Qabs_neg (n # d)) by (qz; lia).
    qz; lia.
  - destruct (round_pos_bounds n d Hn) as [H0 H1].
    rewrite (Qabs_pos _ H0).
    eapply Qle_trans; [exact H1|].
    rewrite (Qabs_pos (n # d)) by (qz; lia).
    qz; lia.
Qed.

Lemma round64_le_double (x : Q) : (0 <= x)%Q -> (round64 x <= 2 * x)%Q.
Proof.
  intros Hx. pose proof (round64_abs x) as H.
  rewrite (Qabs_pos _ (round64_nonneg x Hx)), (Qabs_pos _ Hx) in H. exact H.
Qed.

Lemma Qltb_lt (x y : Q) : Qltb x y = true <-> (x < y)%Q.
Proof.
  unfold Qltb. rewrite Qlt_alt. destruct (x ?= y)%Q; split; congruence.
Qed.

Lemma Qltb_ge (x y : Q) : Qltb x y = false <-> (y <= x)%Q.
Proof.
  split; intros H.
  - apply Qnot_lt_le. intros Hl. apply Qltb_lt in Hl. congruence.
  - destruct (Qltb x y) eqn:E; [|reflexivity].
    apply Qltb_lt in E. exfalso. exact (Qlt_not_le _ _ E H).
Qed.

Lemma fits_small (x : Q) (b : Z) :
  (Qabs x <= inject_Z b)%Q -> b < 2 ^ 1024 -> fits x = true.
Proof.
  intros Hx Hb. apply Qltb_lt.
  eapply Qle_lt_trans; [exact Hx|].
  rewrite <- Zlt_Qlt. exact Hb.
Qed.

Lemma of_int_ok (n : Z) :
  Z.abs n < 2 ^ 1023 -> of_int n = Ok (round64 (inject_Z n)).
Proof.
  intros Hn. unfold of_int.
  rewrite (fits_small _ (2 * Z.abs n)); [reflexivity| |].
  - eapply Qle_trans; [apply round64_abs|].
    qz. lia.
  - change (2 ^ 1024) with (2 * 2 ^ 1023). lia.
Qed.

Lemma true_div_ok (a b : Z) :
  b <> 0 -> Z.abs a < 2 ^ 1023 -> exists k, true_div a b = Ok k.
Proof.
  intros Hb Ha. unfold true_div.
  destruct (Z.eqb_spec b 0); [contradiction|].
  match goal with |- context [fits ?x] => rewrite (fits_small x (2 * Z.abs a)) end.
  - eexists; reflexivity.
  - eapply Qle_trans; [apply round64_abs|].
    destruct (Z.ltb_spec b 0);
      qz; rewrite ?Z2Pos.id by lia; nia.
  - change (2 ^ 1024) with (2 * 2 ^ 1023). lia.
Qed.

Lemma to_int_bounds (x : Q) (n : Z) :
  (0 <= x)%Q -> (x <= inject_Z n)%Q -> 0 <= to_int x <= n.
Proof.
  destruct x as [p d]. unfold Qle, to_int; simpl. intros H0 Hn.
  rewrite Z.quot_div_nonneg by lia.
  split; [apply Z.div_pos; lia|].
  apply Z.div_le_upper_bound; lia.
Qed.

End Float64Facts.

(** The amount a migration moves is never negative and never more than the
    load it is taken from. *)
Lemma migration_amount_bounds (load amount : Z) :
  0 <= load -> migration_amount load = Ok amount -> 0 <= amount <= load.
Proof.
  intros Hl. unfold migration_amount, Float64.of_int.
  destruct (Float64.fits _); simpl; [|discriminate].
  intros [= <-].
  set (x := Float64.round64 (inject_Z load)).
  assert (Hl0 : (0 <= inject_Z load)%Q) by (qz; lia).
  assert (Hx0 : (0 <= x)%Q) by (apply Float64Facts.round64_nonneg; exact Hl0).
  assert (Hx2 : (x <= 2 * inject_Z load)%Q)
    by (apply Float64Facts.round64_le_double; exact Hl0).
  assert (Hp0 : (0 <= x * lit_0_2)%Q).
  { apply Qmult_le_0_compat; [exact Hx0|]. unfold lit_0_2; qz; lia. }
  apply Float64Facts.to_int_bounds.
  - apply Float64Facts.round64_nonneg. exact Hp0.
  - unfold Float64.mul.
    eapply Qle_trans; [apply Float64Facts.round64_le_double; exact Hp0|].
    apply Qle_trans with (2 * (2 * inject_Z load * lit_0_2))%Q.
    + apply Qmult_le_l; [reflexivity|].
      apply Qmult_le_compat_r; [exact Hx2|]. unfold lit_0_2; qz; lia.
    + unfold lit_0_2; qz; lia.
Qed.

(** ** The migration amount, exactly *)

Module MigrationAmount.
Import Float64.

Lemma round_half_even_near (p d : Z) :
  0 < d -> 2 * p - d <= 2 * d * round_half_even p d <= 2 * p + d.
Proof.
  intros Hd. unfold round_half_even.
  pose proof (Z.div_mod p d ltac:(lia)) as Hdm.
  pose proof (Z.mod_pos_bound p d Hd) as Hr.
  destruct (Z.compare_spec (2 * (p mod d)) d) as [He|Hl|Hg];
    [destruct (Z.even (p / d))| |]; split; nia.
Qed.

Lemma pow2_pos_k (k : Z) : 0 < 2 ^ k \/ k < 0.
Proof.
  destruct (Z.lt_ge_cases k 0); [right; assumption|left].
  apply Z.pow_pos_nonneg; lia.
Qed.

Lemma of_int_ok_small (n : Z) :
  Z.abs n < 2 ^ 52 -> of_int n = Ok (round64 (inject_Z n)).
Proof.
  intros H. apply Float64Facts.of_int_ok.
  eapply Z.lt_trans; [exact H|]. reflexivity.
Qed.

Lemma round_half_even_unit (p : Z) : round_half_even p 1 = p.
Proof.
  unfold round_half_even. rewrite Z.div_1_r, Z.mod_1_r. reflexivity.
Qed.

(** A quotient below [2^k] has its unit in the last place at [2^(k-53)] or
    below. *)
Lemma ulp_exponent_small (a d k : Z) :
  0 < a -> 0 < d -> 0 <= k <= 52 -> a < 2 ^ k * d ->
  -1074 <= ulp_exponent a d <= k - 53.
Proof.
  intros Ha Hd Hk Hlt. unfold ulp_exponent.
  destruct (Z.log2_spec a Ha) as [Hla1 Hla2].
  destruct (Z.log2_spec d Hd) as [Hld1 Hld2].
  pose proof (Z.log2_nonneg a) as Hla0. pose proof (Z.log2_nonneg d) as Hld0.
  set (la := Z.log2 a) in *. set (ld := Z.log2 d) in *.
  assert (Hl : la < ld + k + 1).
  { apply (Z.pow_lt_mono_r_iff 2); [lia|lia|].
    replace (ld + k + 1) with (k + Z.succ ld) by lia.
    rewrite Z.pow_add_r by lia.
    pose proof (pow2_pos_k k). nia. }
  assert (He0 : la - ld - 53 <= k - 53) by lia.
  destruct (Z.leb_spec 0 (la - ld - 53)) as [H0|H0]; [lia|].
  destruct (Z.ltb_spec (a * 2 ^ (- (la - ld - 53))) (2 ^ 53 * d)) as [Ht|Ht]; [lia|].
  assert (la - ld - 53 <> k - 53); [|lia].
  intros E. rewrite E in Ht.
  replace (- (k - 53)) with (53 - k) in Ht by lia.
  assert (Hp : 2 ^ 53 = 2 ^ k * 2 ^ (53 - k)).
  { rewrite <- Z.pow_add_r by lia. f_equal. lia. }
  rewrite Hp in Ht.
  pose proof (pow2_pos_k (53 - k)). pose proof (pow2_pos_k k). nia.
Qed.

(** Rounding a quotient below [2^50] whose distance to the next integer
    above is more than a sixteenth keeps its integer part. *)
Lemma round_pos_floor (a q : Z) (d : positive) :
  0 < a -> 0 <= q -> q * Zpos d <= a -> 16 * a + Zpos d < 16 * (q + 1) * Zpos d ->
  a < 2 ^ 50 * Zpos d ->
  to_int (round_pos a (Zpos d)) = q.
Proof.
  intros Ha Hq Hlo Hhi Hsmall. unfold round_pos.
  destruct (Z.eqb_spec a 0); [lia|].
  pose proof (ulp_exponent_small a (Zpos d) 50 Ha ltac:(lia) ltac:(lia) Hsmall) as He.
  set (e := ulp_exponent a (Zpos d)) in *.
  destruct (Z.leb_spec 0 e); [lia|].
  assert (HE : 8 <= 2 ^ (- e)).
  { change 8 with (2 ^ 3). apply Z.pow_le_mono_r; lia. }
  set (E := 2 ^ (- e)) in *.
  pose proof (round_half_even_near (a * E) (Zpos d) ltac:(lia)) as [Hm1 Hm2].
  set (m := round_half_even (a * E) (Zpos d)) in *.
  unfold to_int. cbn [Qnum Qden]. rewrite Z2Pos.id by lia.
  assert (Hml : q * E <= m) by nia.
  assert (Hmu : m < (q + 1) * E).
  { assert ((16 * a + Zpos d + 1) * E <= 16 * (q + 1) * Zpos d * E) by nia.
    assert (8 * (Zpos d + 1) <= (Zpos d + 1) * E) by nia.
    nia. }
  rewrite Z.quot_div_nonneg by lia.
  symmetry. apply Z.div_unique with (r := m - q * E); lia.
Qed.

Lemma of_int_small (n : Z) :
  0 < n < 2 ^ 52 ->
  exists E : positive, of_int n = Ok (n * Zpos E # E).
Proof.
  intros Hn. rewrite of_int_ok_small by lia.
  unfold round64. cbn [inject_Z Qnum Qden].
  destruct (Z.ltb_spec n 0); [lia|]. unfold round_pos.
  destruct (Z.eqb_spec n 0); [lia|].
  pose proof (ulp_exponent_small n 1 52 ltac:(lia) ltac:(lia) ltac:(lia) ltac:(lia)) as He.
  set (e := ulp_exponent n 1) in *.
  destruct (Z.leb_spec 0 e); [lia|].
  rewrite round_half_even_unit.
  exists (Z.to_pos (2 ^ (- e))). rewrite Z2Pos.id; [reflexivity|].
  apply Z.pow_pos_nonneg; lia.
Qed.

End MigrationAmount.

(** For loads below [2^52] the float product and its truncation give the
    integer quotient by five: [int(load * 0.2) = load // 5]. *)
Lemma migration_amount_exact (load : Z) :
  0 <= load < 2 ^ 52 -> migration_amount load = Ok (load / 5).
Proof.
  intros Hl. destruct (Z.eq_dec load 0) as [->|Hnz]; [reflexivity|].
  unfold migration_amount.
  destruct (MigrationAmount.of_int_small load ltac:(lia)) as [E ->]. cbn [bind].
  f_equal. unfold Float64.mul, Float64.round64, lit_0_2, Qmult. cbn [Qnum Qden].
  destruct (Z.ltb_spec (load * Zpos E * 3602879701896397) 0); [nia|].
  pose proof (Z.div_mod load 5 ltac:(lia)) as Hdm.
  pose proof (Z.mod_pos_bound load 5 ltac:(lia)) as Hr.
  assert (H52 : 2 ^ 52 = 4503599627370496) by reflexivity.
  assert (H50 : 2 ^ 50 = 1125899906842624) by reflexivity.
  apply MigrationAmount.round_pos_floor; rewrite ?Pos2Z.inj_mul, ?H50; nia.
Qed.

(** ** The thresholds, exactly *)

Module Thresholds.
Import Float64.

(** The unit in the last place of a quotient between [1/2] and [2^50]. *)
Lemma ulp_exponent_normal (a d : Z) :
  0 < a -> 0 < d -> d <= 2 * a -> a < 2 ^ 50 * d ->
  let e := ulp_exponent a d in
  e <= -3 /\ 2 ^ 52 * d <= a * 2 ^ (- e) < 2 ^ 53 * d.
Proof.
  intros Ha Hd Hhalf Hsmall e.
  pose proof (MigrationAmount.ulp_exponent_small a d 50 Ha Hd ltac:(lia) Hsmall) as Hs.
  fold e in Hs. split; [lia|]. subst e. unfold ulp_exponent in *.
  destruct (Z.log2_spec a Ha) as [Hla1 Hla2].
  destruct (Z.log2_spec d Hd) as [Hld1 Hld2].
  pose proof (Z.log2_nonneg a) as Hla0. pose proof (Z.log2_nonneg d) as Hld0.
  set (la := Z.log2 a) in *. set (ld := Z.log2 d) in *.
  rewrite !Z.pow_succ_r in * by lia.
  assert (Hlow : ld <= la + 1).
  { assert (ld < la + 2); [|lia].
    apply (Z.pow_lt_mono_r_iff 2); [lia|lia|].
    replace (la + 2) with (Z.succ (Z.succ la)) by lia.
    rewrite !Z.pow_succ_r by lia. lia. }
  set (e0 := la - ld - 53) in *.
  destruct (Z.leb_spec 0 e0) as [H0|H0].
  { destruct (a <? 2 ^ 53 * (d * 2 ^ e0)); lia. }
  assert (HX : 2 ^ la * 2 ^ (- e0) = 2 ^ 53 * 2 ^ ld).
  { rewrite <- !Z.pow_add_r by lia. f_equal. unfold e0. lia. }
  assert (HP : 0 < 2 ^ la) by (apply Z.pow_pos_nonneg; lia).
  assert (HQ : 0 < 2 ^ ld) by (apply Z.pow_pos_nonneg; lia).
  assert (HXp : 0 < 2 ^ (- e0)) by (apply Z.pow_pos_nonneg; lia).
  destruct (Z.ltb_spec (a * 2 ^ (- e0)) (2 ^ 53 * d)) as [Ht|Ht].
  - rewrite Z.max_l by (unfold e0; lia). split; [|exact Ht].
    assert (2 ^ 53 = 2 ^ 52 * 2) by reflexivity. nia.
  - rewrite Z.max_l by (unfold e0; lia).
    replace (- (e0 + 1)) with (- e0 - 1) by lia.
    assert (HX2 : 2 ^ (- e0) = 2 * 2 ^ (- e0 - 1)).
    { rewrite <- Z.pow_succ_r by lia. f_equal. lia. }
    assert (0 < 2 ^ (- e0 - 1)) by (apply Z.pow_pos_nonneg; lia).
    assert (2 ^ 53 = 2 ^ 52 * 2) by reflexivity. nia.
Qed.

(** The product of a capacity below [2^50] with a literal between [1/2] and
    [1]: a dyadic number [m / E] with [E] at least 8, within half a unit of
    the exact product scaled by [E], which lies between [2^52] and [2^53]. *)
Lemma mul_of_int_shape (c N : Z) (D : positive) :
  0 < c < 2 ^ 50 -> Zpos D <= 2 * N -> N <= Zpos D ->
  exists (E : positive) (m : Z),
    mul (round64 (inject_Z c)) (N # D) = m # E /\
    8 <= Zpos E /\
    2 ^ 52 * Zpos D <= c * N * Zpos E < 2 ^ 53 * Zpos D /\
    2 * (c * N * Zpos E) - Zpos D <= 2 * Zpos D * m <= 2 * (c * N * Zpos E) + Zpos D.
Proof.
  intros Hc Hhalf Hone.
  assert (H50 : 2 ^ 50 = 1125899906842624) by reflexivity.
  destruct (MigrationAmount.of_int_small c) as [E1 HE1].
  { change (2 ^ 52) with (4503599627370496). lia. }
  rewrite Float64Facts.of_int_ok in HE1.
  2:{ apply Z.lt_trans with (2 ^ 50); [lia|reflexivity]. }
  inversion HE1 as [Hx]. rewrite Hx. clear HE1 Hx.
  unfold mul, round64, Qmult. cbn [Qnum Qden].
  assert (HN : 0 < N) by lia.
  assert (HcE : 0 < c * Zpos E1) by (apply Z.mul_pos_pos; lia).
  assert (Ha : 0 < c * Zpos E1 * N) by (apply Z.mul_pos_pos; lia).
  destruct (Z.ltb_spec (c * Zpos E1 * N) 0); [lia|].
  unfold round_pos. destruct (Z.eqb_spec (c * Zpos E1 * N) 0); [lia|].
  rewrite Pos2Z.inj_mul.
  destruct (ulp_exponent_normal (c * Zpos E1 * N) (Zpos E1 * Zpos D))
    as [He [Hlo Hhi]]; try nia.
  set (e := ulp_exponent (c * Zpos E1 * N) (Zpos E1 * Zpos D)) in *.
  destruct (Z.leb_spec 0 e); [lia|].
  assert (HE : 8 <= 2 ^ (- e)).
  { change 8 with (2 ^ 3). apply Z.pow_le_mono_r; lia. }
  pose proof (MigrationAmount.round_half_even_near
                (c * Zpos E1 * N * 2 ^ (- e)) (Zpos E1 * Zpos D) ltac:(lia)) as [Hm1 Hm2].
  exists (Z.to_pos (2 ^ (- e))), (round_half_even (c * Zpos E1 * N * 2 ^ (- e)) (Zpos E1 * Zpos D)).
  rewrite Z2Pos.id by lia.
  set (m := round_half_even _ _) in *. set (E := 2 ^ (- e)) in *.
  split; [reflexivity|]. split; [exact HE|].
  assert (HE1 : 0 < Zpos E1) by lia.
  split; split; nia.
Qed.

Lemma Qltb_dyadic_r (L m : Z) (E : positive) :
  Qltb (inject_Z L) (m # E) = (L * Zpos E <? m).
Proof.
  unfold Qltb, Qcompare, inject_Z. cbn [Qnum Qden]. rewrite Z.mul_1_r.
  unfold Z.ltb. reflexivity.
Qed.

Lemma Qltb_dyadic_l (L m : Z) (E : positive) :
  Qltb (m # E) (inject_Z L) = (m <? L * Zpos E).
Proof.
  unfold Qltb, Qcompare, inject_Z. cbn [Qnum Qden]. rewrite Z.mul_1_r.
  unfold Z.ltb. reflexivity.
Qed.

(** [load < capacity * 0.9] in floating point is [10 * load < 9 * capacity]. *)
Lemma below_0_9 (c L : Z) :
  0 <= c < 2 ^ 50 ->
  Qltb (inject_Z L) (mul (round64 (inject_Z c)) lit_0_9) = (10 * L <? 9 * c).
Proof.
  intros Hc. destruct (Z.eq_dec c 0) as [->|Hnz].
  { change (mul (round64 (inject_Z 0)) lit_0_9) with (0 # 1).
    rewrite Qltb_dyadic_r. destruct (Z.ltb_spec (L * 1) 0), (Z.ltb_spec (10 * L) (9 * 0)); lia. }
  unfold lit_0_9.
  destruct (mul_of_int_shape c 8106479329266893 9007199254740992 ltac:(lia) ltac:(lia) ltac:(lia))
    as (E & m & -> & HE & [Hlo Hhi] & [Hm1 Hm2]).
  rewrite Qltb_dyadic_r.
  change (2 ^ 53) with 9007199254740992 in *. change (2 ^ 52) with 4503599627370496 in *.
  destruct (Z.ltb_spec (L * Zpos E) m), (Z.ltb_spec (10 * L) (9 * c)); try reflexivity; exfalso; nia.
Qed.

(** [load > capacity * 0.95] in floating point is [19 * capacity < 20 * load]. *)
Lemma above_0_95 (c L : Z) :
  0 <= c < 2 ^ 50 ->
  Qltb (mul (round64 (inject_Z c)) lit_0_95) (inject_Z L) = (19 * c <? 20 * L).
Proof.
  intros Hc. destruct (Z.eq_dec c 0) as [->|Hnz].
  { change (mul (round64 (inject_Z 0)) lit_0_95) with (0 # 1).
    rewrite Qltb_dyadic_l. destruct (Z.ltb_spec 0 (L * 1)), (Z.ltb_spec (19 * 0) (20 * L)); lia. }
  unfold lit_0_95.
  destruct (mul_of_int_shape c 4278419646001971 4503599627370496 ltac:(lia) ltac:(lia) ltac:(lia))
    as (E & m & -> & HE & [Hlo Hhi] & [Hm1 Hm2]).
  rewrite Qltb_dyadic_l.
  change (2 ^ 53) with 9007199254740992 in *. change (2 ^ 52) with 4503599627370496 in *.
  destruct (Z.ltb_spec m (L * Zpos E)), (Z.ltb_spec (19 * c) (20 * L)); try reflexivity; exfalso; nia.
Qed.

End Thresholds.

Lemma overloaded_exact (dc : DataCenter) :
  0 <= capacity dc < 2 ^ 50 ->
  overloaded dc = Ok (19 * capacity dc <? 20 * current_load dc).
Proof.
  intros Hc. unfold overloaded.
  rewrite Float64Facts.of_int_ok
    by (apply Z.lt_trans with (2 ^ 50); [lia|reflexivity]).
  cbn [bind]. rewrite Thresholds.above_0_95 by exact Hc. reflexivity.
Qed.

Lemma eligible_exact (dc : DataCenter) :
  0 <= capacity dc < 2 ^ 50 ->
  eligible dc
  = RegionStatus_eqb (status dc) HEALTHY && (10 * current_load dc <? 9 * capacity dc).
Proof.
  intros Hc. unfold eligible. rewrite Thresholds.below_0_9 by exact Hc. reflexivity.
Qed.

(** ** Lists and loops *)

Section ListFacts.
Context {A : Type}.

Lemma update_nth_length (i : nat) (f : A -> A) (l : list A) :
  length (update_nth i f l) = length l.
Proof.
  revert i; induction l as [|a l IH]; intros [|i]; simpl; auto.
Qed.

Lemma nth_error_update_nth_eq (i : nat) (f : A -> A) (l : list A) :
  nth_error (update_nth i f l) i = option_map f (nth_error l i).
Proof.
  revert i; induction l as [|a l IH]; intros [|i]; simpl; auto.
Qed.

Lemma nth_error_update_nth_neq (i j : nat) (f : A -> A) (l : list A) :
  i <> j -> nth_error (update_nth i f l) j = nth_error l j.
Proof.
  revert i j; induction l as [|a l IH]; intros [|i] [|j] H; simpl; auto;
    contradiction.
Qed.

Lemma Forall_update_nth (P : A -> Prop) (i : nat) (f : A -> A) (l : list A) :
  Forall P l -> (forall x, nth_error l i = Some x -> P (f x)) ->
  Forall P (update_nth i f l).
Proof.
  revert i; induction l as [|a l IH]; intros [|i] HP Hf; simpl; auto;
    inversion HP; subst; constructor; auto.
Qed.

Lemma map_update_nth_same {B : Type} (g : A -> B) (i : nat) (f : A -> A) (l : list A) :
  (forall x, g (f x) = g x) -> map g (update_nth i f l) = map g l.
Proof.
  intros Hg. revert i; induction l as [|a l IH]; intros [|i]; simpl;
    rewrite ?Hg, ?IH; reflexivity.
Qed.

Lemma In_combine_seq (l : list A) (s j : nat) (x : A) :
  In (j, x) (combine (seq s (length l)) l) <->
  (s <= j)%nat /\ nth_error l (j - s) = Some x.
Proof.
  revert s; induction l as [|a l IH]; intros s; simpl.
  - split; [tauto|]. intros [_ H]. destruct (j - s)%nat; discriminate.
  - rewrite IH. split.
    + intros [[= <- <-]|[Hs Hn]].
      * rewrite Nat.sub_diag. auto.
      * split; [lia|]. replace (j - s)%nat with (S (j - S s)) by lia. exact Hn.
    + intros [Hs Hn]. destruct (j - s)%nat as [|m] eqn:E.
      * left. simpl in Hn. inversion Hn. f_equal. lia.
      * right. split; [lia|]. replace (j - S s)%nat with m by lia. exact Hn.
Qed.

Lemma In_enumerate (l : list A) (j : nat) (x : A) :
  In (j, x) (enumerate l) <-> nth_error l j = Some x.
Proof.
  unfold enumerate. rewrite In_combine_seq, Nat.sub_0_r.
  split; [tauto|]. split; [lia|assumption].
Qed.

(** A property kept by the body of a loop is kept by the loop, also when
    the loop is left by an exception. *)
Lemma for_each_invariant {S : Type} (P : S -> Prop)
    (body : A -> S -> S * result unit) (l : list A) (s : S) :
  (forall a s, P s -> P (fst (body a s))) -> P s -> P (fst (for_each body l s)).
Proof.
  intros Hb. revert s; induction l as [|a l IH]; intros s Hs; simpl; auto.
  specialize (Hb a s Hs). destruct (body a s) as [s' [[]|ex]]; simpl in *; auto.
Qed.

Lemma min_loop_In (key : A -> result Q) (l : list A) (best x : A) (kbest : Q) :
  min_loop key l best kbest = Ok x -> x = best \/ In x l.
Proof.
  revert best kbest; induction l as [|a l IH]; intros best kbest; simpl.
  - intros [= <-]. auto.
  - destruct (key a) as [ka|]; simpl; [|discriminate].
    destruct (Qltb ka kbest); intros H; apply IH in H; intuition auto.
Qed.

Lemma py_min_In (key : A -> result Q) (l : list A) (x : A) :
  py_min key l = Ok x -> In x l.
Proof.
  destruct l as [|a l]; simpl; [discriminate|].
  destruct (key a) as [ka|]; simpl; [|discriminate].
  intros H. apply min_loop_In in H. intuition auto.
Qed.

End ListFacts.

(** ** Load invariants *)

Lemma sumZ_loads_update (dcs : list DataCenter) (i : nat) (dc : DataCenter) (delta : Z) :
  nth_error dcs i = Some dc ->
  sumZ (map current_load (update_nth i (add_current_load delta) dcs))
  = sumZ (map current_load dcs) + delta.
Proof.
  revert i; induction dcs as [|a l IH]; intros [|i]; simpl; try discriminate.
  - intros _. lia.
  - intros H. rewrite (IH _ H). lia.
Qed.

Lemma other_datacenters_nth (dcs : list DataCenter) (dc d : DataCenter) (j : nat) :
  In (j, d) (other_datacenters dcs dc) ->
  nth_error dcs j = Some d /\ dc_id d <> dc_id dc.
Proof.
  unfold other_datacenters. rewrite filter_In, In_enumerate. simpl.
  intros [H Hne]. split; [exact H|].
  destruct (String.eqb_spec (dc_id d) (dc_id dc)); [discriminate|assumption].
Qed.

(** What [_heal_overload] does when it returns, and that it leaves the
    engine untouched when it raises. *)
Lemma heal_overload_cases (e : SelfHealingEngine) (i : nat) :
  let dcs := datacenters (orchestrator e) in
  (fst (_heal_overload e i) = e) \/
  (exists dc j tgt amount,
      nth_error dcs i = Some dc /\
      py_min (fun p => ratio (snd p)) (other_datacenters dcs dc) = Ok (j, tgt) /\
      nth_error dcs j = Some tgt /\ dc_id tgt <> dc_id dc /\
      migration_amount (current_load dc) = Ok amount /\
      _heal_overload e i =
        (mkEngine
           (set_datacenters
              (update_nth j (add_current_load amount)
                 (update_nth i (add_current_load (- amount)) dcs))
              (orchestrator e))
           (healing_actions e + 1), Ok tt)).
Proof.
  intros dcs. unfold _heal_overload. fold dcs.
  destruct (nth_error dcs i) as [dc|] eqn:Hi; [|left; reflexivity].
  destruct (py_min _ _) as [[j tgt]|] eqn:Hmin; [|left; reflexivity].
  destruct (migration_amount _) as [amount|] eqn:Ham; [|left; reflexivity].
  right. exists dc, j, tgt, amount.
  pose proof (py_min_In _ _ _ Hmin) as Hin.
  apply other_datacenters_nth in Hin. intuition auto.
Qed.

Lemma heal_overload_nonneg (e : SelfHealingEngine) (i : nat) :
  loads_nonneg (datacenters (orchestrator e)) ->
  loads_nonneg (datacenters (orchestrator (fst (_heal_overload e i)))).
Proof.
  intros H. destruct (heal_overload_cases e i) as [->|(dc & j & tgt & amount & Hi & _ & Hj & _ & Ham & ->)];
    [exact H|]. simpl.
  assert (Hdc : 0 <= current_load dc).
  { unfold loads_nonneg in H. rewrite Forall_forall in H. apply H.
    eapply nth_error_In; eauto. }
  pose proof (migration_amount_bounds _ _ Hdc Ham) as Hb.
  apply Forall_update_nth; [apply Forall_update_nth; [exact H|]|].
  - intros x Hx. rewrite Hi in Hx. inversion Hx; subst. simpl. lia.
  - intros x Hx. simpl.
    assert (0 <= current_load x); [|lia].
    apply nth_error_In in Hx. revert x Hx. apply Forall_forall.
    apply Forall_update_nth; [exact H|].
    intros y Hy. rewrite Hi in Hy. inversion Hy; subst. simpl. lia.
Qed.

Lemma heal_overload_total (e : SelfHealingEngine) (i : nat) :
  total_load (fst (_heal_overload e i)) = total_load e.
Proof.
  destruct (heal_overload_cases e i) as [->|(dc & j & tgt & amount & Hi & _ & Hj & Hne & _ & ->)];
    [reflexivity|]. unfold total_load, loads. simpl.
  assert (Hj' : exists t, nth_error (update_nth i (add_current_load (- amount))
                                      (datacenters (orchestrator e))) j = Some t).
  { destruct (Nat.eq_dec i j) as [<-|Hij].
    - rewrite nth_error_update_nth_eq, Hi. eexists; reflexivity.
    - rewrite nth_error_update_nth_neq by assumption. eauto. }
  destruct Hj' as [t Ht].
  rewrite (sumZ_loads_update _ _ _ _ Ht), (sumZ_loads_update _ _ _ _ Hi). lia.
Qed.

Lemma check_datacenter_cases (i : nat) (e : SelfHealingEngine) :
  let e1 := fst (check_datacenter i e) in
  e1 = e \/ e1 = fst (_heal_overload e i) \/
  e1 = fst (_heal_datacenter e i) \/
  e1 = fst (_heal_datacenter (fst (_heal_overload e i)) i).
Proof.
  unfold check_datacenter.
  destruct (nth_error _ i) as [dc|]; [|auto].
  destruct (overloaded dc) as [[|]|]; [| |auto].
  - destruct (_heal_overload e i) as [e1 [[]|ex]]; simpl; [|auto].
    destruct (nth_error _ i) as [dc1|]; [|auto].
    destruct (RegionStatus_eqb _ _); auto.
  - destruct (nth_error _ i) as [dc1|]; [|auto].
    destruct (RegionStatus_eqb _ _); auto.
Qed.

Lemma heal_datacenter_loads (e : SelfHealingEngine) (i : nat) :
  loads (fst (_heal_datacenter e i)) = loads e.
Proof.
  unfold loads. simpl. apply map_update_nth_same. reflexivity.
Qed.

Lemma check_service_datacenters (i : nat) (e : SelfHealingEngine) :
  datacenters (orchestrator (fst (check_service i e))) = datacenters (orchestrator e).
Proof.
  unfold check_service. destruct (nth_error _ i) as [s|]; [|reflexivity].
  destruct (Qltb _ _); reflexivity.
Qed.

(** Both loops of the monitor keep a property of the pools' loads that the
    migration keeps. *)
Lemma monitor_loads_invariant (P : list Z -> Prop) (e : SelfHealingEngine) :
  (forall e i, P (loads e) -> P (loads (fst (_heal_overload e i)))) ->
  P (loads e) -> P (loads (fst (monitor_and_heal e))).
Proof.
  intros Hov He. unfold monitor_and_heal.
  pose proof (for_each_invariant (fun e => P (loads e)) check_datacenter
                (seq 0 (length (datacenters (orchestrator e)))) e) as H1.
  destruct (for_each check_datacenter _ e) as [e1 [[]|ex]]; simpl in H1.
  - apply (for_each_invariant (fun e => P (loads e))).
    + intros a s Hs. unfold loads. rewrite check_service_datacenters. exact Hs.
    + apply H1; [|exact He].
      intros a s Hs.
      destruct (check_datacenter_cases a s) as [->|[->|[->| ->]]];
        rewrite ?heal_datacenter_loads; auto.
  - simpl. apply H1; [|exact He].
    intros a s Hs.
    destruct (check_datacenter_cases a s) as [->|[->|[->| ->]]];
      rewrite ?heal_datacenter_loads; auto.
Qed.

Lemma loads_nonneg_loads (e : SelfHealingEngine) :
  loads_nonneg (datacenters (orchestrator e)) <-> Forall (fun x => 0 <= x) (loads e).
Proof.
  unfold loads_nonneg, loads. rewrite Forall_map. reflexivity.
Qed.

Lemma deploy_loop_nonneg (clock : nat -> Z) (name : string)
    (sel : list (nat * DataCenter)) :
  forall k o deployed,
    loads_nonneg (datacenters o) ->
    loads_nonneg (datacenters (fst (deploy_loop clock k name sel o deployed))).
Proof.
  induction sel as [|[i dc] sel IH]; intros k o deployed H; simpl; [exact H|].
  apply IH. simpl. apply Forall_update_nth; [exact H|].
  intros x Hx. simpl.
  assert (0 <= current_load x); [|lia].
  apply nth_error_In in Hx. revert x Hx. apply Forall_forall. exact H.
Qed.

Lemma deploy_service_nonneg (clock : nat -> Z) (o : MultiCloudOrchestrator)
    (name : string) (replicas : Z) :
  loads_nonneg (datacenters o) ->
  loads_nonneg (datacenters (fst (deploy_service clock o name replicas))).
Proof.
  intros H. unfold deploy_service.
  destruct (select_datacenters _ _) as [sel|ex]; [|exact H].
  pose proof (deploy_loop_nonneg clock name sel 0 o [] H) as H'.
  destruct (deploy_loop _ _ _ _ _ _). exact H'.
Qed.

(** The scale-down loop only touches the instance table. *)
Lemma scale_service_down_datacenters (clock : nat -> Z) (o : MultiCloudOrchestrator)
    (name : string) (target : Z) :
  target <= Z.of_nat (length (filter (fun s => String.eqb (service_name s) name) (services o))) ->
  datacenters (fst (scale_service clock o name target)) = datacenters o.
Proof.
  intros H. unfold scale_service.
  destruct (Z.ltb_spec (Z.of_nat (length (filter (fun s => String.eqb (service_name s) name)
                                            (services o)))) target) as [Hlt|_]; [lia|].
  destruct (Z.ltb_spec target (Z.of_nat (length (filter (fun s => String.eqb (service_name s) name)
                                            (services o))))) as [_|_]; [|reflexivity].
  destruct (remove_loop _ _ _). reflexivity.
Qed.

Lemma scale_service_nonneg (clock : nat -> Z) (o : MultiCloudOrchestrator)
    (name : string) (target : Z) :
  loads_nonneg (datacenters o) ->
  loads_nonneg (datacenters (fst (scale_service clock o name target))).
Proof.
  intros H.
  destruct (Z.lt_ge_cases
              (Z.of_nat (length (filter (fun s => String.eqb (service_name s) name)
                                   (services o)))) target) as [Hlt|Hge].
  - unfold scale_service. apply Z.ltb_lt in Hlt. rewrite Hlt.
    pose proof (deploy_service_nonneg clock o name
                  (target - Z.of_nat (length (filter (fun s => String.eqb (service_name s) name)
                                                (services o)))) H) as H'.
    destruct (deploy_service _ _ _ _). exact H'.
  - rewrite scale_service_down_datacenters by exact Hge. exact H.
Qed.

Lemma monitor_nonneg (e : SelfHealingEngine) :
  loads_nonneg (datacenters (orchestrator e)) ->
  loads_nonneg (datacenters (orchestrator (fst (monitor_and_heal e)))).
Proof.
  rewrite !loads_nonneg_loads. apply monitor_loads_invariant.
  intros e' i. rewrite <- !loads_nonneg_loads. apply heal_overload_nonneg.
Qed.

Lemma perform_nonneg (op : operation) (e : SelfHealingEngine) :
  loads_nonneg (datacenters (orchestrator e)) ->
  loads_nonneg (datacenters (orchestrator (perform op e))).
Proof.
  destruct op; simpl.
  - apply deploy_service_nonneg.
  - apply scale_service_nonneg.
  - apply heal_overload_nonneg.
  - apply monitor_nonneg.
Qed.

Lemma run_nonneg (ops : list operation) :
  forall e, loads_nonneg (datacenters (orchestrator e)) ->
            loads_nonneg (datacenters (orchestrator (run ops e))).
Proof.
  induction ops as [|op ops IH]; intros e H; simpl; [exact H|].
  apply IH, perform_nonneg, H.
Qed.

(** ** C1: load non-negativity *)

(** C1.  Starting from a registry whose loads are not negative, after every
    operation of every sequence of deployments, scalings, migrations and
    monitor cycles the load of every pool is still not negative, whether the
    operation returned or raised; and in every state reached the amount a
    migration takes from a pool lies between zero and the load of that pool,
    so no operation ever asks for more load than is present. *)
Theorem load_non_negativity (e : SelfHealingEngine) (ops : list operation) :
  loads_nonneg (datacenters (orchestrator e)) ->
  forall k,
    let e' := run (firstn k ops) e in
    loads_nonneg (datacenters (orchestrator e')) /\
    (forall i dc amount,
        nth_error (datacenters (orchestrator e')) i = Some dc ->
        migration_amount (current_load dc) = Ok amount ->
        0 <= amount <= current_load dc).
Proof.
  intros H k e'.
  assert (H' : loads_nonneg (datacenters (orchestrator e'))) by (apply run_nonneg, H).
  split; [exact H'|].
  intros i dc amount Hi Ham.
  apply migration_amount_bounds; [|exact Ham].
  unfold loads_nonneg in H'. rewrite Forall_forall in H'.
  apply H'. eapply nth_error_In; eauto.
Qed.

Lemma load_non_negativity_witness :
  loads_nonneg (datacenters (orchestrator two_pools)) /\
  loads_nonneg
    (datacenters (orchestrator
       (run [Monitor; Deploy (fun _ => 1700000000) "svc" 2; Scale (fun _ => 1700000001) "svc" 1]
          two_pools))).
Proof.
  assert (H : loads_nonneg (datacenters (orchestrator two_pools))).
  { repeat constructor; simpl; lia. }
  split; [exact H|].
  exact (proj1 (load_non_negativity two_pools
                  [Monitor; Deploy (fun _ => 1700000000) "svc" 2;
                   Scale (fun _ => 1700000001) "svc" 1] H 3)).
Defined.

(** ** C10: healing conserves the total load *)

(** C10.  A monitor cycle leaves the sum of the loads of all pools as it
    was, whether it completes or is cut short by an exception: a migration
    takes from its source what it gives to its target, and the recovery of a
    pool or of an instance does not touch any load. *)
Theorem healing_conserves_load (e : SelfHealingEngine) :
  total_load (fst (monitor_and_heal e)) = total_load e /\
  (forall i, total_load (fst (_heal_overload e i)) = total_load e) /\
  (forall i, loads (fst (_heal_datacenter e i)) = loads e) /\
  (forall i, loads (fst (_heal_service e i)) = loads e).
Proof.
  split; [|split; [|split]].
  - unfold total_load.
    apply (monitor_loads_invariant (fun l => sumZ l = sumZ (loads e))); [|reflexivity].
    intros e' i H. rewrite <- H. apply heal_overload_total.
  - intros i. apply heal_overload_total.
  - intros i. apply heal_datacenter_loads.
  - intros i. reflexivity.
Qed.

(** ** Stable sorting *)

Section StableSort.
Context {A : Type}.
Implicit Types (x y : Q * (nat * A)) (l : list (Q * (nat * A))).

Lemma insert_by_key_perm x l : Permutation (insert_by_key x l) (x :: l).
Proof.
  induction l as [|y r IH]; simpl; [reflexivity|].
  destruct (Qltb (fst y) (fst x)); [|reflexivity].
  rewrite IH. apply perm_swap.
Qed.

Lemma sort_by_key_perm l : Permutation (sort_by_key l) l.
Proof.
  induction l as [|x r IH]; simpl; [reflexivity|].
  rewrite insert_by_key_perm. constructor. exact IH.
Qed.

Lemma precedes_of_le x y :
  (fst x <= fst y)%Q -> (fst (snd x) < fst (snd y))%nat -> precedes x y.
Proof.
  intros Hle Hlt. destruct (Qlt_le_dec (fst x) (fst y)) as [H|H]; [left; exact H|].
  right. split; [apply Qle_antisym; assumption|exact Hlt].
Qed.

Lemma precedes_key_le x y : precedes x y -> (fst x <= fst y)%Q.
Proof.
  intros [H|[H _]]; [apply Qlt_le_weak; exact H|].
  rewrite H. apply Qle_refl.
Qed.

(** Inserting an element that comes from an earlier position than all the
    others keeps the list in order. *)
Lemma insert_by_key_sorted x l :
  (forall y, In y l -> (fst (snd x) < fst (snd y))%nat) ->
  StronglySorted precedes l -> StronglySorted precedes (insert_by_key x l).
Proof.
  induction l as [|y r IH]; intros Hpos Hs; simpl.
  - repeat constructor.
  - apply StronglySorted_inv in Hs. destruct Hs as [Hr Hy].
    destruct (Qltb (fst y) (fst x)) eqn:E.
    + constructor.
      * apply IH; [|exact Hr]. intros z Hz. apply Hpos. right. exact Hz.
      * rewrite Forall_forall. intros z Hz.
        apply (Permutation_in _ (insert_by_key_perm x r)) in Hz.
        destruct Hz as [<-|Hz].
        -- left. apply Float64Facts.Qltb_lt. exact E.
        -- rewrite Forall_forall in Hy. auto.
    + apply Float64Facts.Qltb_ge in E.
      constructor; [constructor; assumption|].
      constructor.
      * apply precedes_of_le; [exact E|]. apply Hpos. left. reflexivity.
      * rewrite Forall_forall in *. intros z Hz.
        apply precedes_of_le.
        -- eapply Qle_trans; [exact E|]. apply precedes_key_le. auto.
        -- apply Hpos. right. exact Hz.
Qed.

Lemma sort_by_key_sorted l :
  StronglySorted (fun x y => (fst (snd x) < fst (snd y))%nat) l ->
  StronglySorted precedes (sort_by_key l).
Proof.
  induction l as [|x r IH]; intros Hs; simpl; [constructor|].
  apply StronglySorted_inv in Hs. destruct Hs as [Hr Hx].
  apply insert_by_key_sorted; [|auto].
  intros y Hy. apply (Permutation_in _ (sort_by_key_perm r)) in Hy.
  rewrite Forall_forall in Hx. auto.
Qed.

End StableSort.

(** Every element of a prefix of a sorted list comes before every element
    of the rest. *)
Lemma sorted_prefix {A : Type} (R : A -> A -> Prop) (l : list A) (n : nat) (x y : A) :
  StronglySorted R l -> In x (firstn n l) -> In y (skipn n l) -> R x y.
Proof.
  revert n; induction l as [|a l IH]; intros [|n] Hs Hx Hy; simpl in *; try contradiction.
  apply StronglySorted_inv in Hs. destruct Hs as [Hl Ha].
  destruct Hx as [<-|Hx].
  - rewrite Forall_forall in Ha. apply Ha.
    rewrite <- (firstn_skipn n l). apply in_or_app. right. exact Hy.
  - eapply IH; eauto.
Qed.

Lemma slice_to_prefix {A : Type} (l : list A) (n : Z) :
  exists m, slice_to l n = firstn m l.
Proof.
  unfold slice_to. destruct (0 <=? n); eexists; reflexivity.
Qed.

Lemma mapM_inv {A B : Type} (f : A -> result B) (l : list A) (bs : list B) :
  mapM f l = Ok bs -> Forall2 (fun a b => f a = Ok b) l bs.
Proof.
  revert bs; induction l as [|a l IH]; simpl; intros bs.
  - intros [= <-]. constructor.
  - destruct (f a) as [b|] eqn:Ea; simpl; [|discriminate].
    destruct (mapM f l) as [bs'|]; simpl; [|discriminate].
    intros [= <-]. constructor; auto.
Qed.

Lemma mapM_ok {A B : Type} (f : A -> result B) (l : list A) :
  (forall a, In a l -> exists b, f a = Ok b) -> exists bs, mapM f l = Ok bs.
Proof.
  induction l as [|a l IH]; intros H; simpl; [eexists; reflexivity|].
  destruct (H a (or_introl eq_refl)) as [b ->].
  destruct IH as [bs ->]; [intros; apply H; right; assumption|].
  simpl. eexists; reflexivity.
Qed.

Lemma Forall2_combine_In {A B : Type} (R : A -> B -> Prop) (l : list A) (bs : list B)
    (a : A) (b : B) :
  Forall2 R l bs -> In (b, a) (combine bs l) -> R a b.
Proof.
  induction 1 as [|a' b' l' bs' Hr _ IH]; simpl; [contradiction|].
  intros [[= <- <-]|H]; auto.
Qed.

Lemma map_snd_combine {A B : Type} (l : list A) (bs : list B) :
  length bs = length l -> map snd (combine bs l) = l.
Proof.
  revert bs; induction l as [|a l IH]; intros [|b bs]; simpl; try discriminate; auto.
  intros [= H]. rewrite IH; auto.
Qed.

Lemma map_fst_combine {A B : Type} (l : list A) (bs : list B) :
  length bs = length l -> map fst (combine bs l) = bs.
Proof.
  revert bs; induction l as [|a l IH]; intros [|b bs]; simpl; try discriminate; auto.
  intros [= H]. rewrite IH; auto.
Qed.

Lemma ratio_defined_ok (dc : DataCenter) :
  ratio_defined dc -> exists r, ratio dc = Ok r.
Proof.
  intros [Hc Hl]. apply Float64Facts.true_div_ok; assumption.
Qed.

Lemma combine_positions {A K : Type} (l : list A) :
  forall (ks : list K) (s : nat),
    StronglySorted (fun x y : K * (nat * A) => (fst (snd x) < fst (snd y))%nat)
      (combine ks (combine (seq s (length l)) l)).
Proof.
  induction l as [|a l IH]; intros [|k ks] s; simpl; try constructor.
  - apply IH.
  - rewrite Forall_forall. intros [k' [j x]] Hin. simpl.
    apply in_combine_r in Hin. apply In_combine_seq in Hin. lia.
Qed.

Lemma In_combine_l {A B : Type} (l : list A) (bs : list B) (a : A) :
  length bs = length l -> In a l -> exists b, In (b, a) (combine bs l).
Proof.
  revert bs; induction l as [|a' l IH]; intros [|b bs]; simpl; try discriminate;
    try contradiction.
  intros [= Hlen] [->|Hin].
  - exists b. left. reflexivity.
  - destruct (IH bs Hlen Hin) as [b' Hb']. exists b'. right. exact Hb'.
Qed.

Lemma deploy_loop_spec (clock : nat -> Z) (name : string) (sel : list (nat * DataCenter)) :
  forall k o deployed,
    datacenters (fst (deploy_loop clock k name sel o deployed)) = place_on sel (datacenters o) /\
    snd (deploy_loop clock k name sel o deployed) = (deployed ++ deployed_ids clock name k sel)%list.
Proof.
  unfold deployed_ids.
  induction sel as [|[i dc] sel IH]; intros k o deployed; simpl.
  - rewrite app_nil_r. auto.
  - match goal with
    | |- context [deploy_loop clock (S k) name sel ?o1 ?d1] =>
        destruct (IH (S k) o1 d1) as [H1 H2]
    end.
    rewrite H1, H2. simpl. rewrite <- app_assoc. auto.
Qed.

Lemma round64_ext (x y : Q) :
  Qnum x = Qnum y -> Qden x = Qden y -> Float64.round64 x = Float64.round64 y.
Proof. destruct x, y; simpl; intros; subst; reflexivity. Qed.

(** [ratio] returns the binary64 quotient of load and capacity. *)
Lemma ratio_quotient (dc : DataCenter) :
  ratio_defined dc -> ratio dc = Ok (quotient dc).
Proof.
  intros Hd. destruct (ratio_defined_ok dc Hd) as [r Hr]. rewrite Hr. f_equal.
  destruct Hd as [Hc _]. unfold ratio, Float64.true_div in Hr.
  destruct (Z.eqb_spec (capacity dc) 0); [contradiction|].
  destruct (Float64.fits _); [|discriminate]. injection Hr as <-.
  unfold quotient. apply round64_ext;
    destruct (capacity dc) as [|c|c]; try contradiction;
    unfold Qdiv, Qmult, Qinv, inject_Z; cbn [Z.ltb Z.compare Qnum Qden Z.opp Z.to_pos];
    try reflexivity; lia.
Qed.

Lemma StronglySorted_map_in {A B : Type} (R : A -> A -> Prop) (R' : B -> B -> Prop)
    (f : A -> B) (l : list A) :
  (forall x y, In x l -> In y l -> R x y -> R' (f x) (f y)) ->
  StronglySorted R l -> StronglySorted R' (map f l).
Proof.
  intros H Hs. induction Hs as [|a l Hl IH Ha]; simpl; constructor.
  - apply IH. intros x y Hx Hy. apply H; right; assumption.
  - rewrite Forall_forall in *. intros b Hb. apply in_map_iff in Hb.
    destruct Hb as (y & <- & Hy). apply H; [left; reflexivity|right; exact Hy|auto].
Qed.

Lemma StronglySorted_weaken_in {A : Type} (R R' : A -> A -> Prop) (l : list A) :
  (forall x y, In x l -> In y l -> R x y -> R' x y) ->
  StronglySorted R l -> StronglySorted R' l.
Proof.
  intros H Hs. rewrite <- (map_id l).
  exact (StronglySorted_map_in R R' (fun x => x) l H Hs).
Qed.

Lemma StronglySorted_firstn {A : Type} (R : A -> A -> Prop) (n : nat) (l : list A) :
  StronglySorted R l -> StronglySorted R (firstn n l).
Proof.
  intros Hs. revert n. induction Hs as [|a l Hl IH Ha]; intros [|n]; simpl; constructor.
  - apply IH.
  - rewrite Forall_forall in *. intros x Hx. apply Ha.
    rewrite <- (firstn_skipn n l). apply in_or_app. left. exact Hx.
Qed.

(** ** C2: placement *)

(** The selection in terms of the keys that [ratio] returns. *)
Lemma select_datacenters_by_ratio (dcs : list DataCenter) (replicas : Z) :
  Forall ratio_defined dcs ->
  exists sel,
    select_datacenters dcs replicas = Ok sel /\
    length sel = length (slice_to dcs replicas) /\
    NoDup (map fst sel) /\
    (forall i dc, In (i, dc) sel -> nth_error dcs i = Some dc) /\
    (forall i dc j dc' r r',
        In (i, dc) sel -> nth_error dcs j = Some dc' -> ~ In (j, dc') sel ->
        ratio dc = Ok r -> ratio dc' = Ok r' ->
        (r < r')%Q \/ ((r == r')%Q /\ (i < j)%nat)) /\
    (forall clock o name,
        datacenters o = dcs ->
        datacenters (fst (deploy_service clock o name replicas)) = place_on sel dcs /\
        snd (deploy_service clock o name replicas) = Ok (deployed_ids clock name 0 sel)) /\
    StronglySorted
      (fun p q : nat * DataCenter =>
         forall r r', ratio (snd p) = Ok r -> ratio (snd q) = Ok r' ->
                      (r < r')%Q \/ ((r == r')%Q /\ (fst p < fst q)%nat))
      sel.
Proof.
  intros Hdef. unfold select_datacenters, sorted.
  destruct (mapM_ok (fun p : nat * DataCenter => ratio (snd p)) (enumerate dcs)) as [ks Hks].
  { intros [j d] Hin. apply In_enumerate in Hin. apply ratio_defined_ok.
    rewrite Forall_forall in Hdef. apply Hdef. eapply nth_error_In; eauto. }
  rewrite Hks. cbn [bind].
  pose proof (mapM_inv _ _ _ Hks) as Hf2.
  assert (Hlen : length ks = length (enumerate dcs)).
  { symmetry. eapply Forall2_length; eauto. }
  set (keyed := combine ks (enumerate dcs)) in *.
  set (srt := sort_by_key keyed).
  assert (Hperm : Permutation srt keyed) by apply sort_by_key_perm.
  assert (Hsorted : StronglySorted precedes srt)
    by (apply sort_by_key_sorted, combine_positions).
  destruct (slice_to_prefix (map snd srt) replicas) as [m Hm].
  exists (slice_to (map snd srt) replicas).
  assert (Hsel : slice_to (map snd srt) replicas = map snd (firstn m srt))
    by (rewrite Hm; apply firstn_map).
  assert (Hin_sel : forall i dc, In (i, dc) (slice_to (map snd srt) replicas) ->
                                 exists k, In (k, (i, dc)) (firstn m srt)).
  { intros i dc H. rewrite Hsel in H. apply in_map_iff in H.
    destruct H as [[k p] [Hp Hin]]. simpl in Hp. subst p. eauto. }
  assert (Hfirst : forall x, In x (firstn m srt) -> In x keyed).
  { intros x Hx. apply (Permutation_in _ Hperm).
    rewrite <- (firstn_skipn m srt). apply in_or_app. left. exact Hx. }
  split; [reflexivity|]. split; [|split; [|split; [|split; [|split]]]].
  - assert (Hl : length (map snd srt) = length dcs).
    { rewrite length_map, (Permutation_length Hperm).
      unfold keyed. rewrite length_combine, Hlen, Nat.min_id.
      unfold enumerate. rewrite length_combine, length_seq, Nat.min_id. reflexivity. }
    unfold slice_to. destruct (0 <=? replicas); rewrite !length_firstn, Hl; reflexivity.
  - rewrite Hsel, map_map.
    assert (Hnd : NoDup (map (fun x : Q * (nat * DataCenter) => fst (snd x)) srt)).
    { apply (Permutation_NoDup (l := map (fun x : Q * (nat * DataCenter) => fst (snd x)) keyed)).
      - apply Permutation_map. symmetry. exact Hperm.
      - unfold keyed. rewrite <- map_map, map_snd_combine by exact Hlen.
        unfold enumerate. rewrite map_fst_combine by apply length_seq. apply seq_NoDup. }
    rewrite <- (firstn_skipn m srt), map_app in Hnd.
    apply NoDup_app_remove_r in Hnd. exact Hnd.
  - intros i dc H. destruct (Hin_sel i dc H) as [k Hk].
    apply Hfirst in Hk. apply in_combine_r in Hk. apply In_enumerate. exact Hk.
  - intros i dc j dc' r r' Hi Hj Hnot Hr Hr'.
    destruct (Hin_sel i dc Hi) as [k Hk].
    pose proof (Forall2_combine_In _ _ _ _ _ Hf2 (Hfirst _ Hk)) as Hkr.
    simpl in Hkr. rewrite Hr in Hkr. inversion Hkr; subst k.
    apply In_enumerate in Hj.
    destruct (In_combine_l _ ks _ Hlen Hj) as [k' Hk'].
    pose proof (Forall2_combine_In _ _ _ _ _ Hf2 Hk') as Hkr'.
    simpl in Hkr'. rewrite Hr' in Hkr'. inversion Hkr'; subst k'.
    apply (Permutation_in _ (Permutation_sym Hperm)) in Hk'.
    rewrite <- (firstn_skipn m srt) in Hk'. apply in_app_or in Hk'.
    destruct Hk' as [Hk'|Hk'].
    + exfalso. apply Hnot. rewrite Hsel. apply in_map_iff.
      exists (r', (j, dc')). auto.
    + exact (sorted_prefix _ _ _ _ _ Hsorted Hk Hk').
  - intros clock o name Ho. unfold deploy_service, select_datacenters, sorted.
    rewrite Ho, Hks. cbn [bind]. fold keyed. fold srt.
    destruct (deploy_loop_spec clock name (slice_to (map snd srt) replicas) 0 o []) as [H1 H2].
    destruct (deploy_loop _ _ _ _ _ _) as [o' ids]. simpl in *.
    rewrite H1, H2, Ho. auto.
  - rewrite Hsel. apply (StronglySorted_map_in precedes); [|apply StronglySorted_firstn, Hsorted].
    intros [kx [i dc]] [ky [j dc']] Hx Hy Hxy r r' Hr Hr'. simpl in *.
    pose proof (Forall2_combine_In _ _ _ _ _ Hf2 (Hfirst _ Hx)) as Hkx.
    pose proof (Forall2_combine_In _ _ _ _ _ Hf2 (Hfirst _ Hy)) as Hky.
    simpl in Hkx, Hky. rewrite Hr in Hkx. rewrite Hr' in Hky.
    inversion Hkx; inversion Hky; subst. exact Hxy.
Qed.

(** C2 (as the code has it).  On a registry whose ratios can all be computed
    (no zero capacity, loads within the range of a float), [deploy_service]
    selects distinct pools of the registry: [min(replicas, number of pools)]
    of them when the replica count is not negative, and all but [-replicas]
    of them (none, when there are no more than that) when it is negative.
    The pools selected are those that come first by the binary64 quotient
    [current_load / capacity], ties being broken by the position of the pool
    in the registry (its insertion order) and not by its id: every selected
    pool has a smaller quotient than every pool left out, or the same
    quotient and an earlier position, and the selection itself is in that
    order.  The selection is a function of the pools and of the replica count
    alone: whatever the service name, the clock and the instance table, the
    call adds 1000 to the load of exactly the selected pools and returns the
    ids of the instances created on them, in that order. *)
Theorem placement_selection (dcs : list DataCenter) (replicas : Z) :
  Forall ratio_defined dcs ->
  exists sel,
    select_datacenters dcs replicas = Ok sel /\
    length sel = (if 0 <=? replicas then Nat.min (Z.to_nat replicas) (length dcs)
                  else (length dcs - Z.to_nat (- replicas))%nat) /\
    NoDup (map fst sel) /\
    (forall i dc, In (i, dc) sel -> nth_error dcs i = Some dc) /\
    StronglySorted placed_before sel /\
    (forall i dc j dc',
        In (i, dc) sel -> nth_error dcs j = Some dc' -> ~ In (j, dc') sel ->
        placed_before (i, dc) (j, dc')) /\
    (forall clock o name,
        datacenters o = dcs ->
        datacenters (fst (deploy_service clock o name replicas)) = place_on sel dcs /\
        snd (deploy_service clock o name replicas) = Ok (deployed_ids clock name 0 sel)).
Proof.
  intros Hdef.
  destruct (select_datacenters_by_ratio dcs replicas Hdef)
    as (sel & Hsel & Hlen & Hnd & Hin & Hord & Hdep & Hsorted).
  assert (Hq : forall dc, In dc dcs -> ratio dc = Ok (quotient dc)).
  { intros dc H. apply ratio_quotient. rewrite Forall_forall in Hdef. auto. }
  exists sel. split; [exact Hsel|]. split.
  { rewrite Hlen. unfold slice_to. destruct (0 <=? replicas); rewrite length_firstn; lia. }
  split; [exact Hnd|]. split; [exact Hin|]. split; [|split; [|exact Hdep]].
  - refine (StronglySorted_weaken_in _ placed_before sel _ Hsorted).
    intros [i dc] [j dc'] Hx Hy H. unfold placed_before. simpl in *.
    apply H; apply Hq; eapply nth_error_In, Hin; eassumption.
  - intros i dc j dc' Hi Hj Hnot. unfold placed_before. simpl.
    apply (Hord i dc j dc' _ _ Hi Hj Hnot); apply Hq; eapply nth_error_In; eauto.
Qed.

Lemma placement_selection_witness :
  Forall ratio_defined mixed_pools /\
  exists sel,
    select_datacenters mixed_pools 2 = Ok sel /\ length sel = 2%nat /\
    map fst sel = [1; 2]%nat.
Proof.
  assert (H : Forall ratio_defined mixed_pools).
  { repeat constructor; simpl; try discriminate; reflexivity. }
  split; [exact H|].
  destruct (placement_selection mixed_pools 2 H) as (sel & Hsel & Hlen & _).
  exists sel. split; [exact Hsel|]. split; [exact Hlen|].
  assert (E : select_datacenters mixed_pools 2
              = Ok [(1%nat, pool "b" 100 10 HEALTHY 20); (2%nat, pool "c" 200 20 HEALTHY 30)])
    by (vm_compute; reflexivity).
  rewrite E in Hsel. injection Hsel as <-. reflexivity.
Defined.

(** Two pools with the same ratio: the one selected is the first of the
    registry, ["b"], although ["a"] has the smaller id.  And the number of
    pools selected is not always the replica count: five replicas on these
    two pools give two instances, and a replica count of [-1] gives one.  And
    the ratio compared is the binary64 quotient: of two pools at
    [(2^60 + 1) / 2^62] and [2^60 / 2^62], the first of the registry is
    selected although the exact ratio of the second is lower. *)
Lemma placement_tie_not_by_id :
  select_datacenters tied_pools 1 = Ok [(0%nat, pool "b" 100 0 HEALTHY 10)] /\
  ratio (pool "a" 100 0 HEALTHY 10) = ratio (pool "b" 100 0 HEALTHY 10) /\
  String.ltb "a" "b" = true /\
  snd (deploy_service (fun _ => 1700000000) (mkOrchestrator tied_pools [] 0 0) "svc" 1)
  = Ok ["svc-b-1700000000"%string] /\
  snd (deploy_service (fun _ => 1700000000) (mkOrchestrator tied_pools [] 0 0) "svc" 5)
  = Ok ["svc-b-1700000000"; "svc-a-1700000000"]%string /\
  snd (deploy_service (fun _ => 1700000000) (mkOrchestrator tied_pools [] 0 0) "svc" (-1))
  = Ok ["svc-b-1700000000"%string] /\
  (2 ^ 60 * 2 ^ 62 < (2 ^ 60 + 1) * 2 ^ 62 /\
   snd (deploy_service (fun _ => 1700000000) (mkOrchestrator near_tied_pools [] 0 0) "svc" 1)
   = Ok ["svc-x-1700000000"%string]).
Proof. vm_compute. repeat split; reflexivity. Qed.

(** ** C3: routing *)

Section MinFacts.
Context {A : Type} (key : A -> result Q).

Lemma min_loop_spec (l : list A) :
  forall best kbest x,
    min_loop key l best kbest = Ok x ->
    (x = best /\ forall y, In y l -> exists ky, key y = Ok ky /\ (kbest <= ky)%Q) \/
    (exists l1 l2 kx,
        l = l1 ++ x :: l2 /\ key x = Ok kx /\ (kx < kbest)%Q /\
        (forall y, In y l1 -> exists ky, key y = Ok ky /\ (kx < ky)%Q) /\
        (forall y, In y l2 -> exists ky, key y = Ok ky /\ (kx <= ky)%Q)).
Proof.
  induction l as [|a l IH]; intros best kbest x; simpl.
  - intros [= <-]. left. split; [reflexivity|contradiction].
  - destruct (key a) as [ka|] eqn:Ea; simpl; [|discriminate].
    destruct (Qltb ka kbest) eqn:E; intros H; apply IH in H.
    + apply Float64Facts.Qltb_lt in E. right.
      destruct H as [[-> Hall]|(l1 & l2 & kx & -> & Hx & Hlt & H1 & H2)].
      * exists [], l, ka. repeat split; auto. intros y [].
      * exists (a :: l1), l2, kx. repeat split; auto.
        -- eapply Qlt_trans; eauto.
        -- intros y [<-|Hy]; [eauto|auto].
    + apply Float64Facts.Qltb_ge in E.
      destruct H as [[-> Hall]|(l1 & l2 & kx & -> & Hx & Hlt & H1 & H2)].
      * left. split; [reflexivity|]. intros y [<-|Hy]; [eauto|auto].
      * right. exists (a :: l1), l2, kx. repeat split; auto.
        intros y [<-|Hy]; [|auto].
        exists ka. split; [exact Ea|]. eapply Qlt_le_trans; eauto.
Qed.

(** [min(l, key=key)] returns the first element of [l] whose key is least. *)
Lemma py_min_spec (l : list A) (x : A) :
  py_min key l = Ok x ->
  exists l1 l2 kx,
    l = l1 ++ x :: l2 /\ key x = Ok kx /\
    (forall y, In y l1 -> exists ky, key y = Ok ky /\ (kx < ky)%Q) /\
    (forall y, In y l2 -> exists ky, key y = Ok ky /\ (kx <= ky)%Q).
Proof.
  destruct l as [|a l]; simpl; [discriminate|].
  destruct (key a) as [ka|] eqn:Ea; simpl; [|discriminate].
  intros H. apply min_loop_spec in H.
  destruct H as [[-> Hall]|(l1 & l2 & kx & -> & Hx & Hlt & H1 & H2)].
  - exists [], l, ka. repeat split; auto. intros y [].
  - exists (a :: l1), l2, kx. repeat split; auto.
    intros y [<-|Hy]; [eauto|auto].
Qed.

Lemma min_loop_ok (l : list A) :
  (forall y, In y l -> exists k, key y = Ok k) ->
  forall best kbest, exists x, min_loop key l best kbest = Ok x.
Proof.
  induction l as [|a l IH]; intros Hk best kbest; simpl; [eauto|].
  destruct (Hk a (or_introl eq_refl)) as [ka ->]. simpl.
  destruct (Qltb ka kbest); apply IH; intros; apply Hk; right; assumption.
Qed.

Lemma py_min_ok (l : list A) :
  l <> [] -> (forall y, In y l -> exists k, key y = Ok k) ->
  exists x, py_min key l = Ok x.
Proof.
  destruct l as [|a l]; [congruence|]. intros _ Hk. simpl.
  destruct (Hk a (or_introl eq_refl)) as [ka ->]. simpl.
  apply min_loop_ok. intros; apply Hk; right; assumption.
Qed.

End MinFacts.

Lemma filterM_ok {A : Type} (f : A -> result bool) (g : A -> bool) (l : list A) :
  (forall a, In a l -> f a = Ok (g a)) -> filterM f l = Ok (filter g l).
Proof.
  induction l as [|a l IH]; intros H; simpl; [reflexivity|].
  rewrite (H a (or_introl eq_refl)), IH by (intros; apply H; right; assumption).
  simpl. destruct (g a); reflexivity.
Qed.

Lemma filter_split {A : Type} (f : A -> bool) (l : list A) :
  forall l1 x l2,
    filter f l = l1 ++ x :: l2 ->
    exists b a, l = b ++ x :: a /\ filter f b = l1 /\ filter f a = l2 /\ f x = true.
Proof.
  induction l as [|y l IH]; intros l1 x l2; simpl.
  - destruct l1; discriminate.
  - destruct (f y) eqn:Ey.
    + destruct l1 as [|z l1]; simpl; intros [= -> H].
      * exists [], l. auto.
      * destruct (IH _ _ _ H) as (b & a & -> & Hb & Ha & Hx).
        exists (z :: b), a. simpl. rewrite Ey, Hb. auto.
    + intros H. destruct (IH _ _ _ H) as (b & a & -> & Hb & Ha & Hx).
      exists (y :: b), a. simpl. rewrite Ey. auto.
Qed.

Lemma RegionStatus_eqb_eq (a b : RegionStatus) : RegionStatus_eqb a b = true <-> a = b.
Proof. destruct a, b; simpl; split; congruence. Qed.

Lemma routable_eligible (dc : DataCenter) :
  (status dc = HEALTHY -> capacity_in_range dc) -> routable dc = Ok (eligible dc).
Proof.
  intros H. unfold routable, eligible.
  destruct (RegionStatus_eqb (status dc) HEALTHY) eqn:E; [|reflexivity].
  apply RegionStatus_eqb_eq in E.
  rewrite (Float64Facts.of_int_ok _ (H E)). reflexivity.
Qed.

(** C3 (as the code has it).  When the capacity of every healthy pool is
    within the range of a float, [route_traffic] returns without raising.
    It returns [None] exactly when no pool is healthy with a load below
    [capacity * 0.9]; otherwise it returns the id of a pool of the registry
    that is healthy, whose load is below [capacity * 0.9] (for capacities
    from 0 to [2^50] the float comparison is exactly
    [10 * load < 9 * capacity]), and whose latency is the least among such
    pools, ties being broken by the position of the pool in the registry (the
    first one wins) and not by its id. *)
Theorem routing_selection (o : MultiCloudOrchestrator) (user_location : string) :
  Forall (fun dc => status dc = HEALTHY -> capacity_in_range dc) (datacenters o) ->
  exists r,
    route_traffic o user_location = Ok r /\
    match r with
    | None => forall dc, In dc (datacenters o) -> eligible dc = false
    | Some i =>
        exists earlier best later,
          datacenters o = earlier ++ best :: later /\ dc_id best = i /\
          status best = HEALTHY /\
          (inject_Z (current_load best)
           < Float64.mul (Float64.round64 (inject_Z (capacity best))) lit_0_9)%Q /\
          (0 <= capacity best < 2 ^ 50 -> 10 * current_load best < 9 * capacity best) /\
          (forall dc, In dc earlier -> eligible dc = true ->
                      (latency_ms best < latency_ms dc)%Q) /\
          (forall dc, In dc later -> eligible dc = true ->
                      (latency_ms best <= latency_ms dc)%Q)
    end.
Proof.
  intros Hcap. unfold route_traffic.
  rewrite (filterM_ok routable eligible).
  2:{ intros dc Hin. apply routable_eligible. rewrite Forall_forall in Hcap. auto. }
  cbn [bind].
  destruct (filter eligible (datacenters o)) as [|a l] eqn:Hf.
  - exists None. split; [reflexivity|].
    intros dc Hin. destruct (eligible dc) eqn:E; [|reflexivity].
    assert (Hin' : In dc (filter eligible (datacenters o))) by (apply filter_In; auto).
    rewrite Hf in Hin'. contradiction.
  - destruct (py_min_ok (fun dc => Ok (latency_ms dc)) (a :: l)) as [best Hbest];
      [discriminate|eauto|].
    rewrite Hbest. cbn [bind]. exists (Some (dc_id best)). split; [reflexivity|].
    apply py_min_spec in Hbest.
    destruct Hbest as (l1 & l2 & kx & Hl & [= <-] & H1 & H2).
    rewrite <- Hf in Hl.
    destruct (filter_split _ _ _ _ _ Hl) as (b & c & Hdcs & Hb & Hc & Hel).
    exists b, best, c.
    assert (Hexact : 0 <= capacity best < 2 ^ 50 ->
                     10 * current_load best < 9 * capacity best).
    { intros Hr. rewrite (eligible_exact best Hr) in Hel.
      apply andb_true_iff in Hel. apply Z.ltb_lt. tauto. }
    unfold eligible in Hel. apply andb_true_iff in Hel. destruct Hel as [Hs Hlt].
    apply RegionStatus_eqb_eq in Hs. apply Float64Facts.Qltb_lt in Hlt.
    split; [exact Hdcs|]. split; [reflexivity|]. split; [exact Hs|]. split; [exact Hlt|].
    split; [exact Hexact|]. split.
    + intros dc Hin He.
      destruct (H1 dc) as (ky & [= <-] & Hk); [|exact Hk].
      rewrite <- Hb. apply filter_In. auto.
    + intros dc Hin He.
      destruct (H2 dc) as (ky & [= <-] & Hk); [|exact Hk].
      rewrite <- Hc. apply filter_In. auto.
Qed.

Lemma routing_selection_witness :
  Forall (fun dc => status dc = HEALTHY -> capacity_in_range dc) tied_pools /\
  exists r, route_traffic (mkOrchestrator tied_pools [] 0 0) "eu" = Ok r.
Proof.
  assert (H : Forall (fun dc => status dc = HEALTHY -> capacity_in_range dc) tied_pools).
  { repeat constructor. }
  split; [exact H|].
  destruct (routing_selection (mkOrchestrator tied_pools [] 0 0) "eu" H) as (r & Hr & _).
  exists r. exact Hr.
Defined.

(** The same two pools, equally fast, in either order: the one returned is
    the first of the registry each time, so the tie is not decided by the
    ids.  And a healthy pool whose capacity does not fit in a float makes the
    call raise. *)
Lemma routing_tie_not_by_id :
  route_traffic (mkOrchestrator [pool "b" 100 0 HEALTHY 10; pool "a" 100 0 HEALTHY 10] [] 0 0) "eu"
  = Ok (Some "b"%string) /\
  route_traffic (mkOrchestrator [pool "a" 100 0 HEALTHY 10; pool "b" 100 0 HEALTHY 10] [] 0 0) "eu"
  = Ok (Some "a"%string) /\
  route_traffic (mkOrchestrator [pool "a" (10 ^ 400) 0 HEALTHY 10] [] 0 0) "eu"
  = Raise OverflowError.
Proof. vm_compute. repeat split; reflexivity. Qed.

(** ** C5 and C8: scaling *)

(** C5 (the code at the failing inputs).  With one pool and no instance,
    scaling ["svc"] to 2 returns normally and leaves one instance, since
    [deploy_service] creates at most one instance per pool; and with one
    instance created at clock reading 1700000000, scaling to 2 while the
    clock still reads 1700000000 builds the id of the existing instance
    again, overwrites it, and leaves one instance as well. *)
Theorem scale_up_misses_target :
  (let r := scale_service (fun _ => 1700000000) (one_pool 0 []) "svc" 2 in
   snd r = Ok tt /\ instance_count "svc" (fst r) = 1%nat) /\
  (let o := fst (deploy_service (fun _ => 1700000000) (one_pool 0 []) "svc" 1) in
   let r := scale_service (fun _ => 1700000000) o "svc" 2 in
   instance_count "svc" o = 1%nat /\ snd r = Ok tt /\ instance_count "svc" (fst r) = 1%nat).
Proof. vm_compute. repeat split; reflexivity. Qed.

Section ScaleDown.

Lemma pop_nil {A : Type} : pop (@nil A) = None.
Proof. reflexivity. Qed.

Lemma pop_snoc {A : Type} (l : list A) (x : A) : pop (l ++ [x]) = Some (x, l).
Proof. unfold pop. rewrite rev_unit, rev_involutive. reflexivity. Qed.

Lemma filter_all {A : Type} (f : A -> bool) (l : list A) :
  (forall a, In a l -> f a = true) -> filter f l = l.
Proof.
  induction l as [|a l IH]; intros H; simpl; [reflexivity|].
  rewrite (H a (or_introl eq_refl)), IH; [reflexivity|].
  intros; apply H; right; assumption.
Qed.

Lemma filter_none {A : Type} (f : A -> bool) (l : list A) :
  (forall a, In a l -> f a = false) -> filter f l = [].
Proof.
  induction l as [|a l IH]; intros H; simpl; [reflexivity|].
  rewrite (H a (or_introl eq_refl)). apply IH.
  intros; apply H; right; assumption.
Qed.

Lemma NoDup_app_disjoint {A : Type} (l1 l2 : list A) (a : A) :
  NoDup (l1 ++ l2) -> In a l1 -> ~ In a l2.
Proof.
  induction l1 as [|b l1 IH]; simpl; intros Hnd Hin; [contradiction|].
  inversion Hnd as [|? ? Hb Hr]; subst. destruct Hin as [->|Hin]; [|auto].
  intros H2. apply Hb, in_or_app. right. exact H2.
Qed.

Lemma filter_filter {A : Type} (f g : A -> bool) (l : list A) :
  filter f (filter g l) = filter (fun a => g a && f a) l.
Proof.
  induction l as [|a l IH]; simpl; [reflexivity|].
  destruct (g a); simpl; [destruct (f a)|]; rewrite IH; reflexivity.
Qed.

(** On a table whose ids are distinct, [del] removes the instance itself. *)
Lemma dict_del_present (x : ServiceInstance) (svcs : list ServiceInstance) :
  NoDup (map instance_id svcs) -> In x svcs ->
  dict_del (instance_id x) svcs = Ok (without [x] svcs).
Proof.
  unfold without. induction svcs as [|s r IH]; simpl; [contradiction|].
  intros Hnd Hin. inversion Hnd as [|? ? Hs Hr]; subst.
  rewrite orb_false_r.
  destruct (String.eqb_spec (instance_id s) (instance_id x)) as [E|E]; simpl.
  - f_equal. symmetry. apply filter_all.
    intros a Ha. rewrite orb_false_r.
    destruct (String.eqb_spec (instance_id a) (instance_id x)) as [E'|]; [|reflexivity].
    exfalso. apply Hs. rewrite E, <- E'. apply in_map. exact Ha.
  - destruct Hin as [->|Hin]; [congruence|].
    rewrite (IH Hr Hin). reflexivity.
Qed.

Lemma filter_NoDup_ids (g : ServiceInstance -> bool) (svcs : list ServiceInstance) :
  NoDup (map instance_id svcs) -> NoDup (map instance_id (filter g svcs)).
Proof.
  induction svcs as [|s r IH]; simpl; intros H; [constructor|].
  inversion H as [|? ? Hs Hr]; subst.
  destruct (g s); simpl; [constructor|]; auto.
  intros Hin. apply Hs. apply in_map_iff in Hin.
  destruct Hin as (a & Ha & Hin). apply filter_In in Hin.
  rewrite <- Ha. apply in_map. tauto.
Qed.

Lemma without_NoDup (removed svcs : list ServiceInstance) :
  NoDup (map instance_id svcs) -> NoDup (map instance_id (without removed svcs)).
Proof. apply filter_NoDup_ids. Qed.

(** The scale-down loop deletes the last [n] of [current_instances]. *)
Lemma remove_loop_spec (n : nat) :
  forall current_instances svcs,
    NoDup (map instance_id svcs) ->
    NoDup (map instance_id current_instances) ->
    incl current_instances svcs ->
    remove_loop n current_instances svcs
    = (without (skipn (length current_instances - n) current_instances) svcs, Ok tt).
Proof.
  induction n as [|n IH]; intros cur svcs Hnd Hcur Hincl; simpl.
  - rewrite Nat.sub_0_r, skipn_all. unfold without. simpl.
    rewrite filter_all; auto.
  - destruct cur as [|x c _] using rev_ind.
    + rewrite pop_nil. rewrite IH by assumption. reflexivity.
    + rewrite pop_snoc.
      rewrite (dict_del_present x svcs Hnd) by (apply Hincl, in_or_app; right; left; reflexivity).
      rewrite map_app in Hcur. simpl in Hcur.
      assert (Hc : NoDup (map instance_id c)) by (eapply NoDup_app_remove_r; eauto).
      assert (Hx : ~ In (instance_id x) (map instance_id c)).
      { intros Hin. apply NoDup_remove_2 in Hcur. apply Hcur.
        rewrite app_nil_r. exact Hin. }
      rewrite IH; [|apply without_NoDup; exact Hnd|exact Hc|].
      * f_equal. unfold without. rewrite filter_filter.
        rewrite length_app. simpl.
        replace (length c + 1 - S n)%nat with (length c - n)%nat by lia.
        rewrite skipn_app.
        replace (length c - n - length c)%nat with 0%nat by lia. simpl.
        apply filter_ext. intros a.
        rewrite existsb_app. simpl. rewrite !orb_false_r.
        destruct (String.eqb (instance_id a) (instance_id x));
          destruct (existsb _ _); reflexivity.
      * intros a Ha. unfold without. apply filter_In. split.
        -- apply Hincl, in_or_app. left. exact Ha.
        -- simpl. rewrite orb_false_r.
           destruct (String.eqb_spec (instance_id a) (instance_id x)) as [E'|]; [|reflexivity].
           exfalso. apply Hx. rewrite <- E'. apply in_map. exact Ha.
Qed.

Lemma existsb_id_In (a : ServiceInstance) (l : list ServiceInstance) :
  existsb (fun r => String.eqb (instance_id a) (instance_id r)) l = true <->
  In (instance_id a) (map instance_id l).
Proof.
  rewrite existsb_exists, in_map_iff. split.
  - intros (x & Hx & E). apply String.eqb_eq in E. eauto.
  - intros (x & E & Hx). exists x. split; [exact Hx|]. apply String.eqb_eq. auto.
Qed.

(** Taking the last elements out of a list of distinct ids leaves the first. *)
Lemma without_suffix (m : nat) (l : list ServiceInstance) :
  NoDup (map instance_id l) -> without (skipn m l) l = firstn m l.
Proof.
  intros Hnd. unfold without.
  set (keep := fun s => negb (existsb (fun r => String.eqb (instance_id s) (instance_id r))
                                (skipn m l))).
  transitivity (filter keep (firstn m l ++ skipn m l));
    [rewrite firstn_skipn; reflexivity|].
  rewrite filter_app. subst keep.
  rewrite <- (firstn_skipn m l), map_app in Hnd.
  rewrite (filter_all _ (firstn m l)).
  - rewrite (filter_none _ (skipn m l)); [apply app_nil_r|].
    intros a Ha. apply negb_false_iff, existsb_id_In, in_map, Ha.
  - intros a Ha. apply negb_true_iff.
    destruct (existsb _ _) eqn:E; [|reflexivity].
    apply existsb_id_In in E. exfalso.
    apply (NoDup_app_disjoint _ _ (instance_id a) Hnd); [apply in_map, Ha|exact E].
Qed.

Lemma scale_down_spec (clock : nat -> Z) (o : MultiCloudOrchestrator) (name : string)
    (target : Z) :
  NoDup (map instance_id (services o)) ->
  target < Z.of_nat (instance_count name o) ->
  scale_service clock o name target
  = (set_services
       (without (skipn (Z.to_nat target)
                   (filter (fun s => String.eqb (service_name s) name) (services o)))
          (services o)) o, Ok tt).
Proof.
  intros Hnd Hlt. unfold scale_service, instance_count in *.
  set (cur := filter (fun s => String.eqb (service_name s) name) (services o)) in *.
  destruct (Z.ltb_spec (Z.of_nat (length cur)) target); [lia|].
  destruct (Z.ltb_spec target (Z.of_nat (length cur))); [|lia].
  rewrite remove_loop_spec.
  - replace (length cur - Z.to_nat (Z.of_nat (length cur) - target))%nat
      with (Z.to_nat target) by lia.
    reflexivity.
  - exact Hnd.
  - apply filter_NoDup_ids, Hnd.
  - apply incl_filter.
Qed.

End ScaleDown.

(** C8 (as the code has it).  On a registry whose instance ids are distinct,
    scaling a service down to a target below its instance count returns
    normally, deletes from the instance table exactly the most recently
    inserted instances of the service in excess of the target (all of them
    when the target is negative), leaves the instances of the service at the
    target count, and leaves every pool as it was: no [current_load] is
    decremented. *)
Theorem scale_down_keeps_loads (clock : nat -> Z) (o : MultiCloudOrchestrator)
    (name : string) (target : Z) :
  NoDup (map instance_id (services o)) ->
  target < Z.of_nat (instance_count name o) ->
  let current := filter (fun s => String.eqb (service_name s) name) (services o) in
  let r := scale_service clock o name target in
  snd r = Ok tt /\
  services (fst r) = without (skipn (Z.to_nat target) current) (services o) /\
  filter (fun s => String.eqb (service_name s) name) (services (fst r))
  = firstn (Z.to_nat target) current /\
  instance_count name (fst r) = Z.to_nat target /\
  datacenters (fst r) = datacenters o.
Proof.
  intros Hnd Hlt current r. subst r.
  rewrite (scale_down_spec clock o name target Hnd Hlt). fold current. simpl.
  assert (Hf : filter (fun s => String.eqb (service_name s) name)
                 (without (skipn (Z.to_nat target) current) (services o))
               = firstn (Z.to_nat target) current).
  { unfold without. rewrite filter_filter.
    rewrite (filter_ext _ (fun a => (String.eqb (service_name a) name) &&
               negb (existsb (fun r => String.eqb (instance_id a) (instance_id r))
                       (skipn (Z.to_nat target) current))))
      by (intros a; apply andb_comm).
    rewrite <- filter_filter. fold current.
    apply without_suffix, filter_NoDup_ids, Hnd. }
  repeat split; auto.
  unfold instance_count. simpl. rewrite Hf, length_firstn.
  unfold instance_count in Hlt. fold current in Hlt. lia.
Qed.

Lemma scale_down_keeps_loads_witness :
  NoDup (map instance_id (services (one_pool 1000 [svc_on_a]))) /\
  0 < Z.of_nat (instance_count "svc" (one_pool 1000 [svc_on_a])) /\
  datacenters (fst (scale_service (fun _ => 1700000001) (one_pool 1000 [svc_on_a]) "svc" 0))
  = datacenters (one_pool 1000 [svc_on_a]).
Proof.
  assert (H1 : NoDup (map instance_id (services (one_pool 1000 [svc_on_a])))).
  { repeat constructor. simpl. tauto. }
  assert (H2 : 0 < Z.of_nat (instance_count "svc" (one_pool 1000 [svc_on_a]))).
  { reflexivity. }
  split; [exact H1|]. split; [exact H2|].
  exact (proj2 (proj2 (proj2 (proj2
    (scale_down_keeps_loads (fun _ => 1700000001) (one_pool 1000 [svc_on_a]) "svc" 0 H1 H2))))).
Defined.

(** One pool carrying the 1000 units of the one instance placed on it:
    scaling the service down to zero deletes the instance and leaves the
    load of the pool at 1000. *)
Lemma scale_down_releases_nothing :
  let r := scale_service (fun _ => 1700000001) (one_pool 1000 [svc_on_a]) "svc" 0 in
  snd r = Ok tt /\ services (fst r) = [] /\
  map current_load (datacenters (fst r)) = [1000].
Proof. vm_compute. repeat split; reflexivity. Qed.

(** ** The monitor cycle *)

Lemma sumZ_bound (l : list Z) (x : Z) :
  Forall (fun y => 0 <= y) l -> In x l -> 0 <= x <= sumZ l.
Proof.
  induction 1 as [|y l Hy Hl IH]; simpl; [contradiction|].
  assert (0 <= sumZ l).
  { clear IH. induction Hl; simpl; lia. }
  intros [->|Hin]; [lia|]. specialize (IH Hin). lia.
Qed.

Lemma update_nth_id {A : Type} (i : nat) (f : A -> A) (l : list A) :
  (forall x, nth_error l i = Some x -> f x = x) -> update_nth i f l = l.
Proof.
  revert i; induction l as [|a l IH]; intros [|i] H; simpl; auto.
  - rewrite (H a eq_refl). reflexivity.
  - rewrite IH; auto.
Qed.

Lemma update_nth_ext {A : Type} (i : nat) (f g : A -> A) (l : list A) :
  (forall x, nth_error l i = Some x -> f x = g x) -> update_nth i f l = update_nth i g l.
Proof.
  revert i; induction l as [|a l IH]; intros [|i] H; simpl; auto.
  - rewrite (H a eq_refl). reflexivity.
  - rewrite (IH i); auto.
Qed.

Lemma map_update_nth {A B : Type} (g : A -> B) (h : A -> A) (f : B -> B) (i : nat)
    (l : list A) :
  (forall x, g (h x) = f (g x)) -> map g (update_nth i h l) = update_nth i f (map g l).
Proof.
  intros H. revert i; induction l as [|a l IH]; intros [|i]; simpl;
    rewrite ?H, ?IH; reflexivity.
Qed.

Lemma update_nth_sweep {A : Type} (f : A -> A) (n : nat) (l : list A) :
  forall start,
    firstn (S start) (update_nth start f l)
    ++ map f (firstn n (skipn (S start) (update_nth start f l)))
    ++ skipn (S start + n) (update_nth start f l)
    = firstn start l ++ map f (firstn (S n) (skipn start l)) ++ skipn (start + S n) l.
Proof.
  induction l as [|a l IH]; intros [|start]; simpl;
    rewrite ?firstn_nil, ?skipn_nil, ?firstn_nil; try reflexivity.
  rewrite <- IH. reflexivity.
Qed.

(** A loop over the positions [start, start + n) whose body, seen through
    [view], applies [f] at its position, applies [f] at each of these
    positions and leaves the others. *)
Lemma for_each_pointwise {S V : Type} (view : S -> list V) (f : V -> V)
    (body : nat -> S -> S * result unit) :
  (forall i s s', body i s = (s', Ok tt) -> view s' = update_nth i f (view s)) ->
  forall n start s s',
    for_each body (seq start n) s = (s', Ok tt) ->
    view s' = firstn start (view s) ++ map f (firstn n (skipn start (view s)))
              ++ skipn (start + n) (view s).
Proof.
  intros Hb. induction n as [|n IH]; intros start s s'; simpl.
  - intros [= <-]. rewrite Nat.add_0_r. simpl. symmetry. apply firstn_skipn.
  - destruct (body start s) as [s1 [[]|ex]] eqn:E; [|discriminate].
    intros Hrest. apply Hb in E.
    rewrite (IH _ _ _ Hrest), E. apply update_nth_sweep.
Qed.

Lemma for_each_all {S V : Type} (view : S -> list V) (f : V -> V)
    (body : nat -> S -> S * result unit) (s s' : S) :
  (forall i s s', body i s = (s', Ok tt) -> view s' = update_nth i f (view s)) ->
  for_each body (seq 0 (length (view s))) s = (s', Ok tt) ->
  view s' = map f (view s).
Proof.
  intros Hb H. rewrite (for_each_pointwise view f body Hb _ _ _ _ H). simpl.
  rewrite firstn_all, skipn_all, app_nil_r. reflexivity.
Qed.

(** A loop completes when its body does and keeps what it needs to. *)
Lemma for_each_ok {S A : Type} (P : S -> Prop) (body : A -> S -> S * result unit)
    (l : list A) :
  (forall a s, P s -> snd (body a s) = Ok tt /\ P (fst (body a s))) ->
  forall s, P s -> snd (for_each body l s) = Ok tt /\ P (fst (for_each body l s)).
Proof.
  intros Hb. induction l as [|a l IH]; intros s Hs; simpl; [auto|].
  destruct (Hb a s Hs) as [H1 H2].
  destruct (body a s) as [s1 [[]|ex]]; simpl in *; [auto|discriminate].
Qed.

Lemma for_each_noop {S A : Type} (body : A -> S -> S * result unit) (l : list A) (s : S) :
  (forall a, In a l -> body a s = (s, Ok tt)) -> for_each body l s = (s, Ok tt).
Proof.
  induction l as [|a l IH]; intros H; simpl; [reflexivity|].
  rewrite (H a (or_introl eq_refl)). apply IH. intros; apply H; right; assumption.
Qed.

(** A migration changes loads only. *)
Lemma heal_overload_frame (e : SelfHealingEngine) (i : nat) :
  let e' := fst (_heal_overload e i) in
  map unload (datacenters (orchestrator e')) = map unload (datacenters (orchestrator e)) /\
  services (orchestrator e') = services (orchestrator e).
Proof.
  destruct (heal_overload_cases e i) as [->|(dc & j & tgt & amount & _ & _ & _ & _ & _ & ->)];
    [auto|]. simpl.
  rewrite !(map_update_nth_same unload) by reflexivity. auto.
Qed.

Lemma unload_fields (dcs dcs' : list DataCenter) :
  map unload dcs' = map unload dcs ->
  map dc_id dcs' = map dc_id dcs /\ map capacity dcs' = map capacity dcs.
Proof.
  intros H.
  assert (Hi : forall l, map dc_id l = map dc_id (map unload l))
    by (intros; rewrite map_map; reflexivity).
  assert (Hc : forall l, map capacity l = map capacity (map unload l))
    by (intros; rewrite map_map; reflexivity).
  rewrite (Hi dcs'), (Hc dcs'), H, <- Hi, <- Hc. auto.
Qed.

Lemma heal_datacenter_frame (e : SelfHealingEngine) (i : nat) :
  let e' := fst (_heal_datacenter e i) in
  map dc_id (datacenters (orchestrator e')) = map dc_id (datacenters (orchestrator e)) /\
  map capacity (datacenters (orchestrator e')) = map capacity (datacenters (orchestrator e)) /\
  services (orchestrator e') = services (orchestrator e).
Proof.
  simpl. rewrite !map_update_nth_same by reflexivity. auto.
Qed.

Lemma other_datacenters_nonempty (dcs : list DataCenter) (i : nat) (dc : DataCenter) :
  NoDup (map dc_id dcs) -> (2 <= length (map dc_id dcs))%nat ->
  nth_error dcs i = Some dc -> other_datacenters dcs dc <> [].
Proof.
  intros Hnd Hlen Hi. rewrite length_map in Hlen.
  set (j := if Nat.eqb i 0 then 1%nat else 0%nat).
  assert (Hij : i <> j) by (unfold j; destruct (Nat.eqb_spec i 0); lia).
  assert (Hj : (j < length dcs)%nat) by (unfold j; destruct (Nat.eqb i 0); lia).
  destruct (nth_error dcs j) as [d|] eqn:Ed; [|apply nth_error_None in Ed; lia].
  assert (Hin : In (j, d) (other_datacenters dcs dc)).
  { unfold other_datacenters. apply filter_In. split; [apply In_enumerate; exact Ed|].
    simpl. destruct (String.eqb_spec (dc_id d) (dc_id dc)) as [E|]; [|reflexivity].
    exfalso. apply Hij.
    apply (proj1 (NoDup_nth_error (map dc_id dcs)) Hnd).
    - rewrite length_map. apply nth_error_Some. congruence.
    - rewrite !nth_error_map, Hi, Ed. simpl. congruence. }
  intros Hnil. rewrite Hnil in Hin. contradiction.
Qed.

Lemma healable_in (e : SelfHealingEngine) (dc : DataCenter) :
  healable e -> In dc (datacenters (orchestrator e)) ->
  capacity dc <> 0 /\ capacity_in_range dc /\ 0 <= current_load dc < 2 ^ 1023.
Proof.
  intros (_ & _ & Hcap & Hnn & Htot) Hin.
  rewrite Forall_forall in Hcap.
  destruct (Hcap (capacity dc) (in_map _ _ _ Hin)) as [Hc0 Hcr].
  pose proof (sumZ_bound _ (current_load dc) Hnn (in_map _ _ _ Hin)) as Hb.
  unfold total_load in Htot. unfold capacity_in_range. repeat split; try assumption; lia.
Qed.

Lemma migration_amount_ok (load : Z) :
  Z.abs load < 2 ^ 1023 -> exists amount, migration_amount load = Ok amount.
Proof.
  intros H. unfold migration_amount. rewrite (Float64Facts.of_int_ok _ H).
  eexists; reflexivity.
Qed.

Lemma overloaded_ok (dc : DataCenter) :
  capacity_in_range dc ->
  overloaded dc
  = Ok (Qltb (Float64.mul (Float64.round64 (inject_Z (capacity dc))) lit_0_95)
             (inject_Z (current_load dc))).
Proof.
  intros H. unfold overloaded. rewrite (Float64Facts.of_int_ok _ H). reflexivity.
Qed.

Lemma heal_overload_ok (e : SelfHealingEngine) (i : nat) (dc : DataCenter) :
  healable e -> nth_error (datacenters (orchestrator e)) i = Some dc ->
  snd (_heal_overload e i) = Ok tt.
Proof.
  intros He Hi. unfold _heal_overload. rewrite Hi.
  destruct (py_min_ok (fun p : nat * DataCenter => ratio (snd p))
              (other_datacenters (datacenters (orchestrator e)) dc)) as [[j tgt] ->].
  - destruct He as (Hnd & Hlen & _). eapply other_datacenters_nonempty; eauto.
  - intros [j d] Hin. apply other_datacenters_nth in Hin. destruct Hin as [Hj _].
    apply nth_error_In in Hj. destruct (healable_in e d He Hj) as (H0 & _ & Hl).
    simpl. apply ratio_defined_ok. split; [exact H0|lia].
  - apply nth_error_In in Hi. destruct (healable_in e dc He Hi) as (_ & _ & Hl).
    destruct (migration_amount_ok (current_load dc)) as [amount ->]; [lia|].
    reflexivity.
Qed.

Lemma heal_overload_healable (e : SelfHealingEngine) (i : nat) :
  healable e -> healable (fst (_heal_overload e i)).
Proof.
  intros He. pose proof He as (Hnd & Hlen & Hcap & Hnn & Htot).
  destruct (heal_overload_frame e i) as [Hf _].
  apply unload_fields in Hf. destruct Hf as [Hid Hc].
  unfold healable. rewrite Hid, Hc, heal_overload_total.
  repeat split; try assumption.
  apply loads_nonneg_loads, heal_overload_nonneg, loads_nonneg_loads, Hnn.
Qed.

Lemma heal_datacenter_healable (e : SelfHealingEngine) (i : nat) :
  healable e -> healable (fst (_heal_datacenter e i)).
Proof.
  intros (Hnd & Hlen & Hcap & Hnn & Htot).
  destruct (heal_datacenter_frame e i) as (Hid & Hc & _).
  unfold healable, total_load. rewrite Hid, Hc, heal_datacenter_loads.
  repeat split; assumption.
Qed.

(** On a healable registry the body of the first loop returns, and leaves a
    healable registry. *)
Lemma check_datacenter_ok (i : nat) (e : SelfHealingEngine) :
  healable e ->
  snd (check_datacenter i e) = Ok tt /\ healable (fst (check_datacenter i e)).
Proof.
  intros He. unfold check_datacenter.
  destruct (nth_error (datacenters (orchestrator e)) i) as [dc|] eqn:Hi; [|auto].
  pose proof (nth_error_In _ _ Hi) as Hin.
  destruct (healable_in e dc He Hin) as (_ & Hr & _).
  rewrite (overloaded_ok dc Hr).
  destruct (Qltb _ _).
  - pose proof (heal_overload_ok e i dc He Hi) as Hok.
    pose proof (heal_overload_healable e i He) as He1.
    destruct (_heal_overload e i) as [e1 r]. simpl in *. subst r.
    destruct (nth_error (datacenters (orchestrator e1)) i) as [dc1|]; [|auto].
    destruct (RegionStatus_eqb (status dc1) HEALTHY); [auto|].
    split; [reflexivity|apply heal_datacenter_healable, He1].
  - rewrite Hi. destruct (RegionStatus_eqb (status dc) HEALTHY); [auto|].
    split; [reflexivity|apply heal_datacenter_healable, He].
Qed.

Lemma check_service_ok (i : nat) (e : SelfHealingEngine) :
  snd (check_service i e) = Ok tt /\
  datacenters (orchestrator (fst (check_service i e))) = datacenters (orchestrator e) /\
  services (orchestrator (fst (check_service i e)))
  = update_nth i recover_if_needed (services (orchestrator e)).
Proof.
  unfold check_service.
  destruct (nth_error (services (orchestrator e)) i) as [s|] eqn:Hi.
  - destruct (Qltb (health s) (1 # 2)) eqn:E; simpl.
    + repeat split. apply update_nth_ext.
      intros x Hx. rewrite Hi in Hx. inversion Hx; subst.
      unfold recover_if_needed. rewrite E. reflexivity.
    + repeat split. symmetry. apply update_nth_id.
      intros x Hx. rewrite Hi in Hx. inversion Hx; subst.
      unfold recover_if_needed. rewrite E. reflexivity.
  - simpl. repeat split. symmetry. apply update_nth_id.
    intros x Hx. rewrite Hi in Hx. discriminate.
Qed.

Lemma for_each_app {S A : Type} (body : A -> S -> S * result unit) (l1 l2 : list A) (s : S) :
  for_each body (l1 ++ l2) s
  = match for_each body l1 s with
    | (s', Ok _) => for_each body l2 s'
    | (s', Raise ex) => (s', Raise ex)
    end.
Proof.
  revert s; induction l1 as [|a l1 IH]; intros s; simpl; [reflexivity|].
  destruct (body a s) as [s1 [[]|ex]]; [apply IH|reflexivity].
Qed.

Lemma unload_recover (dc : DataCenter) :
  unload (recover_datacenter dc) = recover_datacenter (unload dc).
Proof. reflexivity. Qed.

(** Seen without the loads, the body of the first loop recovers the pool at
    its position when that pool is not healthy, and does nothing else. *)
Lemma check_datacenter_view (i : nat) (e e' : SelfHealingEngine) :
  check_datacenter i e = (e', Ok tt) ->
  map unload (datacenters (orchestrator e'))
  = update_nth i heal_if_needed (map unload (datacenters (orchestrator e))) /\
  services (orchestrator e') = services (orchestrator e).
Proof.
  unfold check_datacenter.
  destruct (nth_error (datacenters (orchestrator e)) i) as [dc|] eqn:Hi.
  2:{ intros [= <-]. split; [|reflexivity]. symmetry. apply update_nth_id.
      intros x Hx. rewrite nth_error_map, Hi in Hx. discriminate. }
  destruct (overloaded dc) as [b|]; [|discriminate].
  assert (Hstep : exists e1,
             (if b then _heal_overload e i else (e, Ok tt)) = (e1, snd (if b then _heal_overload e i else (e, Ok tt))) /\
             map unload (datacenters (orchestrator e1)) = map unload (datacenters (orchestrator e)) /\
             services (orchestrator e1) = services (orchestrator e)).
  { destruct b.
    - exists (fst (_heal_overload e i)). split; [destruct (_heal_overload e i); reflexivity|].
      apply heal_overload_frame.
    - exists e. auto. }
  destruct Hstep as (e1 & Hr & Hu & Hs). rewrite Hr.
  destruct (snd _) as [[]|]; [|discriminate].
  rewrite <- Hu, <- Hs.
  destruct (nth_error (datacenters (orchestrator e1)) i) as [dc1|] eqn:Hi1.
  2:{ intros [= <-]. split; [|reflexivity]. symmetry. apply update_nth_id.
      intros x Hx. rewrite nth_error_map, Hi1 in Hx. discriminate. }
  destruct (RegionStatus_eqb (status dc1) HEALTHY) eqn:Est.
  - intros [= <-]. split; [|reflexivity]. symmetry. apply update_nth_id.
    intros x Hx. rewrite nth_error_map, Hi1 in Hx. inversion Hx; subst.
    unfold heal_if_needed. simpl. rewrite Est. reflexivity.
  - intros [= <-]. simpl. split; [|reflexivity].
    rewrite (map_update_nth unload recover_datacenter recover_datacenter)
      by apply unload_recover.
    apply update_nth_ext.
    intros x Hx. rewrite nth_error_map, Hi1 in Hx. inversion Hx; subst.
    unfold heal_if_needed. simpl. rewrite Est. reflexivity.
Qed.

Lemma datacenter_loop (e : SelfHealingEngine) :
  healable e ->
  exists e1,
    for_each check_datacenter (seq 0 (length (datacenters (orchestrator e)))) e = (e1, Ok tt) /\
    healable e1 /\
    map unload (datacenters (orchestrator e1))
    = map heal_if_needed (map unload (datacenters (orchestrator e))) /\
    services (orchestrator e1) = services (orchestrator e).
Proof.
  intros He.
  destruct (for_each_ok healable check_datacenter
              (seq 0 (length (datacenters (orchestrator e))))
              (fun a s Hs => check_datacenter_ok a s Hs) e He) as [Hok He1].
  destruct (for_each check_datacenter _ e) as [e1 r] eqn:Hloop. simpl in *. subst r.
  exists e1. split; [reflexivity|]. split; [exact He1|]. split.
  - apply (for_each_all (fun s => map unload (datacenters (orchestrator s)))
             heal_if_needed check_datacenter).
    + intros i s s' H. apply (check_datacenter_view i s s' H).
    + rewrite length_map. exact Hloop.
  - pose proof (for_each_invariant
                  (fun s => services (orchestrator s) = services (orchestrator e))
                  check_datacenter (seq 0 (length (datacenters (orchestrator e)))) e) as H.
    rewrite Hloop in H. apply H; [|reflexivity].
    intros a s Hs. rewrite <- Hs.
    destruct (check_datacenter_cases a s) as [->|[->|[->| ->]]]; simpl; try reflexivity;
      apply heal_overload_frame.
Qed.

Lemma service_loop (e : SelfHealingEngine) :
  exists e2,
    for_each check_service (seq 0 (length (services (orchestrator e)))) e = (e2, Ok tt) /\
    datacenters (orchestrator e2) = datacenters (orchestrator e) /\
    services (orchestrator e2) = map recover_if_needed (services (orchestrator e)).
Proof.
  destruct (for_each_ok
              (fun s => datacenters (orchestrator s) = datacenters (orchestrator e))
              check_service (seq 0 (length (services (orchestrator e))))) with (s := e)
    as [Hok Hd]; [|reflexivity|].
  { intros a s Hs. destruct (check_service_ok a s) as (H1 & H2 & _).
    split; [exact H1|congruence]. }
  destruct (for_each check_service _ e) as [e2 r] eqn:Hloop. simpl in *. subst r.
  exists e2. split; [reflexivity|]. split; [exact Hd|].
  apply (for_each_all (fun s => services (orchestrator s))
           recover_if_needed check_service); [|exact Hloop].
  intros i s s' H. destruct (check_service_ok i s) as (_ & _ & H3).
  rewrite H in H3. exact H3.
Qed.

(** What a monitor cycle does on a healable registry. *)
Lemma monitor_spec (e : SelfHealingEngine) :
  healable e ->
  exists e',
    monitor_and_heal e = (e', Ok tt) /\ healable e' /\
    map unload (datacenters (orchestrator e'))
    = map heal_if_needed (map unload (datacenters (orchestrator e))) /\
    services (orchestrator e') = map recover_if_needed (services (orchestrator e)).
Proof.
  intros He. unfold monitor_and_heal.
  destruct (datacenter_loop e He) as (e1 & -> & He1 & Hu & Hs).
  destruct (service_loop e1) as (e2 & -> & Hd & Hs2).
  exists e2. split; [reflexivity|]. split; [|split].
  - destruct He1 as (H1 & H2 & H3 & H4 & H5).
    unfold healable, total_load, loads in *. rewrite Hd. auto.
  - rewrite Hd. exact Hu.
  - rewrite Hs2, Hs. reflexivity.
Qed.

Lemma monitor_quiet (e : SelfHealingEngine) :
  quiet e -> monitor_and_heal e = (e, Ok tt).
Proof.
  intros [Hd Hs]. rewrite Forall_forall in Hd, Hs. unfold monitor_and_heal.
  rewrite for_each_noop.
  - apply for_each_noop. intros i _. unfold check_service.
    destruct (nth_error _ i) as [s|] eqn:Hi; [|reflexivity].
    rewrite (Hs s (nth_error_In _ _ Hi)). reflexivity.
  - intros i _. unfold check_datacenter.
    destruct (nth_error _ i) as [dc|] eqn:Hi; [|reflexivity].
    destruct (Hd dc (nth_error_In _ _ Hi)) as [-> Hst].
    rewrite Hi, Hst. reflexivity.
Qed.

Lemma cycles_healable (n : nat) :
  forall e, healable e -> healable (cycles n e).
Proof.
  induction n as [|n IH]; intros e He; simpl; [exact He|].
  apply IH. destruct (monitor_spec e He) as (e' & -> & He' & _). exact He'.
Qed.

Lemma two_pools_healable : healable two_pools.
Proof.
  unfold healable. simpl. repeat split.
  - repeat constructor; simpl; intuition discriminate.
  - lia.
  - repeat constructor; try discriminate.
  - repeat constructor; discriminate.
Defined.

(** What the first loop has left untouched when it reaches position [i]. *)
Lemma prefix_frame (e ei : SelfHealingEngine) (i : nat) :
  (i <= length (datacenters (orchestrator e)))%nat ->
  for_each check_datacenter (seq 0 i) e = (ei, Ok tt) ->
  services (orchestrator ei) = services (orchestrator e) /\
  skipn i (map unload (datacenters (orchestrator ei)))
  = skipn i (map unload (datacenters (orchestrator e))).
Proof.
  intros Hi Hpre. split.
  - pose proof (for_each_invariant
                  (fun s => services (orchestrator s) = services (orchestrator e))
                  check_datacenter (seq 0 i) e) as H.
    rewrite Hpre in H. apply H; [|reflexivity].
    intros a s Hs. rewrite <- Hs.
    destruct (check_datacenter_cases a s) as [->|[->|[->| ->]]]; simpl; try reflexivity;
      apply heal_overload_frame.
  - rewrite (for_each_pointwise (fun s => map unload (datacenters (orchestrator s)))
               heal_if_needed check_datacenter
               (fun i s s' H => proj1 (check_datacenter_view i s s' H)) _ _ _ _ Hpre).
    simpl. rewrite skipn_app, length_map, length_firstn.
    rewrite length_map.
    replace (Nat.min i (length (datacenters (orchestrator e)))) with i by lia.
    rewrite skipn_all2 by (rewrite length_map, length_firstn, length_map; lia).
    rewrite Nat.sub_diag. reflexivity.
Qed.

(** ** C9: errors in the monitor cycle *)

Lemma check_datacenter_raise (i : nat) (e : SelfHealingEngine) (ex : exn) :
  snd (check_datacenter i e) = Raise ex -> fst (check_datacenter i e) = e.
Proof.
  unfold check_datacenter.
  destruct (nth_error (datacenters (orchestrator e)) i) as [dc|]; [|discriminate].
  destruct (overloaded dc) as [[|]|]; [| |reflexivity].
  - destruct (heal_overload_cases e i) as [H|(? & ? & ? & ? & _ & _ & _ & _ & _ & H)].
    + destruct (_heal_overload e i) as [e1 [[]|ex1]]; simpl in *; [|auto].
      subst e1. destruct (nth_error _ i) as [dc1|]; [|discriminate].
      destruct (RegionStatus_eqb _ _); discriminate.
    + rewrite H. destruct (nth_error _ i) as [dc1|]; [|discriminate].
      destruct (RegionStatus_eqb _ _); discriminate.
  - destruct (nth_error _ i) as [dc1|]; [|discriminate].
    destruct (RegionStatus_eqb _ _); discriminate.
Qed.

(** C9 (as the code has it).  On a healable registry (at least two pools
    with distinct ids, capacities that are not zero, loads that are not
    negative, all within the range of a float) a monitor cycle returns
    without an exception, and so does every later cycle.  The code contains
    no error handling: when the check of the pool at position [i] raises,
    the exception leaves [monitor_and_heal] at once, with the registry as
    the pools before [i] left it; the pools from [i] on and all instances
    are not processed. *)
Theorem monitor_cycle_errors (e : SelfHealingEngine) :
  (healable e -> forall n, snd (monitor_and_heal (cycles n e)) = Ok tt) /\
  (forall i ei ex,
      (i < length (datacenters (orchestrator e)))%nat ->
      for_each check_datacenter (seq 0 i) e = (ei, Ok tt) ->
      snd (check_datacenter i ei) = Raise ex ->
      monitor_and_heal e = (ei, Raise ex) /\
      services (orchestrator ei) = services (orchestrator e) /\
      skipn i (map unload (datacenters (orchestrator ei)))
      = skipn i (map unload (datacenters (orchestrator e)))).
Proof.
  split.
  - intros He n.
    destruct (monitor_spec (cycles n e) (cycles_healable n e He)) as (e' & -> & _).
    reflexivity.
  - intros i ei ex Hi Hpre Hraise. split; [|apply (prefix_frame e ei i); [lia|exact Hpre]].
    unfold monitor_and_heal.
    replace (length (datacenters (orchestrator e)))
      with (i + S (length (datacenters (orchestrator e)) - S i))%nat by lia.
    rewrite seq_app, for_each_app, Hpre. simpl.
    pose proof (check_datacenter_raise i ei ex Hraise) as Hst.
    destruct (check_datacenter i ei) as [e1 r]. simpl in *. subst. reflexivity.
Qed.

Lemma monitor_cycle_errors_witness :
  healable two_pools /\ snd (monitor_and_heal (cycles 3%nat two_pools)) = Ok tt.
Proof.
  split; [exact two_pools_healable|].
  exact (proj1 (monitor_cycle_errors two_pools) two_pools_healable 3%nat).
Defined.

(** A registry of one overloaded pool: the migration finds no other pool,
    [min] raises [ValueError], and the cycle ends there; the pool is still
    degraded and the unhealthy instance has not been looked at.  And a
    registry of two pools: the ratio of the second, of capacity zero, raises
    [ZeroDivisionError] while the first is being healed, and the cycle ends
    without having recovered the second pool or the instance. *)
Lemma monitor_errors_escape :
  monitor_and_heal lone_pool = (lone_pool, Raise ValueError) /\
  monitor_and_heal zero_capacity_neighbour
  = (zero_capacity_neighbour, Raise ZeroDivisionError).
Proof. vm_compute. split; reflexivity. Qed.

(** ** C4: healing convergence *)

Lemma heal_if_needed_status (dc : DataCenter) : status (heal_if_needed dc) = HEALTHY.
Proof.
  unfold heal_if_needed.
  destruct (RegionStatus_eqb (status dc) HEALTHY) eqn:E; [|reflexivity].
  apply RegionStatus_eqb_eq. exact E.
Qed.

(** C4 (as the code has it).  On a healable registry the monitor cycle
    returns, and then every pool has status Healthy; a pool that was not
    healthy has its uptime set to 99.9 and a pool that was keeps its uptime;
    every instance whose health was below 0.5 has health 1.0 (with cpu 50 and
    memory 60) and the other instances are unchanged.  A cycle changes
    nothing when it starts from a state in which every pool is healthy and
    at or below 95% of its capacity and no instance has a health below 0.5;
    pools that are healthy but above 95% still have load migrated. *)
Theorem healing_convergence (e : SelfHealingEngine) :
  healable e ->
  exists e',
    monitor_and_heal e = (e', Ok tt) /\
    Forall (fun dc => status dc = HEALTHY) (datacenters (orchestrator e')) /\
    map uptime (datacenters (orchestrator e'))
    = map (fun dc => if RegionStatus_eqb (status dc) HEALTHY then uptime dc else lit_99_9)
          (datacenters (orchestrator e)) /\
    services (orchestrator e') = map recover_if_needed (services (orchestrator e)) /\
    (forall k s, nth_error (services (orchestrator e)) k = Some s ->
                 (health s < 1 # 2)%Q ->
                 exists s', nth_error (services (orchestrator e')) k = Some s' /\
                            health s' = 1%Q) /\
    (quiet e -> e' = e).
Proof.
  intros He. destruct (monitor_spec e He) as (e' & Hrun & _ & Hu & Hs).
  exists e'. split; [exact Hrun|]. split; [|split; [|split; [exact Hs|split]]].
  - rewrite Forall_forall. intros dc' Hin.
    apply (in_map unload) in Hin. rewrite Hu, map_map in Hin.
    apply in_map_iff in Hin. destruct Hin as (dc & Heq & _).
    change (status dc') with (status (unload dc')). rewrite <- Heq.
    apply heal_if_needed_status.
  - transitivity (map uptime (map unload (datacenters (orchestrator e')))).
    + rewrite map_map. reflexivity.
    + rewrite Hu, !map_map. apply map_ext. intros dc.
      unfold heal_if_needed. simpl.
      destruct (RegionStatus_eqb (status dc) HEALTHY); reflexivity.
  - intros k s Hk Hlt. rewrite Hs, nth_error_map, Hk. simpl.
    eexists. split; [reflexivity|].
    unfold recover_if_needed. apply Float64Facts.Qltb_lt in Hlt. rewrite Hlt. reflexivity.
  - intros Hq. rewrite (monitor_quiet e Hq) in Hrun. congruence.
Qed.

Lemma healing_convergence_witness :
  healable two_pools /\
  exists e', monitor_and_heal two_pools = (e', Ok tt) /\
             Forall (fun dc => status dc = HEALTHY) (datacenters (orchestrator e')).
Proof.
  split; [exact two_pools_healable|].
  destruct (healing_convergence two_pools two_pools_healable) as (e' & H1 & H2 & _).
  exists e'. split; assumption.
Defined.

(** Two states on which the cycle does not do what C4 says.  On the lone
    overloaded pool the cycle is cut short by the exception of the
    migration: the pool is still degraded and the instance still has health
    0.1.  On two healthy pools without instances, the first at 96 of 100, the
    cycle returns a different state: the loads are now 77 and 19. *)
Lemma healing_not_convergent :
  (let e' := fst (monitor_and_heal lone_pool) in
   map status (datacenters (orchestrator e')) = [DEGRADED] /\
   map health (services (orchestrator e')) = [1 # 10]%Q) /\
  (map status (datacenters (orchestrator two_pools)) = [HEALTHY; HEALTHY] /\
   services (orchestrator two_pools) = [] /\
   loads two_pools = [96; 0] /\
   loads (fst (monitor_and_heal two_pools)) = [77; 19]).
Proof. vm_compute. repeat split; reflexivity. Qed.

(** ** Loads during a cycle *)

Lemma check_datacenter_loads_invariant (P : list Z -> Prop) (i : nat) (e : SelfHealingEngine) :
  (forall e i, P (loads e) -> P (loads (fst (_heal_overload e i)))) ->
  P (loads e) -> P (loads (fst (check_datacenter i e))).
Proof.
  intros Hov He.
  destruct (check_datacenter_cases i e) as [->|[->|[->| ->]]];
    rewrite ?heal_datacenter_loads; auto.
Qed.

Lemma nth_error_loads (e : SelfHealingEngine) (p : nat) (x : Z) :
  nth_error (loads e) p = Some x <->
  exists d, nth_error (datacenters (orchestrator e)) p = Some d /\ current_load d = x.
Proof.
  unfold loads. rewrite nth_error_map.
  destruct (nth_error (datacenters (orchestrator e)) p) as [d|]; simpl; split.
  - intros [= <-]. eauto.
  - intros (d' & [= <-] & <-). reflexivity.
  - discriminate.
  - intros (d' & H & _). discriminate.
Qed.

(** One migration: only the source loses load, and for loads below [2^52]
    it loses a fifth, rounded down. *)
Lemma heal_overload_loads_step (s : SelfHealingEngine) (j : nat) :
  Forall (fun x => 0 <= x) (loads s) ->
  forall p x,
    nth_error (loads s) p = Some x ->
    exists y,
      nth_error (loads (fst (_heal_overload s j))) p = Some y /\
      (p <> j -> x <= y) /\
      (sumZ (loads s) < 2 ^ 52 -> x - x / 5 <= y).
Proof.
  intros Hnn p x Hp.
  pose proof (sumZ_bound _ x Hnn (nth_error_In _ _ Hp)) as Hx.
  assert (Hfifth : 0 <= x / 5 <= x).
  { split; [apply Z.div_pos; lia|]. apply Z.div_le_upper_bound; lia. }
  destruct (heal_overload_cases s j)
    as [->|(dc & t & tgt & amount & Hj & _ & Ht & Hne & Ham & ->)].
  { exists x. repeat split; [exact Hp|lia|lia]. }
  assert (Htj : t <> j).
  { intros ->. rewrite Hj in Ht. inversion Ht; subst. congruence. }
  assert (Hdc : 0 <= current_load dc <= sumZ (loads s)).
  { apply sumZ_bound; [exact Hnn|]. unfold loads. apply in_map.
    eapply nth_error_In; eauto. }
  pose proof (migration_amount_bounds _ _ (proj1 Hdc) Ham) as Hamt.
  assert (Hexact : sumZ (loads s) < 2 ^ 52 -> amount = current_load dc / 5).
  { intros Hsmall. rewrite migration_amount_exact in Ham by lia. congruence. }
  revert Hexact. generalize (sumZ (loads s) < 2 ^ 52). intros small Hexact.
  apply nth_error_loads in Hp. destruct Hp as (d & Hd & <-).
  unfold loads. cbn [fst orchestrator datacenters set_datacenters].
  rewrite nth_error_map.
  destruct (Nat.eq_dec p t) as [->|Hpt].
  - rewrite nth_error_update_nth_eq, nth_error_update_nth_neq, Hd by congruence.
    simpl. eexists. split; [reflexivity|]. lia.
  - rewrite nth_error_update_nth_neq by congruence.
    destruct (Nat.eq_dec p j) as [->|Hpj].
    + rewrite nth_error_update_nth_eq, Hd. simpl. eexists. split; [reflexivity|].
      split; [congruence|]. intros Hsmall.
      rewrite Hj in Hd. inversion Hd; subst d.
      rewrite (Hexact Hsmall). lia.
    + rewrite nth_error_update_nth_neq, Hd by congruence. simpl.
      eexists. split; [reflexivity|]. lia.
Qed.

Lemma check_datacenter_loads_step (s : SelfHealingEngine) (j : nat) :
  Forall (fun x => 0 <= x) (loads s) ->
  forall p x,
    nth_error (loads s) p = Some x ->
    exists y,
      nth_error (loads (fst (check_datacenter j s))) p = Some y /\
      (p <> j -> x <= y) /\
      (sumZ (loads s) < 2 ^ 52 -> x - x / 5 <= y).
Proof.
  intros Hnn p x Hp.
  pose proof (sumZ_bound _ x Hnn (nth_error_In _ _ Hp)) as Hx.
  assert (Hfifth : 0 <= x / 5 <= x).
  { split; [apply Z.div_pos; lia|]. apply Z.div_le_upper_bound; lia. }
  destruct (check_datacenter_cases j s) as [->|[->|[->| ->]]];
    rewrite ?heal_datacenter_loads.
  - exists x. repeat split; [exact Hp|lia|lia].
  - apply heal_overload_loads_step; assumption.
  - exists x. repeat split; [exact Hp|lia|lia].
  - apply heal_overload_loads_step; assumption.
Qed.

Lemma fifth_monotone (x y : Z) : x <= y -> x - x / 5 <= y - y / 5.
Proof.
  intros H.
  pose proof (Z.div_mod x 5 ltac:(lia)). pose proof (Z.mod_pos_bound x 5 ltac:(lia)).
  pose proof (Z.div_mod y 5 ltac:(lia)). pose proof (Z.mod_pos_bound y 5 ltac:(lia)).
  lia.
Qed.

(** The first loop of the monitor, from position [start] on: the loads keep
    their floor, up to the position the loop stops at. *)
Lemma loop_load_floor (before : list Z) :
  forall n start s,
    Forall (fun x => 0 <= x) (loads s) ->
    sumZ (loads s) = sumZ before ->
    load_floor start before (loads s) ->
    let r := for_each check_datacenter (seq start n) s in
    exists k,
      (start <= k <= start + n)%nat /\
      load_floor k before (loads (fst r)) /\
      (snd r = Ok tt -> k = (start + n)%nat).
Proof.
  induction n as [|n IH]; intros start s Hnn Hsum Hfl; simpl.
  - exists start. repeat split; [lia|lia|exact Hfl|lia].
  - destruct (check_datacenter start s) as [s1 r1] eqn:E.
    assert (Hs1 : s1 = fst (check_datacenter start s)) by (rewrite E; reflexivity).
    destruct r1 as [[]|ex].
    + assert (Hnn1 : Forall (fun x => 0 <= x) (loads s1)).
      { subst s1. apply (check_datacenter_loads_invariant (Forall (fun x => 0 <= x)));
          [|exact Hnn].
        intros e i. rewrite <- !loads_nonneg_loads. apply heal_overload_nonneg. }
      assert (Hsum1 : sumZ (loads s1) = sumZ before).
      { subst s1. apply (check_datacenter_loads_invariant (fun l => sumZ l = sumZ before));
          [|exact Hsum].
        intros e i H. rewrite <- H. apply heal_overload_total. }
      assert (Hfl1 : load_floor (S start) before (loads s1)).
      { intros p x Hp. destruct (Hfl p x Hp) as (y & Hy & Hy1 & Hy2).
        destruct (check_datacenter_loads_step s start Hnn p y Hy) as (y' & Hy' & Hy1' & Hy2').
        rewrite <- Hs1 in Hy'. exists y'. split; [exact Hy'|]. split.
        - intros Hle. specialize (Hy1 ltac:(lia)). specialize (Hy1' ltac:(lia)). lia.
        - intros Hsmall. specialize (Hy2 Hsmall). rewrite Hsum in Hy2'.
          specialize (Hy2' Hsmall).
          destruct (Nat.eq_dec p start) as [->|Hne].
          + specialize (Hy1 ltac:(lia)). pose proof (fifth_monotone x y Hy1). lia.
          + specialize (Hy1' Hne). lia. }
      destruct (IH (S start) s1 Hnn1 Hsum1 Hfl1) as (k & Hk & Hfk & Hok).
      exists k. repeat split; [lia|lia|exact Hfk|]. intros H. rewrite Hok by exact H. lia.
    + pose proof (check_datacenter_raise start s ex) as Hr. rewrite E in Hr.
      simpl in Hr. rewrite Hr by reflexivity.
      exists start. repeat split; [lia|lia|exact Hfl|discriminate].
Qed.

Lemma load_floor_refl (l : list Z) : Forall (fun x => 0 <= x) l -> load_floor 0 l l.
Proof.
  intros Hnn p x Hp. exists x. split; [exact Hp|]. split; [lia|]. intros _.
  pose proof (sumZ_bound _ x Hnn (nth_error_In _ _ Hp)) as Hx.
  assert (0 <= x / 5) by (apply Z.div_pos; lia). lia.
Qed.

Lemma seq_split (l1 l2 : list nat) (j : nat) :
  forall s n,
    seq s n = l1 ++ j :: l2 ->
    (forall p, In p l1 -> (p < j)%nat) /\ (forall p, In p l2 -> (j < p)%nat).
Proof.
  induction l1 as [|a l1 IH]; intros s [|n] H; simpl in H; try discriminate.
  - injection H as <- <-. split; [contradiction|].
    intros p Hp. apply in_seq in Hp. lia.
  - injection H as <- H. destruct (IH _ _ H) as [H1 H2]. split; [|exact H2].
    intros p [<-|Hp]; [|auto].
    assert (Hj : In j (seq (S s) n))
      by (rewrite H; apply in_or_app; right; left; reflexivity).
    apply in_seq in Hj. lia.
Qed.

Lemma enumerate_split {A : Type} (l : list A) (b a : list (nat * A)) (j : nat) (x : A) :
  enumerate l = b ++ (j, x) :: a ->
  (forall p y, In (p, y) b -> (p < j)%nat) /\ (forall p y, In (p, y) a -> (j < p)%nat).
Proof.
  intros H.
  assert (Hs : seq 0 (length l) = map fst b ++ j :: map fst a).
  { rewrite <- (map_fst_combine l (seq 0 (length l))) by apply length_seq.
    fold (enumerate l). rewrite H, map_app. reflexivity. }
  destruct (seq_split _ _ _ _ _ Hs) as [H1 H2]. split; intros p y Hp.
  - apply H1. apply (in_map fst) in Hp. exact Hp.
  - apply H2. apply (in_map fst) in Hp. exact Hp.
Qed.

(** On a healable registry the migration returns, having chosen the first
    pool of least ratio among the pools with another id. *)
Lemma heal_overload_spec (e : SelfHealingEngine) (i : nat) (dc : DataCenter) :
  healable e -> nth_error (datacenters (orchestrator e)) i = Some dc ->
  exists j tgt amount,
    nth_error (datacenters (orchestrator e)) j = Some tgt /\ dc_id tgt <> dc_id dc /\
    (forall p q rq, nth_error (datacenters (orchestrator e)) p = Some q ->
                    dc_id q <> dc_id dc -> ratio q = Ok rq ->
                    exists rt, ratio tgt = Ok rt /\
                               ((rt < rq)%Q \/ ((rt == rq)%Q /\ (j <= p)%nat))) /\
    migration_amount (current_load dc) = Ok amount /\
    _heal_overload e i =
      (mkEngine
         (set_datacenters
            (update_nth j (add_current_load amount)
               (update_nth i (add_current_load (- amount)) (datacenters (orchestrator e))))
            (orchestrator e))
         (healing_actions e + 1), Ok tt).
Proof.
  intros He Hi.
  pose proof (heal_overload_ok e i dc He Hi) as Hok.
  unfold _heal_overload in *. rewrite Hi in *.
  destruct (py_min _ _) as [[j tgt]|] eqn:Hmin; [|discriminate].
  destruct (migration_amount _) as [amount|] eqn:Ham; [|discriminate].
  exists j, tgt, amount.
  destruct (other_datacenters_nth _ _ _ _ (py_min_In _ _ _ Hmin)) as [Hj Hne].
  repeat split; auto.
  intros p q rq Hp Hqne Hrq.
  apply py_min_spec in Hmin. destruct Hmin as (l1 & l2 & kx & Hl & Hkx & H1 & H2).
  simpl in Hkx. exists kx. split; [exact Hkx|].
  assert (Hin : In (p, q) (other_datacenters (datacenters (orchestrator e)) dc)).
  { unfold other_datacenters. apply filter_In. split; [apply In_enumerate; exact Hp|].
    simpl. destruct (String.eqb_spec (dc_id q) (dc_id dc)); [contradiction|reflexivity]. }
  pose proof Hl as Hl'. unfold other_datacenters in Hl'.
  destruct (filter_split _ _ _ _ _ Hl') as (b & a & Henum & <- & <- & _).
  rewrite Hl in Hin. apply in_app_or in Hin.
  destruct Hin as [Hin|[Heq|Hin]].
  - destruct (H1 _ Hin) as (ky & Hky & Hlt). simpl in Hky.
    rewrite Hrq in Hky. inversion Hky; subst. left. exact Hlt.
  - inversion Heq; subst. rewrite Hrq in Hkx. inversion Hkx; subst.
    right. split; [apply Qeq_refl|lia].
  - destruct (H2 _ Hin) as (ky & Hky & Hle). simpl in Hky.
    rewrite Hrq in Hky. inversion Hky; subst.
    destruct (Qle_lt_or_eq _ _ Hle) as [Hlt|Heq]; [left; exact Hlt|].
    right. split; [exact Heq|].
    apply filter_In in Hin. destruct Hin as [Hina _].
    destruct (enumerate_split _ _ _ _ _ Henum) as [_ Hafter].
    specialize (Hafter p q Hina). lia.
Qed.

Lemma overloaded_more (dc dc' : DataCenter) :
  capacity dc' = capacity dc -> current_load dc <= current_load dc' ->
  overloaded dc = Ok true -> overloaded dc' = Ok true.
Proof.
  unfold overloaded. intros -> Hle.
  destruct (Float64.of_int (capacity dc)) as [c|]; simpl; [|discriminate].
  intros [= H]. f_equal. apply Float64Facts.Qltb_lt in H. apply Float64Facts.Qltb_lt.
  eapply Qlt_le_trans; [exact H|]. rewrite <- Zle_Qle. exact Hle.
Qed.

Lemma healable_ratio_defined (e : SelfHealingEngine) (dc : DataCenter) :
  healable e -> In dc (datacenters (orchestrator e)) -> ratio_defined dc.
Proof.
  intros He Hin. destruct (healable_in e dc He Hin) as (H0 & _ & Hl).
  split; [exact H0|lia].
Qed.

Lemma four_pools_healable : healable four_pools.
Proof.
  unfold healable. simpl. repeat split.
  - repeat constructor; simpl; intuition discriminate.
  - lia.
  - repeat constructor; try discriminate.
  - repeat constructor; discriminate.
Defined.

(** ** C6: the migration step *)

(** C6 (as the code has it).  On a healable registry (at least two pools
    with distinct ids, capacities that are not zero, loads that are not
    negative, all within the range of a float), every pool whose load is
    above the binary64 product [capacity * 0.95] when a monitor cycle starts
    is still above it when the loop reaches it (until then it can only have
    received load).  The controller then picks as target, among the pools
    with another id, the first pool in registry order whose binary64 quotient
    [current_load / capacity] is least, takes [int(load * 0.2)], computed in
    binary64, of the load the source has at that moment from the source and
    adds that same amount to the target.  For capacities from 0 to [2^50]
    the comparison [load > capacity * 0.95] is exactly
    [19 * capacity < 20 * load], and for loads below [2^52] the amount is
    exactly the load divided by five, rounded down.  With pool A at load 96
    and capacity 100 and an empty pool B, 19 units go from A to B and the
    load of A becomes 77. *)
Theorem load_migration :
  (forall (e : SelfHealingEngine) (i : nat) (dc : DataCenter),
      healable e ->
      nth_error (datacenters (orchestrator e)) i = Some dc ->
      (Float64.mul (Float64.round64 (inject_Z (capacity dc))) lit_0_95
       < inject_Z (current_load dc))%Q ->
      exists ei src j tgt amount,
        for_each check_datacenter (seq 0 i) e = (ei, Ok tt) /\
        nth_error (datacenters (orchestrator ei)) i = Some src /\
        unload src = unload dc /\ current_load dc <= current_load src /\
        (Float64.mul (Float64.round64 (inject_Z (capacity src))) lit_0_95
         < inject_Z (current_load src))%Q /\
        nth_error (datacenters (orchestrator ei)) j = Some tgt /\
        dc_id tgt <> dc_id src /\
        (forall p q, nth_error (datacenters (orchestrator ei)) p = Some q ->
                     dc_id q <> dc_id src ->
                     (quotient tgt < quotient q)%Q \/
                     ((quotient tgt == quotient q)%Q /\ (j <= p)%nat)) /\
        amount = Float64.to_int
                   (Float64.mul (Float64.round64 (inject_Z (current_load src))) lit_0_2) /\
        (current_load src < 2 ^ 52 -> amount = current_load src / 5) /\
        snd (check_datacenter i ei) = Ok tt /\
        loads (fst (check_datacenter i ei))
        = map current_load
            (update_nth j (add_current_load amount)
               (update_nth i (add_current_load (- amount))
                  (datacenters (orchestrator ei))))) /\
  (forall dc : DataCenter,
      0 <= capacity dc < 2 ^ 50 ->
      ((Float64.mul (Float64.round64 (inject_Z (capacity dc))) lit_0_95
        < inject_Z (current_load dc))%Q
       <-> 19 * capacity dc < 20 * current_load dc)) /\
  (migration_amount 96 = Ok 19 /\
   monitor_and_heal two_pools
   = (fleet_after [pool "a" 100 77 HEALTHY 10; pool "b" 100 19 HEALTHY 20] [] 1, Ok tt)).
Proof.
  split; [|split; [|vm_compute; split; reflexivity]].
  2:{ intros dc Hr.
      assert (Hrange : capacity_in_range dc).
      { unfold capacity_in_range. apply Z.lt_trans with (2 ^ 50); [lia|reflexivity]. }
      pose proof (overloaded_exact dc Hr) as H1. rewrite (overloaded_ok dc Hrange) in H1.
      injection H1 as H1. rewrite <- Float64Facts.Qltb_lt, H1. apply Z.ltb_lt. }
  intros e i dc He Hi Hgt.
  assert (Hov : overloaded dc = Ok true).
  { destruct (healable_in e dc He (nth_error_In _ _ Hi)) as (_ & Hr & _).
    rewrite (overloaded_ok dc Hr). f_equal. apply Float64Facts.Qltb_lt. exact Hgt. }
  assert (Hlen : (i < length (datacenters (orchestrator e)))%nat)
    by (apply nth_error_Some; congruence).
  destruct (for_each_ok healable check_datacenter (seq 0 i)
              (fun a s Hs => check_datacenter_ok a s Hs) e He) as [Hok Hei].
  destruct (for_each check_datacenter (seq 0 i) e) as [ei r] eqn:Hpre.
  simpl in Hok, Hei. subst r.
  destruct (prefix_frame e ei i ltac:(lia) Hpre) as [_ Hskip].
  assert (Hsrc : exists src, nth_error (datacenters (orchestrator ei)) i = Some src /\
                             unload src = unload dc).
  { assert (H : nth_error (skipn i (map unload (datacenters (orchestrator ei)))) 0
                = nth_error (skipn i (map unload (datacenters (orchestrator e)))) 0)
      by (rewrite Hskip; reflexivity).
    rewrite !nth_error_skipn, Nat.add_0_r, !nth_error_map, Hi in H. simpl in H.
    destruct (nth_error (datacenters (orchestrator ei)) i) as [src|]; [|discriminate].
    exists src. split; [reflexivity|]. simpl in H. congruence. }
  destruct Hsrc as (src & Hsi & Hun).
  assert (Hle : current_load dc <= current_load src).
  { destruct He as (_ & _ & _ & Hnn & _).
    destruct (loop_load_floor (loads e) i 0 e Hnn eq_refl (load_floor_refl _ Hnn))
      as (k & _ & Hfl & Hk).
    rewrite Hpre in Hfl, Hk. simpl in Hfl, Hk. rewrite (Hk eq_refl) in Hfl.
    destruct (Hfl i (current_load dc)) as (y & Hy & Hy1 & _).
    { apply nth_error_loads. eauto. }
    apply nth_error_loads in Hy. destruct Hy as (d & Hd & <-).
    rewrite Hsi in Hd. inversion Hd; subst. apply Hy1. lia. }
  assert (Hcap : capacity src = capacity dc)
    by (change (capacity (unload src) = capacity (unload dc)); rewrite Hun; reflexivity).
  pose proof (overloaded_more dc src Hcap Hle Hov) as Hov'.
  destruct (healable_in ei src Hei (nth_error_In _ _ Hsi)) as (_ & Hsr & Hsl).
  destruct (heal_overload_spec ei i src Hei Hsi)
    as (j & tgt & amount & Hj & Hne & Hmin & Ham & Hheal).
  exists ei, src, j, tgt, amount.
  split; [reflexivity|]. split; [exact Hsi|]. split; [exact Hun|]. split; [exact Hle|].
  split.
  { pose proof Hov' as H. rewrite (overloaded_ok src Hsr) in H. injection H as H.
    apply Float64Facts.Qltb_lt. exact H. }
  split; [exact Hj|]. split; [exact Hne|]. split.
  { intros p q Hp Hqne.
    pose proof (ratio_quotient q (healable_ratio_defined ei q Hei (nth_error_In _ _ Hp))) as Hq.
    pose proof (ratio_quotient tgt (healable_ratio_defined ei tgt Hei (nth_error_In _ _ Hj)))
      as Ht.
    destruct (Hmin p q _ Hp Hqne Hq) as (rt & Hrt & H). rewrite Ht in Hrt.
    injection Hrt as <-. exact H. }
  split.
  { unfold migration_amount in Ham.
    rewrite Float64Facts.of_int_ok in Ham by lia. cbn [bind] in Ham. congruence. }
  split.
  { intros Hsmall. rewrite migration_amount_exact in Ham by lia. congruence. }
  unfold check_datacenter. rewrite Hsi, Hov', Hheal.
  cbn [orchestrator datacenters set_datacenters].
  match goal with
  | |- context [match nth_error ?l i with _ => _ end] =>
      destruct (nth_error l i) as [dc1|]; [|split; reflexivity]
  end.
  destruct (RegionStatus_eqb (status dc1) HEALTHY); [split; reflexivity|].
  split; [reflexivity|]. rewrite heal_datacenter_loads. reflexivity.
Qed.

Lemma load_migration_witness :
  healable four_pools /\
  nth_error (datacenters (orchestrator four_pools)) 1 = Some (pool "a" 100 96 HEALTHY 20) /\
  (Float64.mul (Float64.round64 (inject_Z 100)) lit_0_95 < inject_Z 96)%Q /\
  exists ei src j tgt amount,
    for_each check_datacenter (seq 0 1) four_pools = (ei, Ok tt) /\
    src = pool "a" 100 96 HEALTHY 20 /\
    j = 2%nat /\ tgt = pool "c" 200 20 HEALTHY 30 /\ amount = 19 /\
    loads (fst (check_datacenter 1 ei)) = [50; 77; 39; 10].
Proof.
  assert (H : (Float64.mul (Float64.round64 (inject_Z 100)) lit_0_95 < inject_Z 96)%Q)
    by reflexivity.
  split; [exact four_pools_healable|]. split; [reflexivity|]. split; [exact H|].
  destruct (proj1 load_migration four_pools 1%nat (pool "a" 100 96 HEALTHY 20)
              four_pools_healable eq_refl H)
    as (ei & src & j & tgt & amount & H1 & H2 & _ & _ & _ & H3 & Hne & H4 & _ & H5 & _ & H6).
  assert (E : for_each check_datacenter (seq 0 1) four_pools = (four_pools, Ok tt))
    by (vm_compute; reflexivity).
  rewrite E in H1. injection H1 as <-.
  simpl in H2. injection H2 as <-.
  assert (Ha : amount = 19) by (apply H5; vm_compute; reflexivity).
  pose proof (H4 2%nat (pool "c" 200 20 HEALTHY 30) eq_refl ltac:(simpl; discriminate)) as Hc.
  assert (Hj : j = 2%nat /\ tgt = pool "c" 200 20 HEALTHY 30).
  { clear H5 H6 Ha.
    destruct j as [|[|[|[|j]]]]; simpl in H3;
      [| | | |destruct j; discriminate H3]; injection H3 as <-.
    - destruct Hc as [Hc|[Hc _]]; vm_compute in Hc; discriminate Hc.
    - exfalso. apply Hne. reflexivity.
    - split; reflexivity.
    - destruct Hc as [Hc|[_ Hc]]; [vm_compute in Hc; discriminate Hc|lia]. }
  destruct Hj as [-> ->]. subst amount.
  exists four_pools, (pool "a" 100 96 HEALTHY 20), 2%nat, (pool "c" 200 20 HEALTHY 30), 19.
  split; [exact E|]. do 4 (split; [reflexivity|]).
  rewrite H6. vm_compute. reflexivity.
Defined.

(** Four states on which the step is not what C6 says.  A single pool
    above 95%: there is no other pool, [min] raises [ValueError] and nothing
    moves.  An overloaded pool next to a pool of capacity zero: the ratio of
    the latter raises [ZeroDivisionError] and nothing moves.  And a pool with
    load [2^54]: a fifth of it is 3602879701896396.8, but the amount moved is
    [int(load * 0.2)] = 3602879701896397, the product being rounded to the
    nearest binary64 number before it is truncated.  And two candidate
    targets at [(2^60 + 1) / 2^62] and [2^60 / 2^62]: their binary64
    quotients are equal, and the load goes to the first of the two although
    the exact ratio of the second is lower. *)
Lemma migration_not_as_claimed :
  (overloaded (pool "a" 100 96 DEGRADED 10) = Ok true /\
   loads lone_pool = [96] /\
   monitor_and_heal lone_pool = (lone_pool, Raise ValueError)) /\
  (loads zero_capacity_neighbour = [96; 0] /\
   monitor_and_heal zero_capacity_neighbour
   = (zero_capacity_neighbour, Raise ZeroDivisionError)) /\
  (loads huge_pools = [2 ^ 54; 0] /\
   2 ^ 54 / 5 = 3602879701896396 /\
   loads (fst (monitor_and_heal huge_pools))
   = [2 ^ 54 - 3602879701896397; 3602879701896397] /\
   snd (monitor_and_heal huge_pools) = Ok tt) /\
  (loads near_tied_targets = [96; 2 ^ 60 + 1; 2 ^ 60] /\
   2 ^ 60 * 2 ^ 62 < (2 ^ 60 + 1) * 2 ^ 62 /\
   loads (fst (monitor_and_heal near_tied_targets)) = [77; 2 ^ 60 + 20; 2 ^ 60]).
Proof. vm_compute. repeat split; reflexivity. Qed.

(** ** C7: pools above capacity *)

Lemma check_datacenter_capacity (i : nat) (e : SelfHealingEngine) :
  map capacity (datacenters (orchestrator (fst (check_datacenter i e))))
  = map capacity (datacenters (orchestrator e)).
Proof.
  assert (Hov : forall s k, map capacity (datacenters (orchestrator (fst (_heal_overload s k))))
                            = map capacity (datacenters (orchestrator s))).
  { intros s k. destruct (heal_overload_frame s k) as [H _].
    apply unload_fields in H. tauto. }
  assert (Hdc : forall s k, map capacity (datacenters (orchestrator (fst (_heal_datacenter s k))))
                            = map capacity (datacenters (orchestrator s))).
  { intros s k. apply heal_datacenter_frame. }
  destruct (check_datacenter_cases i e) as [->|[->|[->| ->]]];
    rewrite ?Hdc, ?Hov; reflexivity.
Qed.

(** The pools after a monitor cycle, complete or not: same capacities, and
    loads above the floor of the loads before. *)
Lemma monitor_load_floor (e : SelfHealingEngine) :
  Forall (fun x => 0 <= x) (loads e) ->
  let e' := fst (monitor_and_heal e) in
  map capacity (datacenters (orchestrator e')) = map capacity (datacenters (orchestrator e)) /\
  exists k, load_floor k (loads e) (loads e').
Proof.
  intros Hnn. unfold monitor_and_heal.
  destruct (loop_load_floor (loads e) (length (datacenters (orchestrator e))) 0 e
              Hnn eq_refl (load_floor_refl _ Hnn)) as (k & _ & Hfl & _).
  pose proof (for_each_invariant
                (fun s => map capacity (datacenters (orchestrator s))
                          = map capacity (datacenters (orchestrator e)))
                check_datacenter (seq 0 (length (datacenters (orchestrator e)))) e) as Hc.
  destruct (for_each check_datacenter _ e) as [e1 [[]|ex]]; simpl in Hfl, Hc.
  - assert (Hs : datacenters (orchestrator
                     (fst (for_each check_service
                             (seq 0 (length (services (orchestrator e1)))) e1)))
                 = datacenters (orchestrator e1)).
    { apply (for_each_invariant
               (fun s => datacenters (orchestrator s) = datacenters (orchestrator e1)));
        [|reflexivity].
      intros a s H. rewrite check_service_datacenters. exact H. }
    simpl. unfold loads at 2. rewrite Hs.
    split; [|exists k; exact Hfl].
    apply Hc; [|reflexivity]. intros a s H. rewrite check_datacenter_capacity. exact H.
  - simpl. split; [|exists k; exact Hfl].
    apply Hc; [|reflexivity]. intros a s H. rewrite check_datacenter_capacity. exact H.
Qed.

(** C7 (as the code has it).  A monitor cycle takes load from a pool at most
    once, and then a fifth of it, rounded down: on a registry whose loads are
    not negative and sum to less than [2^52], a pool with load [L] before the
    cycle has a load of at least [L - L / 5] after it, whether the cycle
    completed or raised, and its capacity is what it was.  So a pool with
    [L - L / 5] above its capacity is still above its capacity after the
    cycle: nothing bounds the time a pool spends above capacity by one
    cycle. *)
Theorem over_capacity_persists (e : SelfHealingEngine) (j : nat) (dc : DataCenter) :
  loads_nonneg (datacenters (orchestrator e)) ->
  total_load e < 2 ^ 52 ->
  nth_error (datacenters (orchestrator e)) j = Some dc ->
  exists dc',
    nth_error (datacenters (orchestrator (fst (monitor_and_heal e)))) j = Some dc' /\
    capacity dc' = capacity dc /\
    current_load dc - current_load dc / 5 <= current_load dc' /\
    (capacity dc < current_load dc - current_load dc / 5 ->
     capacity dc' < current_load dc').
Proof.
  intros Hnn Htot Hj. apply loads_nonneg_loads in Hnn.
  destruct (monitor_load_floor e Hnn) as [Hcap [k Hfl]].
  destruct (Hfl j (current_load dc)) as (y & Hy & _ & Hy2).
  { apply nth_error_loads. eauto. }
  apply nth_error_loads in Hy. destruct Hy as (dc' & Hdc' & <-).
  exists dc'. split; [exact Hdc'|].
  assert (Hc : capacity dc' = capacity dc).
  { assert (H : nth_error (map capacity (datacenters (orchestrator (fst (monitor_and_heal e))))) j
                = nth_error (map capacity (datacenters (orchestrator e))) j)
      by (rewrite Hcap; reflexivity).
    rewrite !nth_error_map, Hdc', Hj in H. simpl in H. congruence. }
  specialize (Hy2 Htot). split; [exact Hc|]. split; [exact Hy2|]. lia.
Qed.

Lemma over_capacity_persists_witness :
  loads_nonneg (datacenters (orchestrator uneven_pools)) /\
  total_load uneven_pools < 2 ^ 52 /\
  nth_error (datacenters (orchestrator uneven_pools)) 0 = Some (pool "a" 100 200 HEALTHY 10) /\
  exists dc',
    nth_error (datacenters (orchestrator (fst (monitor_and_heal uneven_pools)))) 0 = Some dc' /\
    capacity dc' < current_load dc'.
Proof.
  assert (H1 : loads_nonneg (datacenters (orchestrator uneven_pools))).
  { repeat constructor; discriminate. }
  assert (H2 : total_load uneven_pools < 2 ^ 52) by reflexivity.
  split; [exact H1|]. split; [exact H2|]. split; [reflexivity|].
  destruct (over_capacity_persists uneven_pools 0%nat (pool "a" 100 200 HEALTHY 10)
              H1 H2 eq_refl) as (dc' & Hn & _ & _ & Himp).
  exists dc'. split; [exact Hn|]. apply Himp. reflexivity.
Defined.

(** Pool A, capacity 100, at load 200, next to an empty pool of capacity
    1000: A is above its capacity after one cycle, after two and after three
    (160, 128, 103), and falls below it only in the fourth. *)
Lemma over_capacity_after_three_cycles :
  loads uneven_pools = [200; 0] /\
  loads (cycles 1 uneven_pools) = [160; 40] /\
  loads (cycles 2 uneven_pools) = [128; 72] /\
  loads (cycles 3 uneven_pools) = [103; 97] /\
  loads (cycles 4 uneven_pools) = [83; 117] /\
  map capacity (datacenters (orchestrator (cycles 3 uneven_pools))) = [100; 1000].
Proof. vm_compute. repeat split; reflexivity. Qed.

(** ** Values of the float model and scenarios of the specification *)

(** [96 * 0.2] is [19.200000000000003], [100 * 0.95] is [95.0], and [1 / 3]
    is [0.3333333333333333]. *)
Example float_products :
  (Float64.mul (inject_Z 96) lit_0_2 == 1351079888211149 # 70368744177664)%Q /\
  (Float64.mul (inject_Z 100) lit_0_95 == 95)%Q /\
  Float64.true_div 1 3 = Ok (6004799503160661 # 18014398509481984).
Proof. vm_compute. repeat split; reflexivity. Qed.

(** The largest [int] that converts to a float is [2^1024 - 2^970 - 1]; it
    rounds to the largest finite float, [2^1024 - 2^971]. *)
Example float_conversion_range :
  Float64.of_int (2 ^ 1024 - 2 ^ 970) = Raise OverflowError /\
  Float64.of_int (2 ^ 1024 - 2 ^ 970 - 1) = Ok (inject_Z (2 ^ 1024 - 2 ^ 971)).
Proof. vm_compute. split; reflexivity. Qed.

(** Ties go to the even neighbour, also among the subnormal numbers:
    [2^53 + 1] converts to [2^53], and [1 / 2^1075] is [0.0]. *)
Example float_ties :
  Float64.of_int (2 ^ 53 + 1) = Ok (inject_Z (2 ^ 53)) /\
  Float64.of_int (2 ^ 53 + 3) = Ok (inject_Z (2 ^ 53 + 4)) /\
  (exists x, Float64.true_div 1 (2 ^ 1075) = Ok x /\ (x == 0)%Q).
Proof.
  split; [vm_compute; reflexivity|]. split; [vm_compute; reflexivity|].
  eexists. split; [vm_compute; reflexivity|]. reflexivity.
Qed.

(** Three empty pools of capacity 100: placing three replicas creates one
    instance per pool and brings every load to 1000, ten times the capacity. *)
Example place_three_replicas :
  let r := deploy_service (fun _ => 1700000000) three_pools "svc" 3 in
  snd r = Ok ["svc-a-1700000000"; "svc-b-1700000000"; "svc-c-1700000000"]%string /\
  map current_load (datacenters (fst r)) = [1000; 1000; 1000] /\
  map datacenter_id (services (fst r)) = ["a"; "b"; "c"]%string.
Proof. vm_compute. repeat split; reflexivity. Qed.

(** Without a healthy pool the router returns [None]. *)
Example route_without_healthy_pool :
  route_traffic
    (mkOrchestrator [pool "a" 100 0 DEGRADED 10; pool "b" 100 0 OFFLINE 20] [] 0 0) "eu"
  = Ok None.
Proof. reflexivity. Qed.

(** * Further properties of the orchestrator *)

(** ** Placement: what [deploy_service] changes *)

Lemma slice_to_length {A : Type} (l : list A) (n : Z) :
  length (slice_to l n)
  = if 0 <=? n then Nat.min (Z.to_nat n) (length l)
    else (length l - Z.to_nat (- n))%nat.
Proof.
  unfold slice_to. destruct (0 <=? n); rewrite length_firstn; lia.
Qed.

(** The selection, when it is made: as many pools as the slice of the
    registry has, at distinct positions of the registry. *)
Lemma select_datacenters_shape (dcs : list DataCenter) (replicas : Z)
    (sel : list (nat * DataCenter)) :
  select_datacenters dcs replicas = Ok sel ->
  length sel = length (slice_to dcs replicas) /\
  NoDup (map fst sel) /\
  (forall i dc, In (i, dc) sel -> nth_error dcs i = Some dc).
Proof.
  unfold select_datacenters, sorted.
  destruct (mapM (fun p : nat * DataCenter => ratio (snd p)) (enumerate dcs)) as [ks|] eqn:Hks;
    [|discriminate].
  cbn [bind]. intros [= <-].
  assert (Hlen : length ks = length (enumerate dcs)).
  { symmetry. eapply Forall2_length. apply mapM_inv. exact Hks. }
  set (srt := sort_by_key (combine ks (enumerate dcs))).
  assert (Hperm : Permutation srt (combine ks (enumerate dcs))) by apply sort_by_key_perm.
  assert (Hsl : length (map snd srt) = length dcs).
  { rewrite length_map, (Permutation_length Hperm), length_combine, Hlen, Nat.min_id.
    unfold enumerate. rewrite length_combine, length_seq, Nat.min_id. reflexivity. }
  split; [|split].
  - rewrite !slice_to_length, Hsl. reflexivity.
  - destruct (slice_to_prefix (map snd srt) replicas) as [m ->].
    assert (Hnd : NoDup (map fst (map snd srt))).
    { apply (Permutation_NoDup (l := map fst (map snd (combine ks (enumerate dcs))))).
      - apply Permutation_map, Permutation_map. symmetry. exact Hperm.
      - rewrite map_snd_combine by exact Hlen.
        unfold enumerate. rewrite map_fst_combine by apply length_seq. apply seq_NoDup. }
    rewrite <- (firstn_skipn m (map snd srt)), map_app in Hnd.
    apply NoDup_app_remove_r in Hnd. exact Hnd.
  - intros i dc Hin. destruct (slice_to_prefix (map snd srt) replicas) as [m Hm].
    rewrite Hm in Hin.
    assert (Hin' : In (i, dc) (map snd srt)).
    { rewrite <- (firstn_skipn m (map snd srt)). apply in_or_app. left. exact Hin. }
    apply in_map_iff in Hin'. destruct Hin' as ([k p] & Hp & Hk). simpl in Hp. subst p.
    apply (Permutation_in _ Hperm) in Hk. apply in_combine_r in Hk.
    apply In_enumerate. exact Hk.
Qed.

Lemma place_on_length (sel : list (nat * DataCenter)) :
  forall dcs, length (place_on sel dcs) = length dcs.
Proof.
  unfold place_on. induction sel as [|p sel IH]; intros dcs; simpl; [reflexivity|].
  rewrite IH, update_nth_length. reflexivity.
Qed.

(** Placing on distinct positions adds 1000 at each of them, once. *)
Lemma place_on_nth (sel : list (nat * DataCenter)) :
  NoDup (map fst sel) ->
  forall dcs j,
    nth_error (place_on sel dcs) j
    = option_map (fun dc => if existsb (Nat.eqb j) (map fst sel)
                            then add_current_load 1000 dc else dc)
                 (nth_error dcs j).
Proof.
  unfold place_on. induction sel as [|[i p] sel IH]; intros Hnd dcs j; simpl.
  - destruct (nth_error dcs j); reflexivity.
  - inversion Hnd as [|? ? Hi Hnd']; subst. rewrite (IH Hnd').
    destruct (Nat.eqb_spec j i) as [->|Hne]; simpl.
    + rewrite nth_error_update_nth_eq.
      assert (Hex : existsb (Nat.eqb i) (map fst sel) = false).
      { destruct (existsb (Nat.eqb i) (map fst sel)) eqn:E; [|reflexivity].
        apply existsb_exists in E. destruct E as (x & Hx & Heq).
        apply Nat.eqb_eq in Heq. subst x. contradiction. }
      rewrite Hex. destruct (nth_error dcs i); reflexivity.
    + rewrite nth_error_update_nth_neq by congruence. reflexivity.
Qed.

Lemma place_on_total (sel : list (nat * DataCenter)) :
  forall dcs,
    (forall p, In p sel -> (fst p < length dcs)%nat) ->
    sumZ (map current_load (place_on sel dcs))
    = sumZ (map current_load dcs) + 1000 * Z.of_nat (length sel).
Proof.
  unfold place_on. induction sel as [|[i p] sel IH]; intros dcs Hpos; simpl fold_left.
  - simpl. lia.
  - rewrite IH.
    + destruct (nth_error dcs i) as [dc|] eqn:Hi.
      * rewrite (sumZ_loads_update _ _ _ _ Hi). simpl length. lia.
      * apply nth_error_None in Hi. specialize (Hpos (i, p) (or_introl eq_refl)).
        simpl in Hpos. lia.
    + intros q Hq. rewrite update_nth_length. apply Hpos. right. exact Hq.
Qed.

Lemma deployed_ids_length (clock : nat -> Z) (name : string) (k : nat)
    (sel : list (nat * DataCenter)) :
  length (deployed_ids clock name k sel) = length sel.
Proof.
  unfold deployed_ids. rewrite length_map, length_combine, length_seq. lia.
Qed.

Lemma deploy_service_selected (clock : nat -> Z) (o : MultiCloudOrchestrator) (name : string)
    (replicas : Z) (sel : list (nat * DataCenter)) :
  select_datacenters (datacenters o) replicas = Ok sel ->
  datacenters (fst (deploy_service clock o name replicas)) = place_on sel (datacenters o) /\
  snd (deploy_service clock o name replicas) = Ok (deployed_ids clock name 0 sel).
Proof.
  intros Hsel. unfold deploy_service. rewrite Hsel.
  destruct (deploy_loop_spec clock name sel 0 o []) as [H1 H2].
  destruct (deploy_loop _ _ _ _ _ _) as [o' ids]. simpl in *. rewrite H1, H2. auto.
Qed.

Lemma select_datacenters_ok (dcs : list DataCenter) (replicas : Z) :
  Forall ratio_defined dcs -> exists sel, select_datacenters dcs replicas = Ok sel.
Proof.
  intros Hdef. unfold select_datacenters, sorted.
  destruct (mapM_ok (fun p : nat * DataCenter => ratio (snd p)) (enumerate dcs)) as [ks ->].
  - intros [j d] Hin. apply In_enumerate in Hin. apply ratio_defined_ok.
    rewrite Forall_forall in Hdef. apply Hdef. eapply nth_error_In; eauto.
  - eexists. reflexivity.
Qed.

(** X1.  On a registry whose ratios can be computed, [deploy_service]
    returns as many instance ids as the slice [pools[:replicas]] has
    elements; it adds 1000 to the load of that many pools, at distinct
    positions, changes nothing else in any pool, and the total load rises by
    1000 per instance created. *)
Theorem deploy_service_load (clock : nat -> Z) (o : MultiCloudOrchestrator) (name : string)
    (replicas : Z) :
  Forall ratio_defined (datacenters o) ->
  let r := deploy_service clock o name replicas in
  exists ids positions,
    snd r = Ok ids /\
    length ids = length (slice_to (datacenters o) replicas) /\
    length positions = length ids /\ NoDup positions /\
    (forall j, nth_error (datacenters (fst r)) j
               = option_map (fun dc => if existsb (Nat.eqb j) positions
                                       then add_current_load 1000 dc else dc)
                            (nth_error (datacenters o) j)) /\
    sumZ (map current_load (datacenters (fst r)))
    = sumZ (map current_load (datacenters o)) + 1000 * Z.of_nat (length ids).
Proof.
  intros Hdef r. subst r.
  destruct (select_datacenters_ok (datacenters o) replicas Hdef) as [sel Hsel].
  destruct (select_datacenters_shape _ _ _ Hsel) as (Hlen & Hnd & Hin).
  destruct (deploy_service_selected clock o name replicas sel Hsel) as [Hd Hids].
  exists (deployed_ids clock name 0 sel), (map fst sel).
  rewrite Hd, deployed_ids_length.
  split; [exact Hids|]. split; [exact Hlen|]. split; [apply length_map|].
  split; [exact Hnd|]. split.
  - intros j. apply place_on_nth. exact Hnd.
  - apply place_on_total. intros [i dc] Hp. simpl.
    apply nth_error_Some. rewrite (Hin i dc Hp). discriminate.
Qed.

Lemma deploy_service_load_witness :
  Forall ratio_defined (datacenters three_pools) /\
  exists ids, snd (deploy_service (fun _ => 1700000000) three_pools "svc" 2) = Ok ids /\
              length ids = 2%nat.
Proof.
  assert (H : Forall ratio_defined (datacenters three_pools)).
  { repeat constructor; simpl; try discriminate; reflexivity. }
  split; [exact H|].
  destruct (deploy_service_load (fun _ => 1700000000) three_pools "svc" 2 H)
    as (ids & ps & H1 & H2 & _).
  exists ids. split; [exact H1|]. rewrite H2. reflexivity.
Defined.

(** ** Placement: the instances registered *)

Lemma append_inv_head (p s1 s2 : string) : (p ++ s1 = p ++ s2)%string -> s1 = s2.
Proof. induction p as [|c p IH]; simpl; [auto|]. intros [= H]. auto. Qed.

Lemma has_dash_app (a b : string) : has_dash (a ++ String "-" b) = true.
Proof.
  induction a as [|c a IH]; simpl; [reflexivity|]. rewrite IH. apply orb_true_r.
Qed.

Lemma uint_no_dash (d : Decimal.uint) : has_dash (NilEmpty.string_of_uint d) = false.
Proof. induction d; simpl; auto. Qed.

Lemma str_no_dash (t : Z) : 0 <= t -> has_dash (str t) = false.
Proof.
  intros Ht. unfold str. destruct t as [|p|p]; [reflexivity| |lia].
  cbn [Z.to_int NilZero.string_of_int]. unfold NilZero.string_of_uint.
  destruct (Pos.to_uint p) eqn:E; try reflexivity; rewrite <- E; apply uint_no_dash.
Qed.

(** A string is split in one way only at its last [-]. *)
Lemma split_last_dash (d1 : string) :
  forall d2 s1 s2,
    has_dash s1 = false -> has_dash s2 = false ->
    (d1 ++ String "-" s1 = d2 ++ String "-" s2)%string -> d1 = d2 /\ s1 = s2.
Proof.
  induction d1 as [|c d1 IH]; intros [|c' d2] s1 s2 H1 H2 H; simpl in H.
  - injection H as H. auto.
  - injection H as Hc H. subst s1. rewrite has_dash_app in H1. discriminate.
  - injection H as Hc H. subst s2. rewrite has_dash_app in H2. discriminate.
  - injection H as Hc H. subst c'. destruct (IH d2 s1 s2 H1 H2 H) as [-> ->]. auto.
Qed.

(** Within the same service, and with clock readings that are not negative,
    instance ids differ when the pool ids do. *)
Lemma instance_name_inj (name : string) (dc dc' : DataCenter) (t t' : Z) :
  0 <= t -> 0 <= t' ->
  instance_name name dc t = instance_name name dc' t' -> dc_id dc = dc_id dc'.
Proof.
  intros Ht Ht' H. unfold instance_name in H. apply append_inv_head in H.
  simpl in H. injection H as H.
  apply split_last_dash in H; [tauto|apply str_no_dash; assumption..].
Qed.

Lemma deployed_ids_cons (clock : nat -> Z) (name : string) (k i : nat) (dc : DataCenter)
    (sel : list (nat * DataCenter)) :
  deployed_ids clock name k ((i, dc) :: sel)
  = instance_name name dc (clock k) :: deployed_ids clock name (S k) sel.
Proof. reflexivity. Qed.

Lemma deployed_ids_In (clock : nat -> Z) (name : string) (id : string)
    (sel : list (nat * DataCenter)) :
  forall k, In id (deployed_ids clock name k sel) ->
            exists p t, In p sel /\ id = instance_name name (snd p) (clock t).
Proof.
  induction sel as [|[i dc] sel IH]; intros k; [contradiction|].
  rewrite deployed_ids_cons. intros [<-|H].
  - exists (i, dc), k. split; [left; reflexivity|reflexivity].
  - destruct (IH _ H) as (p & t & Hp & ->). exists p, t. split; [right; exact Hp|reflexivity].
Qed.

Lemma deployed_ids_NoDup (clock : nat -> Z) (name : string) (sel : list (nat * DataCenter)) :
  (forall k, 0 <= clock k) ->
  NoDup (map (fun p => dc_id (snd p)) sel) ->
  forall k, NoDup (deployed_ids clock name k sel).
Proof.
  intros Hclock. induction sel as [|[i dc] sel IH]; intros Hnd k; [constructor|].
  rewrite deployed_ids_cons. simpl in Hnd. inversion Hnd as [|? ? Hdc Hrest]; subst.
  constructor; [|apply IH; exact Hrest].
  intros Hin. apply deployed_ids_In in Hin. destruct Hin as (p & t & Hp & E).
  apply instance_name_inj in E; [|apply Hclock..].
  apply Hdc. rewrite E. apply (in_map (fun p => dc_id (snd p))). exact Hp.
Qed.

(** Pools selected at distinct positions of a registry with distinct ids
    have distinct ids. *)
Lemma selected_ids_NoDup (dcs : list DataCenter) (sel : list (nat * DataCenter)) :
  NoDup (map dc_id dcs) -> NoDup (map fst sel) ->
  (forall i dc, In (i, dc) sel -> nth_error dcs i = Some dc) ->
  NoDup (map (fun p => dc_id (snd p)) sel).
Proof.
  intros Hids. induction sel as [|[i dc] sel IH]; intros Hnd Hin; simpl; [constructor|].
  simpl in Hnd. inversion Hnd as [|? ? Hi Hrest]; subst.
  constructor; [|apply IH; [exact Hrest|intros; apply Hin; right; assumption]].
  intros H. apply in_map_iff in H. destruct H as ([j dc'] & E & Hp). simpl in E.
  apply Hi. apply in_map_iff. exists (j, dc'). split; [|exact Hp]. simpl.
  pose proof (Hin i dc (or_introl eq_refl)) as H1.
  pose proof (Hin j dc' (or_intror Hp)) as H2.
  apply (proj1 (NoDup_nth_error (map dc_id dcs)) Hids).
  - rewrite length_map. apply nth_error_Some. congruence.
  - rewrite !nth_error_map, H1, H2. simpl. congruence.
Qed.

Lemma services_get_set (id : string) (v : ServiceInstance) (d : list ServiceInstance) :
  services_get id (dict_set v d)
  = if String.eqb (instance_id v) id then Some v else services_get id d.
Proof.
  unfold services_get. induction d as [|s r IH]; simpl; [reflexivity|].
  destruct (String.eqb_spec (instance_id s) (instance_id v)) as [E|E]; simpl.
  - destruct (String.eqb_spec (instance_id v) id) as [E1|E1]; [reflexivity|].
    destruct (String.eqb_spec (instance_id s) id) as [E2|E2]; [congruence|reflexivity].
  - rewrite IH.
    destruct (String.eqb_spec (instance_id s) id) as [E2|E2]; [|reflexivity].
    destruct (String.eqb_spec (instance_id v) id) as [E1|E1]; [congruence|reflexivity].
Qed.

Lemma deploy_loop_services_other (clock : nat -> Z) (name id : string)
    (sel : list (nat * DataCenter)) :
  forall k o deployed,
    ~ In id (deployed_ids clock name k sel) ->
    services_get id (services (fst (deploy_loop clock k name sel o deployed)))
    = services_get id (services o).
Proof.
  induction sel as [|[i dc] sel IH]; intros k o deployed Hid; [reflexivity|].
  rewrite deployed_ids_cons in Hid. cbn [deploy_loop].
  rewrite IH by (intros H; apply Hid; right; exact H).
  cbn [services set_datacenters set_services]. rewrite services_get_set.
  cbn [new_instance instance_id].
  destruct (String.eqb_spec (instance_name name dc (clock k)) id) as [E|E]; [|reflexivity].
  exfalso. apply Hid. left. exact E.
Qed.

Lemma deploy_loop_services_fresh (clock : nat -> Z) (name : string)
    (sel : list (nat * DataCenter)) :
  forall k o deployed,
    NoDup (deployed_ids clock name k sel) ->
    Forall2 (fun id p =>
               services_get id (services (fst (deploy_loop clock k name sel o deployed)))
               = Some (new_instance id name (dc_id (snd p))))
            (deployed_ids clock name k sel) sel.
Proof.
  induction sel as [|[i dc] sel IH]; intros k o deployed Hnd; [constructor|].
  rewrite deployed_ids_cons in *. inversion Hnd as [|? ? Hhd Htl]; subst.
  constructor.
  - cbn [deploy_loop]. rewrite deploy_loop_services_other by exact Hhd.
    cbn [services set_datacenters set_services]. rewrite services_get_set.
    cbn [new_instance instance_id snd]. rewrite String.eqb_refl. reflexivity.
  - cbn [deploy_loop]. apply IH. exact Htl.
Qed.

Lemma deploy_loop_totals (clock : nat -> Z) (name : string) (sel : list (nat * DataCenter)) :
  forall k o deployed,
    total_users (fst (deploy_loop clock k name sel o deployed)) = total_users o /\
    global_traffic (fst (deploy_loop clock k name sel o deployed)) = global_traffic o.
Proof.
  induction sel as [|[i dc] sel IH]; intros k o deployed; [auto|].
  cbn [deploy_loop]. destruct (IH (S k)
    (set_datacenters
       (update_nth i (add_current_load 1000)
          (datacenters (set_services
             (dict_set (new_instance (instance_name name dc (clock k)) name (dc_id dc))
                (services o)) o)))
       (set_services
          (dict_set (new_instance (instance_name name dc (clock k)) name (dc_id dc))
             (services o)) o))
    (deployed ++ [instance_name name dc (clock k)])) as [H1 H2].
  rewrite H1, H2. auto.
Qed.

(** What a call of [deploy_service] that has selected [sel] registers. *)
Lemma deploy_service_instances (clock : nat -> Z) (o : MultiCloudOrchestrator)
    (name : string) (replicas : Z) (sel : list (nat * DataCenter)) :
  select_datacenters (datacenters o) replicas = Ok sel ->
  NoDup (map dc_id (datacenters o)) -> (forall k, 0 <= clock k) ->
  let r := deploy_service clock o name replicas in
  let ids := deployed_ids clock name 0 sel in
  snd r = Ok ids /\ NoDup ids /\
  Forall2 (fun id p => services_get id (services (fst r))
                       = Some (new_instance id name (dc_id (snd p)))) ids sel /\
  (forall id, ~ In id ids -> services_get id (services (fst r)) = services_get id (services o)) /\
  total_users (fst r) = total_users o /\ global_traffic (fst r) = global_traffic o.
Proof.
  intros Hsel Hids Hclock r ids. subst r ids.
  destruct (select_datacenters_shape _ _ _ Hsel) as (_ & Hnd & Hin).
  pose proof (deployed_ids_NoDup clock name sel Hclock
                (selected_ids_NoDup _ _ Hids Hnd Hin) 0) as Hnd'.
  destruct (deploy_service_selected clock o name replicas sel Hsel) as [_ Hres].
  split; [exact Hres|]. split; [exact Hnd'|].
  unfold deploy_service. rewrite Hsel.
  pose proof (deploy_loop_services_fresh clock name sel 0 o [] Hnd') as Hfresh.
  pose proof (fun id => deploy_loop_services_other clock name id sel 0 o []) as Hother.
  pose proof (deploy_loop_totals clock name sel 0 o []) as Htot.
  destruct (deploy_loop clock 0 name sel o []) as [o' deployed]. cbn [fst] in *.
  split; [exact Hfresh|]. split; [exact Hother|exact Htot].
Qed.

(** The selection, in the order by quotient and position. *)
Lemma select_datacenters_placed (dcs : list DataCenter) (replicas : Z) :
  Forall ratio_defined dcs ->
  exists sel,
    select_datacenters dcs replicas = Ok sel /\
    (forall i dc j dc',
        In (i, dc) sel -> nth_error dcs j = Some dc' -> ~ In (j, dc') sel ->
        placed_before (i, dc) (j, dc')).
Proof.
  intros Hdef.
  destruct (select_datacenters_by_ratio dcs replicas Hdef)
    as (sel & Hsel & _ & _ & Hin & Hord & _).
  assert (Hq : forall dc, In dc dcs -> ratio dc = Ok (quotient dc)).
  { intros dc H. apply ratio_quotient. rewrite Forall_forall in Hdef. auto. }
  exists sel. split; [exact Hsel|].
  intros i dc j dc' Hi Hj Hnot. unfold placed_before. simpl.
  apply (Hord i dc j dc' _ _ Hi Hj Hnot); apply Hq; eapply nth_error_In; eauto.
Qed.

Lemma Forall2_In_r {A B : Type} (R : A -> B -> Prop) (l : list A) (l' : list B) (y : B) :
  Forall2 R l l' -> In y l' -> exists x, In x l /\ R x y.
Proof.
  induction 1 as [|a b l l' Hab _ IH]; [contradiction|].
  intros [<-|Hy]; [exists a; split; [left; reflexivity|exact Hab]|].
  destruct (IH Hy) as (x & Hx & Hr). exists x. split; [right; exact Hx|exact Hr].
Qed.

Lemma Forall2_In_l {A B : Type} (R : A -> B -> Prop) (l : list A) (l' : list B) (x : A) :
  Forall2 R l l' -> In x l -> exists y, In y l' /\ R x y.
Proof.
  induction 1 as [|a b l l' Hab _ IH]; [contradiction|].
  intros [<-|Hx]; [exists b; split; [left; reflexivity|exact Hab]|].
  destruct (IH Hx) as (y & Hy & Hr). exists y. split; [right; exact Hy|exact Hr].
Qed.

(** X2.  A negative replica count is not rejected: the slice
    [pools[:replicas]] then drops the last [-replicas] pools of the order by
    quotient and position, so [deploy_service(name, -k)], on a registry with
    distinct pool ids and computable ratios and with a clock that is not
    negative, creates an instance on all but [k] of the pools (on none when
    there are at most [k]).  The pools served are at distinct positions and
    each comes before every pool left out (a smaller binary64 quotient
    [current_load / capacity], or the same and an earlier position); each
    gains 1000 units of load and the others are untouched; the ids returned
    are distinct and each is registered with the service name and the id of
    its pool, in the order of the selection; instances under other ids are
    untouched. *)
Theorem deploy_service_negative_replicas (clock : nat -> Z) (o : MultiCloudOrchestrator)
    (name : string) (replicas : Z) :
  Forall ratio_defined (datacenters o) ->
  NoDup (map dc_id (datacenters o)) ->
  (forall k, 0 <= clock k) ->
  replicas < 0 ->
  let r := deploy_service clock o name replicas in
  exists sel ids,
    snd r = Ok ids /\
    length ids = (length (datacenters o) - Z.to_nat (- replicas))%nat /\
    length sel = (length (datacenters o) - Z.to_nat (- replicas))%nat /\
    NoDup (map fst sel) /\
    (forall i dc, In (i, dc) sel -> nth_error (datacenters o) i = Some dc) /\
    (forall i dc j dc',
        In (i, dc) sel -> nth_error (datacenters o) j = Some dc' -> ~ In (j, dc') sel ->
        placed_before (i, dc) (j, dc')) /\
    (forall j, nth_error (datacenters (fst r)) j
               = option_map (fun dc => if existsb (Nat.eqb j) (map fst sel)
                                       then add_current_load 1000 dc else dc)
                            (nth_error (datacenters o) j)) /\
    NoDup ids /\
    Forall2 (fun id p => services_get id (services (fst r))
                         = Some (new_instance id name (dc_id (snd p)))) ids sel /\
    (forall id, ~ In id ids ->
                services_get id (services (fst r)) = services_get id (services o)) /\
    sumZ (map current_load (datacenters (fst r)))
    = sumZ (map current_load (datacenters o))
      + 1000 * Z.of_nat (length (datacenters o) - Z.to_nat (- replicas)).
Proof.
  intros Hdef Hids Hclock Hneg r. subst r.
  destruct (select_datacenters_placed (datacenters o) replicas Hdef) as (sel & Hsel & Hord).
  destruct (select_datacenters_shape _ _ _ Hsel) as (Hlen & Hnd & Hin).
  destruct (deploy_service_selected clock o name replicas sel Hsel) as [Hd _].
  destruct (deploy_service_instances clock o name replicas sel Hsel Hids Hclock)
    as (Hres & Hnd' & Hfresh & Hother & _).
  rewrite slice_to_length in Hlen.
  destruct (Z.leb_spec 0 replicas); [lia|].
  exists sel, (deployed_ids clock name 0 sel).
  split; [exact Hres|]. split; [rewrite deployed_ids_length; exact Hlen|].
  split; [exact Hlen|]. split; [exact Hnd|]. split; [exact Hin|].
  split; [exact Hord|]. split; [|split; [exact Hnd'|split; [exact Hfresh|split; [exact Hother|]]]].
  - intros j. rewrite Hd. apply place_on_nth. exact Hnd.
  - rewrite Hd, <- Hlen. apply place_on_total. intros [i dc] Hp. simpl.
    apply nth_error_Some. rewrite (Hin i dc Hp). discriminate.
Qed.

Lemma deploy_service_negative_replicas_witness :
  Forall ratio_defined (datacenters three_pools) /\
  NoDup (map dc_id (datacenters three_pools)) /\
  (forall k : nat, 0 <= (fun _ : nat => 1700000000) k) /\ -1 < 0 /\
  exists (sel : list (nat * DataCenter)) (ids : list string),
    snd (deploy_service (fun _ => 1700000000) three_pools "svc" (-1)) = Ok ids /\
    length sel = 2%nat /\ NoDup ids /\
    Forall2 (fun id p =>
               services_get id
                 (services (fst (deploy_service (fun _ => 1700000000) three_pools "svc" (-1))))
               = Some (new_instance id "svc" (dc_id (snd p)))) ids sel.
Proof.
  assert (H1 : Forall ratio_defined (datacenters three_pools)).
  { repeat constructor; simpl; try discriminate; reflexivity. }
  assert (H2 : NoDup (map dc_id (datacenters three_pools))).
  { repeat constructor; simpl; intuition discriminate. }
  assert (H3 : forall k : nat, 0 <= (fun _ : nat => 1700000000) k)
    by (intros k H; discriminate H).
  split; [exact H1|]. split; [exact H2|]. split; [exact H3|]. split; [reflexivity|].
  destruct (deploy_service_negative_replicas (fun _ => 1700000000) three_pools "svc" (-1)
              H1 H2 H3 eq_refl)
    as (sel & ids & Hres & _ & Hlen & _ & _ & _ & _ & Hnd & Hreg & _).
  exists sel, ids. split; [exact Hres|]. split; [exact Hlen|]. split; [exact Hnd|exact Hreg].
Defined.

(** X20.  Neither the status nor the capacity of a pool is looked at by
    [deploy_service]: with at least as many replicas as pools (on a registry
    with distinct pool ids and computable ratios, and with a clock that is
    not negative), every pool of the registry, an offline pool or a pool
    already above its capacity included, gains 1000 units of load and
    nothing else of it changes; the call returns as many distinct ids as
    there are pools; for every pool one of these ids is registered with the
    service name and the id of that pool, and every id returned is
    registered that way for some pool; instances under other ids are
    untouched. *)
Theorem deploy_service_everywhere (clock : nat -> Z) (o : MultiCloudOrchestrator)
    (name : string) (replicas : Z) :
  Forall ratio_defined (datacenters o) ->
  NoDup (map dc_id (datacenters o)) ->
  (forall k, 0 <= clock k) ->
  Z.of_nat (length (datacenters o)) <= replicas ->
  let r := deploy_service clock o name replicas in
  datacenters (fst r) = map (add_current_load 1000) (datacenters o) /\
  exists ids,
    snd r = Ok ids /\ length ids = length (datacenters o) /\ NoDup ids /\
    (forall dc, In dc (datacenters o) ->
                exists id, In id ids /\
                           services_get id (services (fst r))
                           = Some (new_instance id name (dc_id dc))) /\
    (forall id, In id ids ->
                exists dc, In dc (datacenters o) /\
                           services_get id (services (fst r))
                           = Some (new_instance id name (dc_id dc))) /\
    (forall id, ~ In id ids ->
                services_get id (services (fst r)) = services_get id (services o)).
Proof.
  intros Hdef Hids Hclock Hrep r. subst r.
  destruct (select_datacenters_ok (datacenters o) replicas Hdef) as [sel Hsel].
  destruct (select_datacenters_shape _ _ _ Hsel) as (Hlen & Hnd & Hin).
  destruct (deploy_service_selected clock o name replicas sel Hsel) as [Hd _].
  destruct (deploy_service_instances clock o name replicas sel Hsel Hids Hclock)
    as (Hres & Hnd' & Hfresh & Hother & _).
  assert (Hall : length sel = length (datacenters o)).
  { rewrite Hlen, slice_to_length.
    replace (0 <=? replicas) with true by (symmetry; apply Z.leb_le; lia).
    lia. }
  assert (Hcover : forall j dc, nth_error (datacenters o) j = Some dc -> In (j, dc) sel).
  { intros j dc Hj.
    assert (Hjin : In j (map fst sel)).
    { apply (NoDup_length_incl Hnd (l' := seq 0 (length (datacenters o)))).
      - rewrite length_seq, length_map. lia.
      - intros i Hi. apply in_map_iff in Hi. destruct Hi as ([i' dc'] & <- & Hp).
        apply in_seq. simpl. split; [lia|].
        apply nth_error_Some. rewrite (Hin i' dc' Hp). discriminate.
      - apply in_seq. split; [lia|]. simpl. apply nth_error_Some. congruence. }
    apply in_map_iff in Hjin. destruct Hjin as ([j' dc'] & E & Hp). simpl in E. subst j'.
    pose proof (Hin j dc' Hp) as H. rewrite Hj in H. injection H as <-. exact Hp. }
  split.
  - rewrite Hd. apply nth_error_ext. intros j.
    rewrite (place_on_nth sel Hnd), nth_error_map.
    destruct (nth_error (datacenters o) j) as [dc|] eqn:Hj; [|reflexivity].
    cbn [option_map].
    replace (existsb (Nat.eqb j) (map fst sel)) with true; [reflexivity|].
    symmetry. apply existsb_exists. exists j. split; [|apply Nat.eqb_refl].
    exact (in_map fst _ _ (Hcover j dc Hj)).
  - exists (deployed_ids clock name 0 sel). split; [exact Hres|].
    split; [rewrite deployed_ids_length; exact Hall|]. split; [exact Hnd'|].
    split; [|split; [|exact Hother]].
    + intros dc Hdc. apply In_nth_error in Hdc. destruct Hdc as [j Hj].
      destruct (Forall2_In_r _ _ _ _ Hfresh (Hcover j dc Hj)) as (id & Hid & Hreg).
      exists id. split; [exact Hid|exact Hreg].
    + intros id Hid.
      destruct (Forall2_In_l _ _ _ _ Hfresh Hid) as ([j dc] & Hp & Hreg).
      exists dc. split; [eapply nth_error_In, Hin, Hp|exact Hreg].
Qed.

Lemma deploy_service_everywhere_witness :
  Forall ratio_defined (datacenters (orchestrator uneven_pools)) /\
  NoDup (map dc_id (datacenters (orchestrator uneven_pools))) /\
  (forall k : nat, 0 <= (fun _ : nat => 1700000000) k) /\
  Z.of_nat (length (datacenters (orchestrator uneven_pools))) <= 3 /\
  datacenters (fst (deploy_service (fun _ => 1700000000) (orchestrator uneven_pools) "svc" 3))
  = [pool "a" 100 1200 HEALTHY 10; pool "b" 1000 1000 HEALTHY 20] /\
  exists id,
    services_get id
      (services (fst (deploy_service (fun _ => 1700000000) (orchestrator uneven_pools) "svc" 3)))
    = Some (new_instance id "svc" "a").
Proof.
  assert (H1 : Forall ratio_defined (datacenters (orchestrator uneven_pools))).
  { repeat constructor; simpl; try discriminate; reflexivity. }
  assert (H2 : NoDup (map dc_id (datacenters (orchestrator uneven_pools)))).
  { repeat constructor; simpl; intuition discriminate. }
  assert (H3 : forall k : nat, 0 <= (fun _ : nat => 1700000000) k)
    by (intros k H; discriminate H).
  assert (H4 : Z.of_nat (length (datacenters (orchestrator uneven_pools))) <= 3)
    by (intro H; discriminate H).
  split; [exact H1|]. split; [exact H2|]. split; [exact H3|]. split; [exact H4|].
  destruct (deploy_service_everywhere (fun _ => 1700000000) (orchestrator uneven_pools)
              "svc" 3 H1 H2 H3 H4) as (Hd & ids & _ & _ & _ & Hreg & _).
  split; [exact Hd|].
  destruct (Hreg (pool "a" 100 200 HEALTHY 10) (or_introl eq_refl)) as (id & _ & Hid).
  exists id. exact Hid.
Defined.

(** ** Placement and scaling: a pool of capacity zero *)

Lemma mapM_raise {A B : Type} (f : A -> result B) (e : exn) (l : list A) :
  (forall a, In a l -> (exists b, f a = Ok b) \/ f a = Raise e) ->
  (exists a, In a l /\ f a = Raise e) ->
  mapM f l = Raise e.
Proof.
  induction l as [|a l IH]; intros Hall (x & Hx & Hfx); simpl; [contradiction|].
  destruct (Hall a (or_introl eq_refl)) as [[b Hb]|Hr].
  - rewrite Hb. cbn [bind]. rewrite IH; [reflexivity| |].
    + intros; apply Hall; right; assumption.
    + destruct Hx as [->|Hx]; [congruence|]. eauto.
  - rewrite Hr. reflexivity.
Qed.

Lemma ratio_zero_capacity (dc : DataCenter) :
  capacity dc = 0 -> ratio dc = Raise ZeroDivisionError.
Proof. unfold ratio, Float64.true_div. intros ->. reflexivity. Qed.

Lemma select_datacenters_zero_capacity (dcs : list DataCenter) (replicas : Z) :
  Forall (fun dc => Z.abs (current_load dc) < 2 ^ 1023) dcs ->
  Exists (fun dc => capacity dc = 0) dcs ->
  select_datacenters dcs replicas = Raise ZeroDivisionError.
Proof.
  intros Hl Hz. unfold select_datacenters, sorted.
  rewrite (mapM_raise _ ZeroDivisionError); [reflexivity| |].
  - intros [j d] Hin. apply In_enumerate, nth_error_In in Hin. simpl.
    destruct (Z.eq_dec (capacity d) 0) as [E|E].
    + right. apply ratio_zero_capacity. exact E.
    + left. apply ratio_defined_ok. split; [exact E|].
      rewrite Forall_forall in Hl. auto.
  - apply Exists_exists in Hz. destruct Hz as (d & Hd & E).
    apply In_nth_error in Hd. destruct Hd as [j Hj].
    exists (j, d). split; [apply In_enumerate; exact Hj|].
    apply ratio_zero_capacity. exact E.
Qed.

(** X3.  A single pool of capacity zero anywhere in the registry makes every
    placement fail: [deploy_service] raises [ZeroDivisionError] for every
    replica count (also 0, since all sort keys are computed first) and leaves
    the registry untouched, and so does [scale_service] whenever it has to
    scale up. *)
Theorem deploy_service_zero_capacity (clock : nat -> Z) (o : MultiCloudOrchestrator)
    (name : string) :
  Forall (fun dc => Z.abs (current_load dc) < 2 ^ 1023) (datacenters o) ->
  Exists (fun dc => capacity dc = 0) (datacenters o) ->
  (forall replicas,
      deploy_service clock o name replicas = (o, Raise ZeroDivisionError)) /\
  (forall target,
      Z.of_nat (instance_count name o) < target ->
      scale_service clock o name target = (o, Raise ZeroDivisionError)).
Proof.
  intros Hl Hz.
  assert (Hd : forall replicas,
             deploy_service clock o name replicas = (o, Raise ZeroDivisionError)).
  { intros replicas. unfold deploy_service.
    rewrite (select_datacenters_zero_capacity _ replicas Hl Hz). reflexivity. }
  split; [exact Hd|].
  intros target Hlt. unfold scale_service. unfold instance_count in Hlt.
  apply Z.ltb_lt in Hlt. rewrite Hlt, Hd. reflexivity.
Qed.

Lemma deploy_service_zero_capacity_witness :
  Forall (fun dc => Z.abs (current_load dc) < 2 ^ 1023)
         (datacenters (orchestrator zero_capacity_neighbour)) /\
  Exists (fun dc => capacity dc = 0) (datacenters (orchestrator zero_capacity_neighbour)) /\
  deploy_service (fun _ => 1700000000) (orchestrator zero_capacity_neighbour) "svc" 0
  = (orchestrator zero_capacity_neighbour, Raise ZeroDivisionError).
Proof.
  assert (H1 : Forall (fun dc => Z.abs (current_load dc) < 2 ^ 1023)
                 (datacenters (orchestrator zero_capacity_neighbour))).
  { repeat constructor. }
  assert (H2 : Exists (fun dc => capacity dc = 0)
                 (datacenters (orchestrator zero_capacity_neighbour))).
  { apply Exists_cons_tl. apply Exists_cons_hd. reflexivity. }
  split; [exact H1|]. split; [exact H2|].
  exact (proj1 (deploy_service_zero_capacity (fun _ => 1700000000)
                  (orchestrator zero_capacity_neighbour) "svc" H1 H2) 0).
Defined.

(** ** Scaling: reaching the target *)

Lemma scale_down_instances (clock : nat -> Z) (o : MultiCloudOrchestrator) (name : string)
    (target : Z) :
  NoDup (map instance_id (services o)) ->
  target < Z.of_nat (instance_count name o) ->
  filter (fun s => String.eqb (service_name s) name)
         (services (fst (scale_service clock o name target)))
  = firstn (Z.to_nat target)
           (filter (fun s => String.eqb (service_name s) name) (services o)).
Proof.
  intros Hnd Hlt. rewrite (scale_down_spec clock o name target Hnd Hlt). simpl.
  set (current := filter (fun s => String.eqb (service_name s) name) (services o)).
  unfold without. rewrite filter_filter.
  rewrite (filter_ext _ (fun a => (String.eqb (service_name a) name) &&
             negb (existsb (fun r => String.eqb (instance_id a) (instance_id r))
                     (skipn (Z.to_nat target) current))))
    by (intros a; apply andb_comm).
  rewrite <- filter_filter. fold current.
  apply without_suffix, filter_NoDup_ids, Hnd.
Qed.

(** X4.  Scaling down is settled in one call: on a registry with distinct
    instance ids, after [scale_service] has scaled a service down to a target
    that is not negative, the service has exactly [target] instances, the
    oldest ones, in their order, no instance of another service has been
    touched, and asking for the same target again changes nothing. *)
Theorem scale_down_settles (clock clock' : nat -> Z) (o : MultiCloudOrchestrator)
    (name : string) (target : Z) :
  NoDup (map instance_id (services o)) ->
  0 <= target < Z.of_nat (instance_count name o) ->
  let o1 := fst (scale_service clock o name target) in
  Z.of_nat (instance_count name o1) = target /\
  filter (fun s => negb (String.eqb (service_name s) name)) (services o1)
  = filter (fun s => negb (String.eqb (service_name s) name)) (services o) /\
  scale_service clock' o1 name target = (o1, Ok tt).
Proof.
  intros Hnd [H0 Hlt] o1.
  pose proof (scale_down_instances clock o name target Hnd Hlt) as Hf. fold o1 in Hf.
  assert (Hcount : Z.of_nat (instance_count name o1) = target).
  { unfold instance_count in *. rewrite Hf, length_firstn. lia. }
  split; [exact Hcount|]. split.
  - subst o1. rewrite (scale_down_spec clock o name target Hnd Hlt). simpl.
    unfold without. rewrite filter_filter.
    apply filter_ext_in. intros a Ha.
    destruct (String.eqb_spec (service_name a) name) as [E|E]; simpl;
      [apply andb_false_r|].
    rewrite andb_true_r. apply negb_true_iff.
    destruct (existsb _ _) eqn:Eex; [|reflexivity].
    apply existsb_exists in Eex. destruct Eex as (x & Hx & Heq).
    apply String.eqb_eq in Heq.
    assert (Hxin : In x (filter (fun s => String.eqb (service_name s) name) (services o))).
    { rewrite <- (firstn_skipn (Z.to_nat target)). apply in_or_app. right. exact Hx. }
    apply filter_In in Hxin. destruct Hxin as [Hxs Hxn]. apply String.eqb_eq in Hxn.
    assert (a = x); [|congruence].
    clear -Hnd Ha Hxs Heq. induction (services o) as [|s l IH]; [contradiction|].
    simpl in Hnd. inversion Hnd as [|? ? Hs Hl]; subst.
    destruct Ha as [->|Ha], Hxs as [->|Hxs]; auto.
    + exfalso. apply Hs. rewrite Heq. apply in_map. exact Hxs.
    + exfalso. apply Hs. rewrite <- Heq. apply in_map. exact Ha.
  - unfold scale_service. unfold instance_count in Hcount. rewrite Hcount.
    rewrite !Z.ltb_irrefl. reflexivity.
Qed.

Lemma scale_down_settles_witness :
  NoDup (map instance_id (services (one_pool 1000 [svc_on_a]))) /\
  0 <= 0 < Z.of_nat (instance_count "svc" (one_pool 1000 [svc_on_a])) /\
  let o1 := fst (scale_service (fun _ => 1700000001) (one_pool 1000 [svc_on_a]) "svc" 0) in
  scale_service (fun _ => 1700000002) o1 "svc" 0 = (o1, Ok tt).
Proof.
  assert (H1 : NoDup (map instance_id (services (one_pool 1000 [svc_on_a])))).
  { repeat constructor. simpl. tauto. }
  assert (H2 : 0 <= 0 < Z.of_nat (instance_count "svc" (one_pool 1000 [svc_on_a]))).
  { split; reflexivity || (intro; discriminate). }
  split; [exact H1|]. split; [exact H2|].
  exact (proj2 (proj2 (scale_down_settles (fun _ => 1700000001) (fun _ => 1700000002)
                         (one_pool 1000 [svc_on_a]) "svc" 0 H1 H2))).
Defined.

(** * Further properties of the self-healing engine *)

(** ** What a monitor cycle never writes *)

Lemma heal_overload_keeps_frame (e : SelfHealingEngine) (i : nat) :
  frame (fst (_heal_overload e i)) = frame e.
Proof.
  destruct (heal_overload_cases e i) as [->|(dc & j & tgt & amount & _ & _ & _ & _ & _ & ->)];
    [reflexivity|].
  unfold frame. simpl. rewrite !(map_update_nth_same pool_identity) by reflexivity.
  reflexivity.
Qed.

Lemma heal_datacenter_keeps_frame (e : SelfHealingEngine) (i : nat) :
  frame (fst (_heal_datacenter e i)) = frame e.
Proof.
  unfold frame. simpl. rewrite !(map_update_nth_same pool_identity) by reflexivity.
  reflexivity.
Qed.

Lemma check_datacenter_keeps_frame (i : nat) (e : SelfHealingEngine) :
  frame (fst (check_datacenter i e)) = frame e.
Proof.
  destruct (check_datacenter_cases i e) as [->|[->|[->| ->]]];
    rewrite ?heal_datacenter_keeps_frame, ?heal_overload_keeps_frame; reflexivity.
Qed.

Lemma check_service_keeps_frame (i : nat) (e : SelfHealingEngine) :
  frame (fst (check_service i e)) = frame e.
Proof.
  unfold check_service. destruct (nth_error _ i) as [s|]; [|reflexivity].
  destruct (Qltb _ _); [|reflexivity].
  unfold frame. simpl. rewrite !(map_update_nth_same instance_identity) by reflexivity.
  reflexivity.
Qed.

Lemma monitor_keeps_frame (e : SelfHealingEngine) :
  frame (fst (monitor_and_heal e)) = frame e.
Proof.
  unfold monitor_and_heal.
  pose proof (for_each_invariant (fun s => frame s = frame e) check_datacenter
                (seq 0 (length (datacenters (orchestrator e)))) e) as H1.
  assert (He1 : frame (fst (for_each check_datacenter
                              (seq 0 (length (datacenters (orchestrator e)))) e)) = frame e).
  { apply H1; [|reflexivity]. intros a s Hs. rewrite check_datacenter_keeps_frame. exact Hs. }
  destruct (for_each check_datacenter _ e) as [e1 [[]|ex]]; simpl in He1; [|exact He1].
  apply (for_each_invariant (fun s => frame s = frame e)); [|exact He1].
  intros a s Hs. rewrite check_service_keeps_frame. exact Hs.
Qed.

(** X5.  Whatever the state and whether the cycles return or raise, no
    number of monitor cycles changes the identity of a pool (id, provider,
    region, country, capacity, latency) or of an instance (id, service name,
    hosting pool, request rate), nor their number and order, nor the user
    and traffic totals: the engine only writes loads, status, uptime, health,
    cpu and memory. *)
Theorem monitor_frame (e : SelfHealingEngine) (n : nat) :
  frame (cycles n e) = frame e /\
  length (datacenters (orchestrator (cycles n e))) = length (datacenters (orchestrator e)) /\
  length (services (orchestrator (cycles n e))) = length (services (orchestrator e)).
Proof.
  assert (H : frame (cycles n e) = frame e).
  { revert e. induction n as [|n IH]; intros e; simpl; [reflexivity|].
    rewrite IH. apply monitor_keeps_frame. }
  split; [exact H|]. unfold frame in H. inversion H as [[Hd Hs Hu Hg]].
  split.
  - rewrite <- (length_map pool_identity), Hd, length_map. reflexivity.
  - rewrite <- (length_map instance_identity), Hs, length_map. reflexivity.
Qed.

(** ** The healing counter *)

Lemma for_each_bounded {S A : Type} (m : S -> Z) (c : Z)
    (body : A -> S -> S * result unit) (l : list A) :
  (forall a s, m s <= m (fst (body a s)) <= m s + c) ->
  forall s, m s <= m (fst (for_each body l s)) <= m s + c * Z.of_nat (length l).
Proof.
  intros Hb. induction l as [|a l IH]; intros s; simpl length; [simpl; lia|].
  cbn [for_each]. pose proof (Hb a s) as Ha.
  destruct (body a s) as [s1 [[]|ex]]; simpl in Ha.
  - specialize (IH s1). lia.
  - simpl. assert (0 <= c) by lia. nia.
Qed.

Lemma heal_overload_counter (e : SelfHealingEngine) (i : nat) :
  healing_actions e <= healing_actions (fst (_heal_overload e i)) <= healing_actions e + 1.
Proof.
  destruct (heal_overload_cases e i) as [->|(dc & j & tgt & amount & _ & _ & _ & _ & _ & ->)];
    simpl; lia.
Qed.

Lemma check_datacenter_counter (i : nat) (e : SelfHealingEngine) :
  healing_actions e <= healing_actions (fst (check_datacenter i e)) <= healing_actions e + 2.
Proof.
  pose proof (heal_overload_counter e i) as H.
  destruct (check_datacenter_cases i e) as [->|[->|[->| ->]]]; simpl; lia.
Qed.

Lemma check_service_counter (i : nat) (e : SelfHealingEngine) :
  healing_actions e <= healing_actions (fst (check_service i e)) <= healing_actions e + 1.
Proof.
  unfold check_service. destruct (nth_error _ i) as [s|]; [|simpl; lia].
  destruct (Qltb _ _); simpl; lia.
Qed.

(** X6.  In every state, and whether the cycle returns or raises, one
    monitor cycle never decreases [healing_actions] and adds at most two per
    pool (one migration, one recovery) and one per instance. *)
Theorem healing_actions_bounds (e : SelfHealingEngine) :
  let e' := fst (monitor_and_heal e) in
  healing_actions e <= healing_actions e' <=
  healing_actions e + 2 * Z.of_nat (length (datacenters (orchestrator e)))
  + Z.of_nat (length (services (orchestrator e))).
Proof.
  unfold monitor_and_heal.
  pose proof (for_each_bounded healing_actions 2 check_datacenter
                (seq 0 (length (datacenters (orchestrator e))))
                (fun a s => check_datacenter_counter a s) e) as H1.
  pose proof (for_each_invariant (fun s => frame s = frame e) check_datacenter
                (seq 0 (length (datacenters (orchestrator e)))) e) as Hf.
  assert (Hfr : frame (fst (for_each check_datacenter
                              (seq 0 (length (datacenters (orchestrator e)))) e)) = frame e).
  { apply Hf; [|reflexivity]. intros a s Hs. rewrite check_datacenter_keeps_frame. exact Hs. }
  clear Hf. rewrite length_seq in H1.
  destruct (for_each check_datacenter _ e) as [e1 [[]|ex]]; cbn [fst] in H1, Hfr; cbn [fst].
  - pose proof (for_each_bounded healing_actions 1 check_service
                  (seq 0 (length (services (orchestrator e1))))
                  (fun a s => check_service_counter a s) e1) as H2.
    rewrite length_seq in H2.
    assert (Hlen : length (services (orchestrator e1)) = length (services (orchestrator e))).
    { unfold frame in Hfr. inversion Hfr as [[Hd Hs Hu Hg]].
      rewrite <- (length_map instance_identity), Hs, length_map. reflexivity. }
    apply (f_equal Z.of_nat) in Hlen. lia.
  - lia.
Qed.

(** ** A cycle without overloaded pools *)

Lemma count_cons {A : Type} (f : A -> bool) (a : A) (l : list A) :
  count f (a :: l) = (if f a then 1 else 0) + count f l.
Proof. unfold count. simpl. destruct (f a); simpl length; lia. Qed.

Lemma update_nth_middle {A : Type} (f : A -> A) (done : list A) (a : A) (todo : list A) :
  update_nth (length done) f (done ++ a :: todo) = done ++ f a :: todo.
Proof. induction done as [|d done IH]; simpl; [reflexivity|]. rewrite IH. reflexivity. Qed.

Lemma nth_error_middle {A : Type} (done : list A) (a : A) (todo : list A) :
  nth_error (done ++ a :: todo) (length done) = Some a.
Proof. induction done as [|d done IH]; simpl; [reflexivity|exact IH]. Qed.

Lemma pool_loop_without_overload (svcs : list ServiceInstance) (u g : Z)
    (todo : list DataCenter) :
  Forall (fun dc => overloaded dc = Ok false) todo ->
  forall (done : list DataCenter) (h : Z),
    for_each check_datacenter (seq (length done) (length todo))
      (mkEngine (mkOrchestrator (done ++ todo) svcs u g) h)
    = (mkEngine (mkOrchestrator (done ++ map heal_if_needed todo) svcs u g)
         (h + count unhealthy todo), Ok tt).
Proof.
  induction 1 as [|dc todo Hdc Htodo IH]; intros done h.
  - simpl. unfold count. simpl. rewrite Z.add_0_r. reflexivity.
  - simpl length. cbn [seq for_each]. unfold check_datacenter at 1. cbn [orchestrator datacenters].
    rewrite nth_error_middle, Hdc. cbn [orchestrator datacenters].
    rewrite nth_error_middle. rewrite count_cons. cbn [map]. unfold heal_if_needed at 1, unhealthy at 1.
    destruct (RegionStatus_eqb (status dc) HEALTHY); cbn [negb].
    + replace (done ++ dc :: todo) with ((done ++ [dc]) ++ todo)
        by (rewrite <- app_assoc; reflexivity).
      replace (S (length done)) with (length (done ++ [dc]))
        by (rewrite length_app; simpl; lia).
      rewrite IH, <- app_assoc. cbn [app]. rewrite ?Z.add_0_l, ?Z.add_assoc. reflexivity.
    + unfold _heal_datacenter. cbn [orchestrator datacenters healing_actions set_datacenters
                                      services total_users global_traffic fst snd].
      rewrite update_nth_middle.
      replace (done ++ recover_datacenter dc :: todo)
        with ((done ++ [recover_datacenter dc]) ++ todo)
        by (rewrite <- app_assoc; reflexivity).
      replace (S (length done)) with (length (done ++ [recover_datacenter dc]))
        by (rewrite length_app; simpl; lia).
      rewrite IH, <- app_assoc. cbn [app]. rewrite ?Z.add_0_l, ?Z.add_assoc. reflexivity.
Qed.

Lemma instance_loop (dcs : list DataCenter) (u g : Z) (todo : list ServiceInstance) :
  forall (done : list ServiceInstance) (h : Z),
    for_each check_service (seq (length done) (length todo))
      (mkEngine (mkOrchestrator dcs (done ++ todo) u g) h)
    = (mkEngine (mkOrchestrator dcs (done ++ map recover_if_needed todo) u g)
         (h + count sick todo), Ok tt).
Proof.
  induction todo as [|s todo IH]; intros done h.
  - simpl. unfold count. simpl. rewrite Z.add_0_r. reflexivity.
  - simpl length. cbn [seq for_each]. unfold check_service at 1. cbn [orchestrator services].
    rewrite nth_error_middle. rewrite count_cons. cbn [map].
    unfold recover_if_needed at 1, sick at 1.
    destruct (Qltb (health s) (1 # 2)).
    + unfold _heal_service. cbn [orchestrator datacenters healing_actions set_services
                                   services total_users global_traffic fst snd].
      rewrite update_nth_middle.
      replace (done ++ recover_service s :: todo)
        with ((done ++ [recover_service s]) ++ todo)
        by (rewrite <- app_assoc; reflexivity).
      replace (S (length done)) with (length (done ++ [recover_service s]))
        by (rewrite length_app; simpl; lia).
      rewrite IH, <- app_assoc. cbn [app]. rewrite ?Z.add_0_l, ?Z.add_assoc. reflexivity.
    + replace (done ++ s :: todo) with ((done ++ [s]) ++ todo)
        by (rewrite <- app_assoc; reflexivity).
      replace (S (length done)) with (length (done ++ [s]))
        by (rewrite length_app; simpl; lia).
      rewrite IH, <- app_assoc. cbn [app]. rewrite ?Z.add_0_l, ?Z.add_assoc. reflexivity.
Qed.

(** X7.  When no pool is above 95% of its capacity, a monitor cycle returns
    for any number of pools (none and one included), moves no load, sets
    every pool that is not healthy to Healthy with uptime 99.9, resets every
    instance whose health is below 0.5, leaves everything else as it was, and
    adds to [healing_actions] exactly the number of pools and instances it
    recovered. *)
Theorem monitor_without_overload (e : SelfHealingEngine) :
  Forall (fun dc => overloaded dc = Ok false) (datacenters (orchestrator e)) ->
  monitor_and_heal e
  = (mkEngine
       (mkOrchestrator (map heal_if_needed (datacenters (orchestrator e)))
                       (map recover_if_needed (services (orchestrator e)))
                       (total_users (orchestrator e)) (global_traffic (orchestrator e)))
       (healing_actions e + count unhealthy (datacenters (orchestrator e))
        + count sick (services (orchestrator e))),
     Ok tt).
Proof.
  destruct e as [[dcs svcs u g] h]. cbn [orchestrator datacenters services total_users
                                         global_traffic healing_actions].
  intros Hov. unfold monitor_and_heal. cbn [orchestrator datacenters].
  pose proof (pool_loop_without_overload svcs u g dcs Hov [] h) as H1.
  cbn [app length] in H1. rewrite H1. cbn [orchestrator services].
  exact (instance_loop (map heal_if_needed dcs) u g svcs [] _).
Qed.

Lemma monitor_without_overload_witness :
  Forall (fun dc => overloaded dc = Ok false)
         (datacenters (orchestrator (fleet [pool "a" 100 95 DEGRADED 10] [sick_instance]))) /\
  monitor_and_heal (fleet [pool "a" 100 95 DEGRADED 10] [sick_instance])
  = (fleet_after [recover_datacenter (pool "a" 100 95 DEGRADED 10)]
                 [recover_service sick_instance] 2, Ok tt).
Proof.
  assert (H : Forall (fun dc => overloaded dc = Ok false)
                (datacenters (orchestrator (fleet [pool "a" 100 95 DEGRADED 10] [sick_instance])))).
  { repeat constructor. }
  split; [exact H|].
  exact (monitor_without_overload (fleet [pool "a" 100 95 DEGRADED 10] [sick_instance]) H).
Defined.

(** ** Recovery is settled by the first cycle *)

Lemma heal_if_needed_idem (dc : DataCenter) :
  heal_if_needed (heal_if_needed dc) = heal_if_needed dc.
Proof.
  unfold heal_if_needed at 1. rewrite heal_if_needed_status. reflexivity.
Qed.

Lemma recover_if_needed_idem (s : ServiceInstance) :
  recover_if_needed (recover_if_needed s) = recover_if_needed s.
Proof.
  unfold recover_if_needed. destruct (Qltb (health s) (1 # 2)) eqn:E; [|rewrite E; reflexivity].
  reflexivity.
Qed.

(** X8.  On a healable registry, everything a monitor cycle writes other
    than loads is settled by the first cycle: after any number [n >= 1] of
    cycles the status and uptime of every pool and all instances are what the
    first cycle made them; later cycles can only move load and count the
    moves. *)
Theorem recovery_settles (e : SelfHealingEngine) (n : nat) :
  healable e -> (1 <= n)%nat ->
  map unload (datacenters (orchestrator (cycles n e)))
  = map unload (datacenters (orchestrator (fst (monitor_and_heal e)))) /\
  services (orchestrator (cycles n e))
  = services (orchestrator (fst (monitor_and_heal e))).
Proof.
  intros He Hn. destruct n as [|n]; [lia|]. clear Hn. simpl.
  destruct (monitor_spec e He) as (e1 & -> & He1 & Hu & Hs). simpl.
  assert (Hfix1 : map heal_if_needed (map unload (datacenters (orchestrator e1)))
                  = map unload (datacenters (orchestrator e1))).
  { rewrite Hu, !map_map. apply map_ext. intros dc. apply heal_if_needed_idem. }
  assert (Hfix2 : map recover_if_needed (services (orchestrator e1))
                  = services (orchestrator e1)).
  { rewrite Hs, map_map. apply map_ext. intros s. apply recover_if_needed_idem. }
  clear Hu Hs He. revert e1 He1 Hfix1 Hfix2.
  induction n as [|n IH]; intros e1 He1 Hfix1 Hfix2; simpl; [auto|].
  destruct (monitor_spec e1 He1) as (e2 & -> & He2 & Hu2 & Hs2). simpl.
  rewrite Hfix1 in Hu2. rewrite Hfix2 in Hs2.
  rewrite <- Hu2, <- Hs2. apply IH; [exact He2| |]; congruence.
Qed.

Lemma recovery_settles_witness :
  healable two_pools /\ (1 <= 3)%nat /\
  services (orchestrator (cycles 3 two_pools))
  = services (orchestrator (fst (monitor_and_heal two_pools))).
Proof.
  assert (H : (1 <= 3)%nat) by lia.
  split; [exact two_pools_healable|]. split; [exact H|].
  exact (proj2 (recovery_settles two_pools 3 two_pools_healable H)).
Defined.

(** * Properties of the infrastructure brain *)

(** ** Routing does not look at the user's location *)

Lemma overloaded_routable (dc : DataCenter) (b : bool) :
  overloaded dc = Ok b -> routable dc = Ok (eligible dc).
Proof.
  unfold overloaded, routable, eligible, Float64.of_int.
  destruct (Float64.fits _); [|discriminate]. intros _.
  destruct (RegionStatus_eqb (status dc) HEALTHY); reflexivity.
Qed.

Lemma route_traffic_result (o : MultiCloudOrchestrator) :
  (forall dc, In dc (datacenters o) -> routable dc = Ok (eligible dc)) ->
  exists routed,
    (forall user_location, route_traffic o user_location = Ok routed) /\
    (routed = None <-> forall dc, In dc (datacenters o) -> eligible dc = false) /\
    (forall i, routed = Some i ->
               exists dc, In dc (datacenters o) /\ eligible dc = true /\ dc_id dc = i).
Proof.
  intros Hr.
  pose proof (filterM_ok routable eligible (datacenters o) Hr) as Hf.
  destruct (filter eligible (datacenters o)) as [|a l] eqn:Hfl.
  - exists None. split; [|split].
    + intros loc. unfold route_traffic. rewrite Hf. reflexivity.
    + split; [|reflexivity]. intros _ dc Hin.
      destruct (eligible dc) eqn:E; [|reflexivity].
      assert (Hin' : In dc (filter eligible (datacenters o))) by (apply filter_In; auto).
      rewrite Hfl in Hin'. contradiction.
    + discriminate.
  - destruct (py_min_ok (fun dc => Ok (latency_ms dc)) (a :: l)) as [best Hbest];
      [discriminate|eauto|].
    exists (Some (dc_id best)). split; [|split].
    + intros loc. unfold route_traffic. rewrite Hf. cbn [bind]. rewrite Hbest. reflexivity.
    + split; [discriminate|]. intros Hnone. exfalso.
      assert (Hin : In a (filter eligible (datacenters o))) by (rewrite Hfl; left; reflexivity).
      apply filter_In in Hin. destruct Hin as [Hin He].
      rewrite (Hnone a Hin) in He. discriminate.
    + intros i [= <-]. exists best. apply py_min_In in Hbest.
      rewrite <- Hfl in Hbest. apply filter_In in Hbest. tauto.
Qed.

(** ** [handle_traffic] *)

Lemma random_choice_some {A : Type} (r : nat) (l : list A) :
  l <> [] -> exists x, random_choice r l = Some x.
Proof.
  destruct l as [|a l]; [congruence|]. intros _. unfold random_choice.
  destruct (nth_error (a :: l) (r mod length (a :: l))) as [x|] eqn:E; [eauto|].
  apply nth_error_None in E.
  pose proof (Nat.mod_upper_bound r (length (a :: l))) as Hm.
  simpl length in *. lia.
Qed.

Lemma traffic_loop_spec (choice : nat -> nat) (routed : option string) (n : nat) :
  forall (k : nat) (b : PrometheusInfrastructureBrain),
    datacenters (orchestrator (healing_engine b)) <> [] ->
    (forall loc, route_traffic (orchestrator (healing_engine b)) loc = Ok routed) ->
    traffic_loop choice k n b
    = (mkBrain (healing_engine b) (edge_network b) (uptime_percentage b)
         (total_requests_served b + (if truthy routed then Z.of_nat n else 0)),
       Returned tt).
Proof.
  induction n as [|n IH]; intros k b Hne Hroute.
  - cbn [traffic_loop]. destruct b as [e en up served]. cbn.
    destruct (truthy routed); rewrite Z.add_0_r; reflexivity.
  - cbn [traffic_loop].
    destruct (random_choice_some (choice k)
                (map dc_id (datacenters (orchestrator (healing_engine b))))) as [loc ->].
    { intros H. apply map_eq_nil in H. contradiction. }
    rewrite Hroute.
    destruct (truthy routed) eqn:Et.
    + rewrite (IH (S k) (count_served b)); [|exact Hne|exact Hroute].
      cbn [count_served healing_engine edge_network uptime_percentage
             total_requests_served].
      do 2 f_equal. lia.
    + rewrite (IH (S k) b Hne Hroute). reflexivity.
Qed.

Lemma handle_traffic_returns (choice : nat -> nat) (routed : option string)
    (b : PrometheusInfrastructureBrain) (num_requests : Z) :
  datacenters (orchestrator (healing_engine b)) <> [] ->
  (forall loc, route_traffic (orchestrator (healing_engine b)) loc = Ok routed) ->
  handle_traffic choice b num_requests
  = (mkBrain
       (mkEngine (add_global_traffic num_requests (orchestrator (healing_engine b)))
                 (healing_actions (healing_engine b)))
       (edge_network b) (uptime_percentage b)
       (total_requests_served b + (if truthy routed then Z.max 0 num_requests else 0)),
     Returned tt).
Proof.
  intros Hne Hroute. unfold handle_traffic.
  rewrite (traffic_loop_spec choice routed _ 0 b Hne Hroute).
  unfold set_orchestrator, set_engine.
  cbn [healing_engine edge_network uptime_percentage total_requests_served].
  destruct (truthy routed); do 2 f_equal; lia.
Qed.

(** X9.  When the registry is not empty and the capacity of every healthy
    pool converts to a float, [handle_traffic] returns for every request
    count and every random choice of user locations.  All requests of a call
    are routed alike (the location chosen is not used): the served count
    grows by the request count when some pool is healthy below 90% and the id
    of the fastest such pool is not the empty string, and not at all
    otherwise; a negative request count serves nothing.  [global_traffic]
    grows by the request count as given, negative or not; pools, instances,
    the healing counter and the edge network are untouched. *)
Theorem handle_traffic_spec (choice : nat -> nat) (b : PrometheusInfrastructureBrain)
    (num_requests : Z) :
  let o := orchestrator (healing_engine b) in
  datacenters o <> [] ->
  Forall (fun dc => status dc = HEALTHY -> capacity_in_range dc) (datacenters o) ->
  exists routed,
    (forall user_location, route_traffic o user_location = Ok routed) /\
    (routed = None <-> forall dc, In dc (datacenters o) -> eligible dc = false) /\
    handle_traffic choice b num_requests
    = (mkBrain
         (mkEngine (mkOrchestrator (datacenters o) (services o) (total_users o)
                                   (global_traffic o + num_requests))
                   (healing_actions (healing_engine b)))
         (edge_network b) (uptime_percentage b)
         (total_requests_served b + (if truthy routed then Z.max 0 num_requests else 0)),
       Returned tt).
Proof.
  intros o Hne Hcap.
  destruct (route_traffic_result o) as (routed & Hroute & Hnone & _).
  { intros dc Hin. apply routable_eligible. rewrite Forall_forall in Hcap. auto. }
  exists routed. split; [exact Hroute|]. split; [exact Hnone|].
  exact (handle_traffic_returns choice routed b num_requests Hne Hroute).
Qed.

Lemma handle_traffic_spec_witness :
  datacenters (orchestrator three_pools_engine) <> [] /\
  Forall (fun dc => status dc = HEALTHY -> capacity_in_range dc)
         (datacenters (orchestrator three_pools_engine)) /\
  exists routed,
    handle_traffic (fun k => k) (mkBrain three_pools_engine (mkEdgeNetwork [] 0) 100 0) (-3)
    = (mkBrain
         (mkEngine (mkOrchestrator (datacenters three_pools) (services three_pools) 0 (0 + -3)) 0)
         (mkEdgeNetwork [] 0) 100 (0 + (if truthy routed then Z.max 0 (-3) else 0)),
       Returned tt).
Proof.
  assert (H1 : datacenters (orchestrator three_pools_engine) <> []) by discriminate.
  assert (H2 : Forall (fun dc => status dc = HEALTHY -> capacity_in_range dc)
                 (datacenters (orchestrator three_pools_engine))).
  { repeat constructor. }
  split; [exact H1|]. split; [exact H2|].
  destruct (handle_traffic_spec (fun k => k)
              (mkBrain three_pools_engine (mkEdgeNetwork [] 0) 100 0) (-3) H1 H2)
    as (routed & _ & _ & H).
  exists routed. exact H.
Defined.

(** X10.  On an empty registry [handle_traffic] raises [IndexError] at the
    first request (from [random.choice] on an empty list) and leaves the
    brain as it was, [global_traffic] included; with a request count of zero
    or less the loop body never runs, the call returns and adds the count to
    [global_traffic]. *)
Theorem handle_traffic_empty_registry (choice : nat -> nat)
    (b : PrometheusInfrastructureBrain) (num_requests : Z) :
  datacenters (orchestrator (healing_engine b)) = [] ->
  (0 < num_requests -> handle_traffic choice b num_requests = (b, Raised IndexError)) /\
  (num_requests <= 0 ->
   handle_traffic choice b num_requests
   = (set_orchestrator (add_global_traffic num_requests (orchestrator (healing_engine b))) b,
      Returned tt)).
Proof.
  intros Hempty. split; intros Hn; unfold handle_traffic.
  - destruct (Z.to_nat num_requests) as [|n] eqn:E; [lia|].
    cbn [traffic_loop]. rewrite Hempty. reflexivity.
  - replace (Z.to_nat num_requests) with 0%nat by lia. reflexivity.
Qed.

Lemma handle_traffic_empty_registry_witness :
  datacenters (orchestrator (healing_engine new_brain)) = [] /\
  handle_traffic (fun k => k) new_brain 10000 = (new_brain, Raised IndexError).
Proof.
  split; [reflexivity|].
  exact (proj1 (handle_traffic_empty_registry (fun k => k) new_brain 10000 eq_refl) eq_refl).
Defined.

(** ** [run_management_cycle] *)

Lemma quiet_routable (e : SelfHealingEngine) :
  quiet e ->
  forall dc, In dc (datacenters (orchestrator e)) -> routable dc = Ok (eligible dc).
Proof.
  intros [Hd _] dc Hin. rewrite Forall_forall in Hd.
  destruct (Hd dc Hin) as [Hov _]. exact (overloaded_routable dc false Hov).
Qed.

(** One cycle on a quiet registry whose traffic total is not ahead of the
    threshold of the cycle: the traffic is handled, the monitor finds nothing
    to do and the service is not scaled. *)
Lemma management_step_quiet (choice : nat -> nat -> nat) (clock : nat -> nat -> Z)
    (routed : option string) (cycle : nat) (b : PrometheusInfrastructureBrain) :
  let e := healing_engine b in
  datacenters (orchestrator e) <> [] -> quiet e ->
  (forall loc, route_traffic (orchestrator e) loc = Ok routed) ->
  global_traffic (orchestrator e) <= 50000 * (Z.of_nat cycle + 1) ->
  management_step choice clock cycle b
  = (mkBrain (mkEngine (add_global_traffic 50000 (orchestrator e)) (healing_actions e))
       (edge_network b) (uptime_percentage b)
       (total_requests_served b + (if truthy routed then 50000 else 0)),
     Returned tt).
Proof.
  intros e Hne Hq Hroute Hg. unfold management_step.
  rewrite (handle_traffic_returns (choice cycle) routed b 50000 Hne Hroute).
  cbn [healing_engine]. fold e.
  rewrite (monitor_quiet (mkEngine (add_global_traffic 50000 (orchestrator e))
                            (healing_actions e))) by exact Hq.
  cbn [orchestrator add_global_traffic global_traffic].
  replace (100000 * (Z.of_nat cycle + 1) <? global_traffic (orchestrator e) + 50000)
    with false by (symmetry; apply Z.ltb_ge; lia).
  unfold set_engine. cbn [edge_network uptime_percentage total_requests_served].
  destruct (truthy routed); reflexivity.
Qed.

Lemma management_loop_quiet (choice : nat -> nat -> nat) (clock : nat -> nat -> Z)
    (routed : option string) (n : nat) :
  forall (cycle : nat) (b : PrometheusInfrastructureBrain),
    let e := healing_engine b in
    datacenters (orchestrator e) <> [] -> quiet e ->
    (forall loc, route_traffic (orchestrator e) loc = Ok routed) ->
    global_traffic (orchestrator e) <= 50000 * (Z.of_nat cycle + 1) ->
    management_loop (management_step choice clock) cycle n b
    = (mkBrain
         (mkEngine (add_global_traffic (50000 * Z.of_nat n) (orchestrator e))
                   (healing_actions e))
         (edge_network b) (uptime_percentage b)
         (total_requests_served b + (if truthy routed then 50000 * Z.of_nat n else 0)),
       Returned tt).
Proof.
  induction n as [|n IH]; intros cycle b e Hne Hq Hroute Hg.
  - cbn [management_loop]. subst e. destruct b as [[[dcs svcs u g] h] en up served].
    unfold add_global_traffic. cbn.
    destruct (truthy routed); rewrite !Z.add_0_r; reflexivity.
  - cbn [management_loop].
    rewrite (management_step_quiet choice clock routed cycle b Hne Hq Hroute Hg). fold e.
    rewrite IH.
    + cbn [healing_engine orchestrator healing_actions edge_network uptime_percentage
             total_requests_served].
      unfold add_global_traffic.
      cbn [datacenters services total_users global_traffic].
      replace (global_traffic (orchestrator e) + 50000 + 50000 * Z.of_nat n)
        with (global_traffic (orchestrator e) + 50000 * Z.of_nat (S n)) by lia.
      destruct (truthy routed).
      * replace (total_requests_served b + 50000 + 50000 * Z.of_nat n)
          with (total_requests_served b + 50000 * Z.of_nat (S n)) by lia.
        reflexivity.
      * rewrite !Z.add_0_r. reflexivity.
    + exact Hne.
    + exact Hq.
    + exact Hroute.
    + cbn [healing_engine orchestrator add_global_traffic global_traffic]. lia.
Qed.

(** X11.  On a registry that is not empty and in which the monitor finds
    nothing to do, with a traffic total of at most 50000,
    [run_management_cycle] returns for every number of cycles, every choice
    of user locations and every clock, and never heals or scales: each cycle
    adds 50000 to [global_traffic], which therefore never exceeds the
    threshold [100000 * (cycle + 1)] of the auto-scaling test; the served
    count grows by 50000 per cycle when a request can be routed; pools,
    instances, the healing counter and the edge network end as they
    started. *)
Theorem management_cycles_quiet (choice : nat -> nat -> nat) (clock : nat -> nat -> Z)
    (b : PrometheusInfrastructureBrain) (cycles : Z) :
  let e := healing_engine b in
  let o := orchestrator e in
  datacenters o <> [] -> quiet e -> global_traffic o <= 50000 ->
  exists routed,
    (forall user_location, route_traffic o user_location = Ok routed) /\
    run_management_cycle choice clock b cycles
    = (mkBrain
         (mkEngine (mkOrchestrator (datacenters o) (services o) (total_users o)
                                   (global_traffic o + 50000 * Z.max 0 cycles))
                   (healing_actions e))
         (edge_network b) (uptime_percentage b)
         (total_requests_served b + (if truthy routed then 50000 * Z.max 0 cycles else 0)),
       Returned tt).
Proof.
  intros e o Hne Hq Hg.
  destruct (route_traffic_result o (quiet_routable e Hq)) as (routed & Hroute & _).
  exists routed. split; [exact Hroute|].
  unfold run_management_cycle.
  rewrite (management_loop_quiet choice clock routed (Z.to_nat cycles) 0 b Hne Hq Hroute)
    by (cbn; fold e; fold o; lia).
  fold e. fold o. unfold add_global_traffic.
  replace (Z.of_nat (Z.to_nat cycles)) with (Z.max 0 cycles) by lia.
  reflexivity.
Qed.

Lemma management_cycles_quiet_witness :
  datacenters (orchestrator three_pools_engine) <> [] /\
  quiet three_pools_engine /\
  global_traffic (orchestrator three_pools_engine) <= 50000 /\
  exists routed,
    run_management_cycle (fun c k => k) (fun c k => 1700000000)
      (mkBrain three_pools_engine (mkEdgeNetwork [] 0) 100 0) 20
    = (mkBrain
         (mkEngine (mkOrchestrator (datacenters three_pools) (services three_pools) 0
                                   (0 + 50000 * Z.max 0 20)) 0)
         (mkEdgeNetwork [] 0) 100 (0 + (if truthy routed then 50000 * Z.max 0 20 else 0)),
       Returned tt).
Proof.
  assert (H1 : datacenters (orchestrator three_pools_engine) <> []) by discriminate.
  assert (H2 : quiet three_pools_engine).
  { split; repeat constructor. }
  assert (H3 : global_traffic (orchestrator three_pools_engine) <= 50000)
    by (intro; discriminate).
  split; [exact H1|]. split; [exact H2|]. split; [exact H3|].
  destruct (management_cycles_quiet (fun c k => k) (fun c k => 1700000000)
              (mkBrain three_pools_engine (mkEdgeNetwork [] 0) 100 0) 20 H1 H2 H3)
    as (routed & _ & H).
  exists routed. exact H.
Defined.

(** ** The main run *)

(** X12.  The run of the program's entry point, for every latency drawn,
    every clock and every choice of user locations.  [initialize] on a new
    brain returns and leaves twelve pools with a load of 3000 each and 36
    instances (12, 8, 10 and 6 per service).  [run_management_cycle] then
    returns for every number of cycles: every request is served (50000 per
    cycle), no healing action is taken, the service is never scaled, and
    pools, instances and edge nodes end as [initialize] left them. *)
Theorem main_run (latency : nat -> Q) (clock clock' : nat -> nat -> Z)
    (choice : nat -> nat -> nat) (cycles : Z) :
  exists b1 b2,
    initialize latency clock new_brain = (b1, Returned tt) /\
    run_management_cycle choice clock' b1 cycles = (b2, Returned tt) /\
    loads (healing_engine b1) = repeat 3000 12 /\
    map (fun name => instance_count name (orchestrator (healing_engine b1)))
        ["api-gateway"; "auth-service"; "data-processor"; "ml-inference"]%string
    = [12; 8; 10; 6]%nat /\
    length (services (orchestrator (healing_engine b1))) = 36%nat /\
    orchestrator (healing_engine b2)
    = add_global_traffic (50000 * Z.max 0 cycles) (orchestrator (healing_engine b1)) /\
    healing_actions (healing_engine b2) = 0 /\
    total_requests_served b2 = 50000 * Z.max 0 cycles /\
    edge_network b2 = edge_network b1.
Proof.
  destruct (initialize latency clock new_brain) as [b1 r] eqn:Hinit.
  vm_compute in Hinit. injection Hinit as Hb1 Hr. subst r.
  assert (Hloads : loads (healing_engine b1) = repeat 3000 12)
    by (subst b1; reflexivity).
  assert (Hne : datacenters (orchestrator (healing_engine b1)) <> [])
    by (subst b1; discriminate).
  assert (Hg : global_traffic (orchestrator (healing_engine b1)) <= 50000 * (Z.of_nat 0 + 1))
    by (subst b1; intro; discriminate).
  assert (Hq : quiet (healing_engine b1)).
  { subst b1. split; cbn [healing_engine orchestrator datacenters services].
    - repeat (apply Forall_cons; [split; vm_compute; reflexivity|]). apply Forall_nil.
    - repeat (apply Forall_cons; [vm_compute; reflexivity|]). apply Forall_nil. }
  destruct (route_traffic_result (orchestrator (healing_engine b1))
              (quiet_routable _ Hq)) as (routed & Hroute & Hnone & Hsome).
  assert (Ht : truthy routed = true).
  { destruct routed as [i|].
    - destruct (Hsome i eq_refl) as (dc & Hin & _ & <-). clear -Hin Hb1. subst b1.
      cbn [healing_engine orchestrator datacenters] in Hin.
      repeat (destruct Hin as [<-|Hin]; [reflexivity|]). contradiction.
    - exfalso. pose proof (proj1 Hnone eq_refl) as H. clear -H Hb1. subst b1.
      cbn [healing_engine orchestrator datacenters] in H.
      specialize (H _ (or_introl eq_refl)). vm_compute in H. discriminate. }
  pose proof (management_loop_quiet choice clock' routed (Z.to_nat cycles) 0 b1
                Hne Hq Hroute Hg) as Hrun.
  rewrite Ht in Hrun.
  eexists b1, _. split; [reflexivity|]. split; [exact Hrun|].
  split; [exact Hloads|].
  split; [subst b1; vm_compute; reflexivity|].
  split; [subst b1; reflexivity|].
  cbn [healing_engine orchestrator healing_actions total_requests_served edge_network].
  replace (Z.of_nat (Z.to_nat cycles)) with (Z.max 0 cycles) by lia.
  split; [reflexivity|].
  split; [subst b1; reflexivity|].
  split; [subst b1; cbn [total_requests_served]; lia|reflexivity].
Qed.

(** ** [initialize_global_infrastructure] *)

Lemma datacenters_get_set (id : string) (v : DataCenter) (d : list DataCenter) :
  datacenters_get id (datacenters_set v d)
  = if String.eqb (dc_id v) id then Some v else datacenters_get id d.
Proof.
  unfold datacenters_get. induction d as [|dc r IH]; simpl; [reflexivity|].
  destruct (String.eqb_spec (dc_id dc) (dc_id v)) as [E|E]; simpl.
  - destruct (String.eqb_spec (dc_id v) id) as [E1|E1]; [reflexivity|].
    destruct (String.eqb_spec (dc_id dc) id) as [E2|E2]; [congruence|reflexivity].
  - rewrite IH.
    destruct (String.eqb_spec (dc_id dc) id) as [E2|E2]; [|reflexivity].
    destruct (String.eqb_spec (dc_id v) id) as [E1|E1]; [congruence|reflexivity].
Qed.

Lemma datacenters_set_other (id : string) (l : list (nat * (string * string * CloudProvider)))
    (latency : nat -> Q) :
  forall d,
    (forall p, In p l -> dc_id (new_datacenter (snd p) (latency (fst p))) <> id) ->
    datacenters_get id
      (fold_left (fun d p => datacenters_set (new_datacenter (snd p) (latency (fst p))) d) l d)
    = datacenters_get id d.
Proof.
  induction l as [|p l IH]; intros d H; simpl; [reflexivity|].
  rewrite IH by (intros; apply H; right; assumption).
  rewrite datacenters_get_set.
  destruct (String.eqb_spec (dc_id (new_datacenter (snd p) (latency (fst p)))) id) as [E|E];
    [|reflexivity].
  exfalso. exact (H p (or_introl eq_refl) E).
Qed.

Lemma new_datacenter_id (r : string * string * CloudProvider) (lat lat' : Q) :
  dc_id (new_datacenter r lat) = dc_id (new_datacenter r lat').
Proof. destruct r as [[reg ctry] prov]. reflexivity. Qed.

Lemma region_ids_NoDup : NoDup region_ids.
Proof.
  unfold region_ids. vm_compute.
  repeat (apply NoDup_cons; [simpl; intuition discriminate|]). apply NoDup_nil.
Qed.

Lemma datacenters_set_fresh (latency : nat -> Q)
    (l : list (nat * (string * string * CloudProvider))) :
  NoDup (map (fun p => dc_id (new_datacenter (snd p) 0)) l) ->
  forall d p,
    In p l ->
    datacenters_get (dc_id (new_datacenter (snd p) 0))
      (fold_left (fun d p => datacenters_set (new_datacenter (snd p) (latency (fst p))) d) l d)
    = Some (new_datacenter (snd p) (latency (fst p))).
Proof.
  induction l as [|q l IH]; intros Hnd d p Hin; [contradiction|].
  simpl in Hnd. inversion Hnd as [|? ? Hq Hl]; subst. simpl.
  destruct Hin as [->|Hin]; [|apply IH; assumption].
  rewrite datacenters_set_other.
  - rewrite datacenters_get_set, (new_datacenter_id (snd p) (latency (fst p)) 0).
    rewrite String.eqb_refl. reflexivity.
  - intros p' Hp' E. apply Hq.
    rewrite (new_datacenter_id (snd p') (latency (fst p')) 0) in E. rewrite <- E.
    apply (in_map (fun p => dc_id (new_datacenter (snd p) 0))). exact Hp'.
Qed.

(** X13.  [initialize_global_infrastructure] on any registry: afterwards
    each of the twelve region ids holds a new pool (capacity 100000, load 0,
    Healthy, uptime 100, the latency drawn for it), whatever was stored under
    that id before; pools under other ids, the instances and the totals are
    untouched.  So calling it on a running system sets the load of the twelve
    pools back to 0 while the instances placed on them stay registered.  On
    an empty registry the result is the twelve pools, in the order of the
    source. *)
Theorem initialize_global_infrastructure_spec (latency : nat -> Q)
    (o : MultiCloudOrchestrator) :
  let o' := initialize_global_infrastructure latency o in
  (forall k r, nth_error regions k = Some r ->
               datacenters_get (dc_id (new_datacenter r 0)) (datacenters o')
               = Some (new_datacenter r (latency k)) /\
               capacity (new_datacenter r (latency k)) = 100000 /\
               current_load (new_datacenter r (latency k)) = 0 /\
               status (new_datacenter r (latency k)) = HEALTHY) /\
  (forall id, ~ In id region_ids ->
              datacenters_get id (datacenters o') = datacenters_get id (datacenters o)) /\
  services o' = services o /\ total_users o' = total_users o /\
  global_traffic o' = global_traffic o /\
  (datacenters o = [] ->
   datacenters o' = map (fun p => new_datacenter (snd p) (latency (fst p))) (enumerate regions)).
Proof.
  intros o'. split; [|split; [|split; [|split; [|split]]]]; try reflexivity.
  - intros k r Hk. split.
    + apply (datacenters_set_fresh latency (enumerate regions)) with (p := (k, r)).
      * replace (map (fun p : nat * (string * string * CloudProvider) =>
                        dc_id (new_datacenter (snd p) 0)) (enumerate regions))
          with region_ids by reflexivity.
        exact region_ids_NoDup.
      * apply In_enumerate. exact Hk.
    + destruct r as [[reg ctry] prov]. auto.
  - intros id Hid. subst o'. unfold initialize_global_infrastructure.
    cbn [datacenters set_datacenters].
    apply datacenters_set_other. intros [k r] Hp E. apply Hid.
    apply In_enumerate, nth_error_In in Hp. simpl in E.
    rewrite (new_datacenter_id r (latency k) 0) in E. rewrite <- E.
    unfold region_ids. apply (in_map (fun r => dc_id (new_datacenter r 0))). exact Hp.
  - intros Hempty. subst o'. unfold initialize_global_infrastructure.
    cbn [datacenters set_datacenters]. rewrite Hempty. reflexivity.
Qed.

(** * Properties of the edge network *)

(** ** Lookups after a write *)

Lemma edge_get_set (k k' : string) (v : EdgeNode) (d : list (string * EdgeNode)) :
  edge_get k' (edge_set k v d) = if String.eqb k k' then Some v else edge_get k' d.
Proof.
  induction d as [|[k0 v0] r IH]; simpl; [reflexivity|].
  destruct (String.eqb_spec k0 k) as [E|E]; simpl.
  - destruct (String.eqb_spec k k') as [E1|E1]; [reflexivity|].
    destruct (String.eqb_spec k0 k') as [E2|E2]; [congruence|reflexivity].
  - rewrite IH.
    destruct (String.eqb_spec k0 k') as [E2|E2]; [|reflexivity].
    destruct (String.eqb_spec k k') as [E1|E1]; [congruence|reflexivity].
Qed.

Lemma edge_get_update (k k' : string) (f : EdgeNode -> EdgeNode)
    (d : list (string * EdgeNode)) :
  edge_get k' (edge_update k f d)
  = if String.eqb k k' then option_map f (edge_get k d) else edge_get k' d.
Proof.
  induction d as [|[k0 v0] r IH]; simpl; [destruct (String.eqb k k'); reflexivity|].
  destruct (String.eqb_spec k0 k) as [E|E]; simpl.
  - destruct (String.eqb_spec k k') as [E1|E1].
    + subst. rewrite String.eqb_refl. reflexivity.
    + destruct (String.eqb_spec k0 k') as [E2|E2]; [congruence|reflexivity].
  - rewrite IH.
    destruct (String.eqb_spec k0 k') as [E2|E2]; [|reflexivity].
    destruct (String.eqb_spec k k') as [E1|E1]; [congruence|reflexivity].
Qed.

Lemma edge_update_keys (k : string) (f : EdgeNode -> EdgeNode) (d : list (string * EdgeNode)) :
  map fst (edge_update k f d) = map fst d.
Proof.
  induction d as [|[k0 v0] r IH]; simpl; [reflexivity|].
  destruct (String.eqb k0 k); simpl; [|rewrite IH]; reflexivity.
Qed.

Lemma edge_get_In (k : string) (d : list (string * EdgeNode)) :
  edge_get k d <> None <-> In k (map fst d).
Proof.
  induction d as [|[k0 v0] r IH]; simpl; [tauto|].
  destruct (String.eqb_spec k0 k) as [E|E].
  - split; [auto|discriminate].
  - rewrite IH. tauto.
Qed.

(** X14.  [serve_content] returns True exactly when a node is stored for the
    user's location and the draw is below 0.85.  Whenever the node exists its
    request counter grows by one, hit or miss, and its cached-object counter
    grows by one on a hit; the hit ratio becomes 0.85 on a hit and is
    otherwise kept; the other nodes, the keys and their order never change,
    and the content id plays no part. *)
Theorem serve_content_spec (net : EdgeComputingNetwork) (content_id user_location : string)
    (draw : Q) :
  let r := serve_content net content_id user_location draw in
  let k := node_id user_location in
  (snd r = true <-> In k (map fst (edge_nodes net)) /\ (draw < lit_0_85)%Q) /\
  map fst (edge_nodes (fst r)) = map fst (edge_nodes net) /\
  (forall k', k' <> k -> edge_get k' (edge_nodes (fst r)) = edge_get k' (edge_nodes net)) /\
  edge_get k (edge_nodes (fst r))
  = option_map (fun n => mkEdgeNode (location n) (cache_size_gb n)
                           (cached_objects n + (if snd r then 1 else 0))
                           (requests_served n + 1))
               (edge_get k (edge_nodes net)) /\
  cache_hit_ratio (fst r) = (if snd r then lit_0_85 else cache_hit_ratio net) /\
  (forall content_id', serve_content net content_id' user_location draw = r).
Proof.
  intros r k. subst r. unfold serve_content. fold k.
  pose proof (edge_get_In k (edge_nodes net)) as Hin.
  destruct (edge_get k (edge_nodes net)) as [n|] eqn:Hget.
  - assert (Hk : In k (map fst (edge_nodes net))) by (apply Hin; discriminate).
    destruct (Qltb draw lit_0_85) eqn:Hd; cbn [fst snd edge_nodes cache_hit_ratio].
    + apply Float64Facts.Qltb_lt in Hd.
      split; [tauto|]. split; [rewrite !edge_update_keys; reflexivity|].
      split; [|split; [|split; reflexivity]].
      * intros k' Hk'. rewrite !edge_get_update.
        destruct (String.eqb_spec k k') as [E|E]; [congruence|reflexivity].
      * rewrite !edge_get_update, String.eqb_refl, Hget. reflexivity.
    + apply Float64Facts.Qltb_ge in Hd.
      split; [split; [discriminate|]|].
      { intros [_ Hlt]. exfalso. exact (Qlt_not_le _ _ Hlt Hd). }
      split; [rewrite !edge_update_keys; reflexivity|].
      split; [|split; [|split; reflexivity]].
      * intros k' Hk'. rewrite !edge_get_update.
        destruct (String.eqb_spec k k') as [E|E]; [congruence|reflexivity].
      * rewrite !edge_get_update, String.eqb_refl, Hget. cbn [option_map count_request].
        rewrite Z.add_0_r. destruct n; reflexivity.
  - cbn [fst snd]. split; [split; [discriminate|]|].
    { intros [Hk _]. apply Hin in Hk. congruence. }
    rewrite Hget. repeat split; reflexivity.
Qed.

(** ** Invariants of the network *)

Lemma edge_set_keys (k : string) (v : EdgeNode) (d : list (string * EdgeNode)) :
  map fst (edge_set k v d)
  = if existsb (String.eqb k) (map fst d) then map fst d else map fst d ++ [k].
Proof.
  induction d as [|[k0 v0] r IH]; simpl; [reflexivity|].
  rewrite (String.eqb_sym k k0).
  destruct (String.eqb_spec k0 k) as [E|E]; simpl.
  - subst. reflexivity.
  - rewrite IH. destruct (existsb _ _); reflexivity.
Qed.

Lemma NoDup_snoc {A : Type} (l : list A) (a : A) :
  NoDup l -> ~ In a l -> NoDup (l ++ [a]).
Proof.
  induction 1 as [|b l Hb Hl IH]; simpl; intros Ha.
  - constructor; [tauto|constructor].
  - constructor; [|apply IH; tauto].
    intros Hin. apply in_app_or in Hin. simpl in Hin. intuition congruence.
Qed.

Lemma edge_set_NoDup (k : string) (v : EdgeNode) (d : list (string * EdgeNode)) :
  NoDup (map fst d) -> NoDup (map fst (edge_set k v d)).
Proof.
  intros H. rewrite edge_set_keys.
  destruct (existsb (String.eqb k) (map fst d)) eqn:E; [exact H|].
  apply NoDup_snoc; [exact H|].
  intros Hin. assert (existsb (String.eqb k) (map fst d) = true); [|congruence].
  apply existsb_exists. exists k. split; [exact Hin|apply String.eqb_refl].
Qed.

Lemma edge_set_Forall (P : string * EdgeNode -> Prop) (k : string) (v : EdgeNode)
    (d : list (string * EdgeNode)) :
  P (k, v) -> Forall P d -> Forall P (edge_set k v d).
Proof.
  intros Hv. induction 1 as [|[k0 v0] r H0 Hr IH]; simpl; [auto|].
  destruct (String.eqb k0 k); auto.
Qed.

Lemma edge_update_Forall (P : string * EdgeNode -> Prop) (k : string)
    (f : EdgeNode -> EdgeNode) (d : list (string * EdgeNode)) :
  (forall k' v, P (k', v) -> P (k', f v)) -> Forall P d -> Forall P (edge_update k f d).
Proof.
  intros Hf. induction 1 as [|[k0 v0] r H0 Hr IH]; simpl; [auto|].
  destruct (String.eqb k0 k); auto.
Qed.

Lemma edge_update_twice (k : string) (f g : EdgeNode -> EdgeNode)
    (d : list (string * EdgeNode)) :
  edge_update k f (edge_update k g d) = edge_update k (fun v => f (g v)) d.
Proof.
  induction d as [|[k0 v0] r IH]; simpl; [reflexivity|].
  destruct (String.eqb k0 k) eqn:E; simpl; rewrite E; [|rewrite IH]; reflexivity.
Qed.

Lemma deploy_edge_nodes_consistent (net : EdgeComputingNetwork) (locations : list string) :
  edge_consistent net -> edge_consistent (deploy_edge_nodes net locations).
Proof.
  unfold deploy_edge_nodes. destruct net as [d ratio].
  cbn [edge_nodes cache_hit_ratio]. revert d.
  induction locations as [|loc locs IH]; intros d H; [exact H|].
  cbn [fold_left]. apply IH.
  destruct H as (Hnd & Hall & Hr & Hz). unfold edge_consistent in *.
  cbn [edge_nodes cache_hit_ratio] in *.
  split; [apply edge_set_NoDup; exact Hnd|].
  split; [apply edge_set_Forall; [|exact Hall]|].
  { unfold node_consistent. cbn. repeat split; lia. }
  split; [exact Hr|].
  intros Hzero. apply edge_set_Forall; [reflexivity|auto].
Qed.

Lemma serve_content_consistent (net : EdgeComputingNetwork) (content_id user_location : string)
    (draw : Q) :
  edge_consistent net ->
  edge_consistent (fst (serve_content net content_id user_location draw)).
Proof.
  intros (Hnd & Hall & Hr & Hz). unfold serve_content.
  destruct (edge_get _ _) as [n|]; [|unfold edge_consistent; auto].
  assert (Hreq : Forall node_consistent
                   (edge_update (node_id user_location) count_request (edge_nodes net))).
  { apply edge_update_Forall; [|exact Hall].
    intros k' v (H1 & H2 & H3). unfold node_consistent in *. cbn in *. repeat split; auto; lia. }
  destruct (Qltb draw lit_0_85); unfold edge_consistent; cbn [fst edge_nodes cache_hit_ratio].
  - rewrite !edge_update_keys. split; [exact Hnd|]. split.
    + rewrite edge_update_twice. apply edge_update_Forall; [|exact Hall].
      intros k' v (H1 & H2 & H3). unfold node_consistent in *. cbn in *.
      repeat split; auto; lia.
    + split; [right; reflexivity|]. intros H. vm_compute in H. discriminate.
  - rewrite !edge_update_keys. split; [exact Hnd|]. split; [exact Hreq|].
    split; [exact Hr|]. intros H.
    apply edge_update_Forall; [|auto]. intros k' v Hv. exact Hv.
Qed.

(** X15.  Every edge network built from a new one by any sequence of
    [deploy_edge_nodes] and [serve_content] calls is consistent: node ids
    are distinct and each is [edge-] followed by the node's location, every
    cache size is 1000, no node has more cached objects than requests served
    (and neither count is negative), and the hit ratio is 0.0 or 0.85, the
    former only while no node has a cached object. *)
Theorem edge_network_consistent (ops : list edge_operation) :
  edge_consistent (edge_run ops new_edge_network).
Proof.
  assert (H0 : edge_consistent new_edge_network).
  { unfold edge_consistent, new_edge_network. cbn.
    split; [constructor|]. split; [constructor|]. split; [left; reflexivity|constructor]. }
  unfold edge_run. revert H0. generalize new_edge_network.
  induction ops as [|op ops IH]; intros net H; [exact H|].
  cbn [fold_left]. apply IH. destruct op as [locs|c u d]; cbn [edge_perform].
  - apply deploy_edge_nodes_consistent, H.
  - apply serve_content_consistent, H.
Qed.

(** ** Deployment and lookup *)

Lemma node_id_inj (a b : string) : node_id a = node_id b -> a = b.
Proof. unfold node_id. simpl. intros [= H]. exact H. Qed.

Lemma deploy_edge_nodes_other (k : string) (locations : list string) :
  forall d,
    ~ In k (map node_id locations) ->
    edge_get k (fold_left (fun d loc => edge_set (node_id loc) (mkEdgeNode loc 1000 0 0) d)
                          locations d)
    = edge_get k d.
Proof.
  induction locations as [|loc locs IH]; intros d H; simpl; [reflexivity|].
  simpl in H. rewrite IH by tauto. rewrite edge_get_set.
  destruct (String.eqb_spec (node_id loc) k) as [E|E]; [tauto|reflexivity].
Qed.

Lemma deploy_edge_nodes_fresh (loc : string) (locations : list string) :
  forall d,
    In loc locations ->
    edge_get (node_id loc)
      (fold_left (fun d loc => edge_set (node_id loc) (mkEdgeNode loc 1000 0 0) d) locations d)
    = Some (mkEdgeNode loc 1000 0 0).
Proof.
  induction locations as [|l0 locs IH]; intros d Hin; [contradiction|]. simpl.
  destruct (in_dec string_dec loc locs) as [Hl|Hl]; [apply IH; exact Hl|].
  destruct Hin as [->|Hin]; [|contradiction].
  rewrite deploy_edge_nodes_other.
  - rewrite edge_get_set, String.eqb_refl. reflexivity.
  - intros H. apply in_map_iff in H. destruct H as (x & Hx & Hxin).
    apply node_id_inj in Hx. subst. contradiction.
Qed.

(** X16.  After [deploy_edge_nodes], every location of the list has a node
    with cache size 1000 and both counters at zero, whatever was stored for
    it before (deploying a location again wipes its counters); nodes of other
    locations and the hit ratio are untouched; and [serve_content] for a
    location of the list returns True exactly when its draw is below 0.85. *)
Theorem deploy_edge_nodes_spec (net : EdgeComputingNetwork) (locations : list string) :
  let net' := deploy_edge_nodes net locations in
  (forall loc, In loc locations ->
               edge_get (node_id loc) (edge_nodes net') = Some (mkEdgeNode loc 1000 0 0)) /\
  (forall k, ~ In k (map node_id locations) ->
             edge_get k (edge_nodes net') = edge_get k (edge_nodes net)) /\
  cache_hit_ratio net' = cache_hit_ratio net /\
  (forall loc content_id draw,
      In loc locations ->
      snd (serve_content net' content_id loc draw) = Qltb draw lit_0_85).
Proof.
  intros net'. subst net'. unfold deploy_edge_nodes. cbn [edge_nodes cache_hit_ratio].
  split; [intros loc Hin; apply deploy_edge_nodes_fresh; exact Hin|].
  split; [intros k Hk; apply deploy_edge_nodes_other; exact Hk|].
  split; [reflexivity|].
  intros loc content_id draw Hin. unfold serve_content. cbn [edge_nodes].
  rewrite (deploy_edge_nodes_fresh loc locations _ Hin).
  destruct (Qltb draw lit_0_85); reflexivity.
Qed.

(** * Properties of the satellite network *)

(** ** Satellite ids *)

Lemma str_inj (a b : Z) : str a = str b -> a = b.
Proof.
  unfold str. intros H. apply DecimalZ.to_int_inj.
  assert (Hisi : forall z, NilZero.int_of_string (NilZero.string_of_int (Z.to_int z))
                           = Some (Z.to_int z)).
  { intros z. apply NilZero.isi; destruct z; simpl; try discriminate;
      intros [= E]; exact (DecimalPos.Unsigned.to_uint_nonnil _ E). }
  pose proof (Hisi a) as Ha. rewrite H, Hisi in Ha. congruence.
Qed.

Lemma satellite_name_inj (name : string) (i j : nat) :
  satellite_name name i = satellite_name name j -> i = j.
Proof.
  unfold satellite_name. intros H. apply append_inv_head in H.
  simpl in H. injection H as H. apply str_inj in H. lia.
Qed.

(** ** [deploy_constellation] *)

Lemma satellites_get_set (id : string) (v : Satellite) (d : list Satellite) :
  satellites_get id (satellites_set v d)
  = if String.eqb (sat_id v) id then Some v else satellites_get id d.
Proof.
  unfold satellites_get. induction d as [|s r IH]; simpl; [reflexivity|].
  destruct (String.eqb_spec (sat_id s) (sat_id v)) as [E|E]; simpl.
  - destruct (String.eqb_spec (sat_id v) id) as [E1|E1]; [reflexivity|].
    destruct (String.eqb_spec (sat_id s) id) as [E2|E2]; [congruence|reflexivity].
  - rewrite IH.
    destruct (String.eqb_spec (sat_id s) id) as [E2|E2]; [|reflexivity].
    destruct (String.eqb_spec (sat_id v) id) as [E1|E1]; [congruence|reflexivity].
Qed.

Lemma satellites_set_new (v : Satellite) (d : list Satellite) :
  (forall s, In s d -> sat_id s <> sat_id v) -> satellites_set v d = d ++ [v].
Proof.
  induction d as [|s r IH]; intros H; simpl; [reflexivity|].
  destruct (String.eqb_spec (sat_id s) (sat_id v)) as [E|E].
  - exfalso. exact (H s (or_introl eq_refl) E).
  - rewrite IH; [reflexivity|]. intros; apply H; right; assumption.
Qed.

Lemma NoDup_map_injective {A B : Type} (f : A -> B) (l : list A) :
  (forall x y, f x = f y -> x = y) -> NoDup l -> NoDup (map f l).
Proof.
  intros Hf. induction 1 as [|a l Ha Hl IH]; simpl; constructor; [|exact IH].
  intros Hin. apply in_map_iff in Hin. destruct Hin as (x & Hx & Hxin).
  apply Hf in Hx. subst. contradiction.
Qed.

Section Constellation.
Variables (lat lon : nat -> Q) (name : string).

Lemma deploy_loop_other (id : string) (l : list nat) :
  forall d,
    (forall i, In i l -> id <> satellite_name name i) ->
    satellites_get id
      (fold_left (fun d i => satellites_set (new_satellite name i (lat i) (lon i)) d) l d)
    = satellites_get id d.
Proof.
  induction l as [|i l IH]; intros d H; simpl; [reflexivity|].
  rewrite IH by (intros; apply H; right; assumption).
  rewrite satellites_get_set. cbn [new_satellite sat_id].
  destruct (String.eqb_spec (satellite_name name i) id) as [E|E]; [|reflexivity].
  exfalso. exact (H i (or_introl eq_refl) (eq_sym E)).
Qed.

Lemma deploy_loop_fresh (l : list nat) :
  NoDup l ->
  forall d i,
    In i l ->
    satellites_get (satellite_name name i)
      (fold_left (fun d i => satellites_set (new_satellite name i (lat i) (lon i)) d) l d)
    = Some (new_satellite name i (lat i) (lon i)).
Proof.
  induction 1 as [|j l Hj Hl IH]; intros d i Hin; [contradiction|]. simpl.
  destruct Hin as [->|Hin]; [|apply IH; exact Hin].
  rewrite deploy_loop_other.
  - rewrite satellites_get_set. cbn [new_satellite sat_id].
    rewrite String.eqb_refl. reflexivity.
  - intros k Hk E. apply satellite_name_inj in E. subst. contradiction.
Qed.

Lemma deploy_loop_append (l : list nat) :
  NoDup l ->
  forall d,
    (forall i s, In i l -> In s d -> sat_id s <> satellite_name name i) ->
    fold_left (fun d i => satellites_set (new_satellite name i (lat i) (lon i)) d) l d
    = d ++ map (fun i => new_satellite name i (lat i) (lon i)) l.
Proof.
  induction 1 as [|j l Hj Hl IH]; intros d H; simpl; [rewrite app_nil_r; reflexivity|].
  rewrite satellites_set_new by (intros s Hs; apply (H j s); [left; reflexivity|exact Hs]).
  rewrite IH.
  - rewrite <- app_assoc. reflexivity.
  - intros i s Hi Hs. apply in_app_or in Hs. destruct Hs as [Hs|[<-|[]]].
    + apply H; [right; exact Hi|exact Hs].
    + cbn [new_satellite sat_id]. intros E. apply satellite_name_inj in E.
      subst. contradiction.
Qed.

End Constellation.

(** X17.  [deploy_constellation] on any network: afterwards each of the
    ids [name-0] to [name-(n-1)] holds an active satellite of that
    constellation at 550 km with radius 1000 and the position drawn for it,
    whatever was stored under that id before; satellites under other ids and
    the ground stations are untouched; a count of zero or less deploys
    nothing.  On an empty network the result is exactly [n] satellites with
    distinct ids, in the order of deployment. *)
Theorem deploy_constellation_spec (lat lon : nat -> Q) (net : SatelliteNetwork)
    (name : string) (num_satellites : Z) :
  let n := Z.to_nat num_satellites in
  let net' := deploy_constellation lat lon net name num_satellites in
  (forall i, (i < n)%nat ->
             satellites_get (satellite_name name i) (satellites net')
             = Some (mkSatellite (satellite_name name i) name (lat i) (lon i) 550 1000 true)) /\
  (forall id, (forall i, (i < n)%nat -> id <> satellite_name name i) ->
              satellites_get id (satellites net') = satellites_get id (satellites net)) /\
  (num_satellites <= 0 -> net' = net) /\
  (satellites net = [] ->
   satellites net' = map (fun i => new_satellite name i (lat i) (lon i)) (seq 0 n) /\
   NoDup (map sat_id (satellites net')) /\
   length (satellites net') = n) /\
  ground_stations net' = ground_stations net.
Proof.
  intros n net'. subst net'. unfold deploy_constellation. fold n.
  cbn [satellites ground_stations].
  split; [|split; [|split; [|split; [|reflexivity]]]].
  - intros i Hi. apply (deploy_loop_fresh lat lon name (seq 0 n) (seq_NoDup n 0)).
    apply in_seq. lia.
  - intros id Hid. apply deploy_loop_other. intros i Hi. apply Hid.
    apply in_seq in Hi. lia.
  - intros Hle. replace n with 0%nat by (subst n; lia). destruct net; reflexivity.
  - intros Hempty. rewrite Hempty.
    rewrite (deploy_loop_append lat lon name (seq 0 n) (seq_NoDup n 0) [])
      by (intros i s _ []).
    cbn [app]. split; [reflexivity|]. split.
    + rewrite map_map. cbn [new_satellite sat_id].
      apply NoDup_map_injective; [|apply seq_NoDup].
      intros i j E. exact (satellite_name_inj name i j E).
    + rewrite length_map, length_seq. reflexivity.
Qed.

(** ** [find_coverage] *)

Lemma find_coverage_loop (lat lon : Q) (sats : list Satellite) :
  forall covering,
    fold_left
      (fun covering sat =>
         if active sat then
           if Qltb (distance sat lat lon) 50 then covering ++ [sat_id sat] else covering
         else covering)
      sats covering
    = covering ++ map sat_id (filter (covers lat lon) sats).
Proof.
  induction sats as [|s sats IH]; intros covering; simpl; [rewrite app_nil_r; reflexivity|].
  rewrite IH. unfold covers at 2.
  destruct (active s); simpl; [|reflexivity].
  destruct (Qltb (distance s lat lon) 50); simpl; [|reflexivity].
  rewrite <- app_assoc. reflexivity.
Qed.

Lemma float_sub_diag (x : Q) : float_sub x x = 0%Q.
Proof.
  unfold float_sub, Float64.round64.
  replace (Qnum (x - x)) with 0 by (unfold Qminus, Qplus, Qopp; simpl; lia).
  reflexivity.
Qed.

Lemma distance_own (s : Satellite) : distance s (latitude s) (longitude s) = 0%Q.
Proof. unfold distance. rewrite !float_sub_diag. reflexivity. Qed.

(** X18.  [find_coverage] returns, in the order of the registry, the ids of
    exactly the active satellites whose distance to the point is below 50,
    one entry per satellite and never more entries than satellites; an
    inactive satellite is never returned; an active satellite is always
    returned for its own position. *)
Theorem find_coverage_spec (net : SatelliteNetwork) (lat lon : Q) :
  find_coverage net lat lon = map sat_id (filter (covers lat lon) (satellites net)) /\
  (length (find_coverage net lat lon) <= length (satellites net))%nat /\
  (forall id, In id (find_coverage net lat lon) ->
              exists s, In s (satellites net) /\ sat_id s = id /\ active s = true /\
                        (distance s lat lon < 50)%Q) /\
  (forall s, In s (satellites net) -> active s = true ->
             In (sat_id s) (find_coverage net (latitude s) (longitude s))).
Proof.
  assert (H : forall la lo, find_coverage net la lo
                            = map sat_id (filter (covers la lo) (satellites net))).
  { intros la lo. unfold find_coverage. rewrite find_coverage_loop. reflexivity. }
  split; [apply H|]. split; [|split].
  - rewrite H, length_map. apply filter_length_le.
  - intros id Hin. rewrite H in Hin. apply in_map_iff in Hin.
    destruct Hin as (s & Hid & Hs). apply filter_In in Hs. destruct Hs as [Hs Hc].
    unfold covers in Hc. apply andb_true_iff in Hc. destruct Hc as [Ha Hd].
    apply Float64Facts.Qltb_lt in Hd. exists s. auto.
  - intros s Hs Ha. rewrite H. apply in_map. apply filter_In. split; [exact Hs|].
    unfold covers. rewrite Ha, distance_own. reflexivity.
Qed.

(** X19.  Deployment and coverage together: after [deploy_constellation]
    on an empty network, a coverage query at the position drawn for satellite
    [i] returns a list that contains the id [name-i], for every [i] below the
    satellite count. *)
Theorem deployed_satellite_covered (lat lon : nat -> Q) (name : string)
    (num_satellites : Z) (i : nat) :
  (Z.of_nat i < num_satellites) ->
  In (satellite_name name i)
     (find_coverage (deploy_constellation lat lon new_satellite_network name num_satellites)
                    (lat i) (lon i)).
Proof.
  intros Hi. unfold find_coverage, deploy_constellation, new_satellite_network.
  cbn [satellites]. rewrite find_coverage_loop. cbn [app].
  rewrite (deploy_loop_append lat lon name (seq 0 (Z.to_nat num_satellites))
             (seq_NoDup _ 0) []) by (intros k s _ []).
  cbn [app].
  change (satellite_name name i) with (sat_id (new_satellite name i (lat i) (lon i))).
  apply in_map. apply filter_In. split.
  - apply (in_map (fun i => new_satellite name i (lat i) (lon i))). apply in_seq. lia.
  - unfold covers. cbn [new_satellite active].
    change (lat i) with (latitude (new_satellite name i (lat i) (lon i))) at 2.
    change (lon i) with (longitude (new_satellite name i (lat i) (lon i))) at 2.
    rewrite distance_own. reflexivity.
Qed.

Lemma deployed_satellite_covered_witness :
  Z.of_nat 3 < 200 /\
  In (satellite_name "Starlink" 3)
     (find_coverage
        (deploy_constellation (fun i => inject_Z (Z.of_nat i)) (fun i => Qopp (inject_Z (Z.of_nat i)))
           new_satellite_network "Starlink" 200)
        (inject_Z (Z.of_nat 3)) (Qopp (inject_Z (Z.of_nat 3)))).
Proof.
  assert (H : Z.of_nat 3 < 200) by lia.
  split; [exact H|].
  exact (deployed_satellite_covered (fun i => inject_Z (Z.of_nat i))
           (fun i => Qopp (inject_Z (Z.of_nat i))) "Starlink" 200 3 H).
Defined.
